(** * spn-sqlite: a worker-pool SQLite driver, verified against its specification

    The development embeds the JavaScript sources of the repository:

    - [lib/SQLCompiler.js] and its second copy (the one that checks arity),
    - [lib/DBWorker.js] (the worker handle),
    - [lib/DBDispatcher.js] (the job dispatcher),
    - [lib/WorkerRuntime.js] and [lib/BetterRuntime.js] (the two runtimes),
    - [lib/DB.js] (the application surface).

    JavaScript numbers that count things are [Z]; strings are [string];
    arrays are lists; a thrown exception is the [Throw] case of a result. *)

From Stdlib Require Import ZArith List String Ascii Bool Lia Arith DecimalString Permutation.
Import ListNotations.
Local Open Scope string_scope.
Local Open Scope Z_scope.

Set Implicit Arguments.

(* ===================================================================== *)
(** * JavaScript values, errors and string helpers                        *)
(* ===================================================================== *)

(** Bindable scalars and the results the runtimes hand back. *)
Inductive Value : Type :=
| VUndefined
| VNull
| VNum (z : Z)
| VText (s : string)
| VInfo (changes lastInsertRowid : Z).

(** A JavaScript [Error]: the fields that cross the worker boundary. *)
Record Error : Type := mkError { name : string; message : string }.

Definition js_Error (msg : string) : Error := {| name := "Error"; message := msg |}.
Definition js_TypeError (msg : string) : Error := {| name := "TypeError"; message := msg |}.

(** The outcome of evaluating an expression that may throw, or of a promise
    that has settled. *)
Inductive Result (A : Type) : Type :=
| Ok (a : A)
| Throw (e : Error).
Arguments Throw {A} e.

(** [Array.prototype.join] on an array of strings. *)
Fixpoint join (sep : string) (l : list string) : string :=
  match l with
  | [] => ""
  | x :: rest =>
      match rest with
      | [] => x
      | _ :: _ => x ++ sep ++ join sep rest
      end
  end.

(** [String.prototype.split] with a one-character separator. *)
Fixpoint split (c : ascii) (s : string) : list string :=
  match s with
  | EmptyString => [""]
  | String a rest =>
      if Ascii.eqb a c then "" :: split c rest
      else match split c rest with
           | [] => [String a ""]
           | h :: t => String a h :: t
           end
  end.

(** Number of occurrences of a character in a string. *)
Fixpoint occurrences (c : ascii) (s : string) : nat :=
  match s with
  | EmptyString => 0%nat
  | String a rest => ((if Ascii.eqb a c then 1 else 0) + occurrences c rest)%nat
  end.

Definition qmark : ascii := "?"%char.

(** The double quote, as a string. *)
Definition dquote : string := String (Ascii.ascii_of_nat 34) EmptyString.

(** Decimal rendering of a length inside a template literal. *)
Definition decimal (n : nat) : string := NilEmpty.string_of_uint (Nat.to_uint n).

(** [s[i]] on a string: the one-character string at [i], if any. *)
Fixpoint char_at (s : string) (i : nat) : option string :=
  match s, i with
  | EmptyString, _ => None
  | String a _, O => Some (String a "")
  | String _ rest, S i' => char_at rest i'
  end.

(* ===================================================================== *)
(** * The SQL composer                                                    *)
(* ===================================================================== *)

(** The first argument of [compile]: the array of literal pieces of a
    tagged template, or (alternate form) one plain string. *)
Inductive Strings : Type :=
| OneString (s : string)
| Pieces (l : list string).

(** The [sql] field of a compiled query and of a job: a string, or an array
    of pieces (the worker runtime accepts both). *)
Inductive SqlText : Type :=
| SqlString (s : string)
| SqlPieces (l : list string).

Record Compiled : Type := mkCompiled { sql : SqlText; values : list Value }.

(** [strings.length]. *)
Definition strings_length (strings : Strings) : Z :=
  match strings with
  | OneString s => Z.of_nat (String.length s)
  | Pieces l => Z.of_nat (List.length l)
  end.

(** [strings[i]] converted to a string by [+]: an index out of range reads
    [undefined], which concatenation renders as the text "undefined". *)
Definition strings_at (strings : Strings) (i : nat) : string :=
  match strings with
  | OneString s => match char_at s i with Some c => c | None => "undefined" end
  | Pieces l => nth i l "undefined"
  end.

(** The loop [for (let i = 0; i < values.length; i++) sql += '?' + strings[i + 1]],
    entered at index [i] with [n] iterations left. *)
Fixpoint compile_loop (strings : Strings) (i n : nat) (acc : string) : string :=
  match n with
  | O => acc
  | S n' => compile_loop strings (S i) n' (acc ++ "?" ++ strings_at strings (S i))
  end.

(** [lib/SQLCompiler.js]. *)
Module SQLCompiler.

Definition compile (strings : Strings) (vals : list Value) : Result Compiled :=
  match vals with
  | [] =>
      (* Fast path: no parameters *)
      match strings with
      | Pieces l => Ok {| sql := SqlString (join "" l); values := [] |}
      | OneString _ => Throw (js_TypeError "strings.join is not a function")
      end
  | _ :: _ =>
      Ok {| sql := SqlString (compile_loop strings 0 (List.length vals)
                                (strings_at strings 0));
            values := vals |}
  end.

End SQLCompiler.

(** The second copy of the composer, which tests the arity first. *)
Module SQLCompilerChecked.

Definition arity_message (strings : Strings) (vals : list Value) : string :=
  "Error! Query params (" ++ decimal (Z.to_nat (strings_length strings))
    ++ ") and provided values (" ++ decimal (List.length vals)
    ++ ") are different sized lists! Cannot proceed safely.".

Definition compile (strings : Strings) (vals : list Value) : Result Compiled :=
  match strings with
  | OneString s => Ok {| sql := SqlPieces [s]; values := [] |}
  | Pieces l =>
      if negb (Z.of_nat (List.length vals) =? strings_length strings - 1)
      then Throw (js_Error (arity_message strings vals))
      else
        match vals with
        | [] =>
            (* Fast path: no parameters *)
            Ok {| sql := SqlString (join "" l); values := [] |}
        | _ :: _ =>
            Ok {| sql := SqlString (compile_loop strings 0 (List.length vals)
                                      (strings_at strings 0));
                  values := vals |}
        end
  end.

End SQLCompilerChecked.

(** The spec's error class for a composer arity mismatch. *)
Definition InvalidQuery (e : Error) : Prop :=
  exists strings vals, e = js_Error (SQLCompilerChecked.arity_message strings vals).

(** What the spec writes as
    [fragments[0] ⊕ "?" ⊕ fragments[1] ⊕ … ⊕ "?" ⊕ fragments[N−1]]. *)
Definition interleaved (fragments : list string) : string := join "?" fragments.

(** The output with every "?" removed and the pieces rejoined. *)
Definition without_placeholders (s : string) : string := join "" (split qmark s).

(** No "?" inside a fragment. *)
Definition placeholder_free (s : string) : Prop := occurrences qmark s = 0%nat.

(* ===================================================================== *)
(** * Jobs                                                                *)
(* ===================================================================== *)

(** The [method] field of a job.  The application surface sends the first
    seven; the runtimes also know [transaction] and reject anything else. *)
Inductive Method : Type :=
| Exec | Run | Get | All
| BeginTransaction | Commit | Rollback
| Transaction
| OtherMethod (m : string).

(** A job as the application hands it to [submit]; [steps] is only read by
    the runtimes' [transaction] case. *)
Local Unset Elimination Schemes.
Inductive Job : Type :=
  mkJob { method : Method;
          job_sql : option SqlText;
          job_values : option (list Value);
          steps : option (list Job) }.
Local Set Elimination Schemes.

(** [{ ...job, id }]. *)
Record Payload : Type := mkPayload { id : Z; job : Job }.

(** A queued entry [{ payload, resolve, reject }].  The two callbacks belong
    to the promise [submit] returned; every call of one of them is recorded
    in the system's [settlements] under the payload's id. *)
Record Entry : Type := mkEntry { payload : Payload }.

(** A message a worker thread posts back: [{ id, result }] or [{ id, error }]. *)
Record Message : Type := mkMessage { msg_id : Z; msg_body : Result Value }.

Definition control (m : Method) : Job :=
  {| method := m; job_sql := None; job_values := None; steps := None |}.

(* ===================================================================== *)
(** * The worker handle ([DBWorker])                                      *)
(* ===================================================================== *)

Module DBWorker.

(** [#inflight = { id, resolve, reject }]: the callbacks settle the promise
    that [run] returned. *)
Record Inflight : Type := mkInflight { inflight_id : Z }.

(** The private fields, and the payloads posted to the thread so far. *)
Record t : Type := mk {
  busy : bool;
  inflight : option Inflight;
  closed : bool;
  posted : list Payload
}.

(** A freshly constructed handle. *)
Definition create : t :=
  {| busy := false; inflight := None; closed := false; posted := [] |}.

Definition deserializeError (err : Error) : Error :=
  {| name := name err; message := message err |}.

(** The ['message'] listener.  The second component is the settlement of
    the promise of [run], when the message is the awaited reply. *)
Definition on_message (msg : Message) (w : t) : t * option (Result Value) :=
  match inflight w with
  | None => (w, None)
  | Some fl =>
      if negb (inflight_id fl =? msg_id msg) then (w, None) (* stray or late *)
      else
        let w' := {| busy := false; inflight := None;
                     closed := closed w; posted := posted w |} in
        match msg_body msg with
        | Throw err => (w', Some (Throw (deserializeError err)))
        | Ok v => (w', Some (Ok v))
        end
  end.

(** The ['error'] listener. *)
Definition on_error (err : Error) (w : t) : t * option (Result Value) :=
  match inflight w with
  | Some _ =>
      ({| busy := false; inflight := None; closed := closed w; posted := posted w |},
       Some (Throw err))
  | None =>
      ({| busy := false; inflight := inflight w; closed := closed w;
          posted := posted w |}, None)
  end.

(** [run(payload)] up to the point where it returns its promise. *)
Definition run (p : Payload) (w : t) : Result t :=
  if busy w then Throw (js_Error "Worker is already busy")
  else Ok {| busy := true;
             inflight := Some {| inflight_id := id p |};
             closed := closed w;
             posted := posted w ++ [p] |}.

(** [terminate()] after [await this.#worker.terminate()] has resolved. *)
Definition terminated (w : t) : t :=
  {| busy := busy w; inflight := inflight w; closed := true; posted := posted w |}.

End DBWorker.

(* ===================================================================== *)
(** * The dispatcher ([DBDispatcher]) and the event loop around it        *)
(* ===================================================================== *)

(** [maxQueue]: a number, or the default [Infinity]. *)
Inductive Bound : Type :=
| Infinity
| Finite (m : Z).

(** [len >= bound]. *)
Definition reaches (len : Z) (b : Bound) : bool :=
  match b with
  | Infinity => false
  | Finite m => len >=? m
  end.

(** Who awaits a call of [DBWorker.terminate()]. *)
Inductive TerminateOwner : Type :=
| ByShutdown (call : nat)   (* the [Promise.all] of a [shutdown()], in the worker's slot *)
| ByOutsource.              (* the [await] of [#outsource] once closed *)

(** Work the event loop still owes the dispatcher. *)
Inductive Task : Type :=
| TImmediate (e : Entry)
    (* [setImmediate(() => this.#outsource(e))] *)
| TAwaitRun (e : Entry) (w : nat) (settled : option (Result Value))
    (* [#outsource(e)] suspended at [await worker.run(e.payload)] on worker [w] *)
| TTerminate (w : nat) (owner : TerminateOwner)
    (* a [terminate()] of worker [w] suspended at [await this.#worker.terminate()] *)
| TPoll (call : nat) (slot : nat).
    (* the interval of a [#waitForWorkerShutdown()] *)

Inductive SubState : Type := SubPending | SubFulfilled | SubRejected.

(** One call of [shutdown()]: the promises handed to [Promise.all], one per
    worker, and the entries that were queued when it was called. *)
Record ShutdownCall : Type := mkShutdownCall {
  subs : list SubState;
  snapshot : list Entry
}.

(** Where the running synchronous code stands: nothing is running, or
    [#outsource] has reached [if (this.#queue.length)]. *)
Inductive PC : Type := Idle | AtTail.

Definition shuttingDown : Error := js_Error "DBDispatcher shutting down".
Definition dispatcherClosed : Error := js_Error "DBDispatcher is closed".
Definition queueFull : Error := js_Error "DB queue is full".
Definition locked : string := "database is locked".

Module DBDispatcher.

(** The private fields of the dispatcher together with the state of the
    event loop that its callbacks live in. *)
Record t : Type := mk {
  workers : list DBWorker.t;
  queue : list Entry;
  nextJobId : Z;
  closed : bool;
  workerShutdownComplete : bool;
  maxQueue : Bound;
  tasks : list Task;
  settlements : list (Z * Result Value);
  shutdowns : list ShutdownCall;
  pc : PC
}.

(** [new DBDispatcher({ size, maxQueue })]. *)
Definition create (size : nat) (maxQueue : Bound) : t :=
  {| workers := repeat DBWorker.create size;
     queue := [];
     nextJobId := 1;
     closed := false;
     workerShutdownComplete := false;
     maxQueue := maxQueue;
     tasks := [];
     settlements := [];
     shutdowns := [];
     pc := Idle |}.

(** Field updates. *)
Definition set_workers (ws : list DBWorker.t) (d : t) : t :=
  mk ws (queue d) (nextJobId d) (closed d) (workerShutdownComplete d)
     (maxQueue d) (tasks d) (settlements d) (shutdowns d) (pc d).
Definition set_queue (q : list Entry) (d : t) : t :=
  mk (workers d) q (nextJobId d) (closed d) (workerShutdownComplete d)
     (maxQueue d) (tasks d) (settlements d) (shutdowns d) (pc d).
Definition set_nextJobId (n : Z) (d : t) : t :=
  mk (workers d) (queue d) n (closed d) (workerShutdownComplete d)
     (maxQueue d) (tasks d) (settlements d) (shutdowns d) (pc d).
Definition set_closed (b : bool) (d : t) : t :=
  mk (workers d) (queue d) (nextJobId d) b (workerShutdownComplete d)
     (maxQueue d) (tasks d) (settlements d) (shutdowns d) (pc d).
Definition set_workerShutdownComplete (b : bool) (d : t) : t :=
  mk (workers d) (queue d) (nextJobId d) (closed d) b
     (maxQueue d) (tasks d) (settlements d) (shutdowns d) (pc d).
Definition set_tasks (ts : list Task) (d : t) : t :=
  mk (workers d) (queue d) (nextJobId d) (closed d) (workerShutdownComplete d)
     (maxQueue d) ts (settlements d) (shutdowns d) (pc d).
Definition set_settlements (l : list (Z * Result Value)) (d : t) : t :=
  mk (workers d) (queue d) (nextJobId d) (closed d) (workerShutdownComplete d)
     (maxQueue d) (tasks d) l (shutdowns d) (pc d).
Definition set_shutdowns (l : list ShutdownCall) (d : t) : t :=
  mk (workers d) (queue d) (nextJobId d) (closed d) (workerShutdownComplete d)
     (maxQueue d) (tasks d) (settlements d) l (pc d).
Definition set_pc (p : PC) (d : t) : t :=
  mk (workers d) (queue d) (nextJobId d) (closed d) (workerShutdownComplete d)
     (maxQueue d) (tasks d) (settlements d) (shutdowns d) p.

(** [entry.resolve(v)] and [entry.reject(err)]. *)
Definition resolve (e : Entry) (v : Value) (d : t) : t :=
  set_settlements (settlements d ++ [(id (payload e), Ok v)]) d.
Definition reject (e : Entry) (err : Error) (d : t) : t :=
  set_settlements (settlements d ++ [(id (payload e), Throw err)]) d.

(** A promise settles once: the state of an awaiter is the first call of
    [resolve] or [reject] on it. *)
Fixpoint awaiter (i : Z) (l : list (Z * Result Value)) : option (Result Value) :=
  match l with
  | [] => None
  | (j, r) :: rest => if j =? i then Some r else awaiter i rest
  end.

(** [this.#workers.find(w => !w.busy)], as the position of the worker. *)
Fixpoint find_idle (ws : list DBWorker.t) (i : nat) : option nat :=
  match ws with
  | [] => None
  | w :: rest => if negb (DBWorker.busy w) then Some i else find_idle rest (S i)
  end.
Definition getIdleWorker (d : t) : option nat := find_idle (workers d) 0.

(** [workers[i] = w]. *)
Fixpoint replace_nth {A : Type} (i : nat) (x : A) (l : list A) : list A :=
  match l, i with
  | [], _ => []
  | _ :: rest, O => x :: rest
  | y :: rest, S i' => y :: replace_nth i' x rest
  end.

(** [this.#workers.filter(w => !w.closed)]. *)
Definition openWorkers (d : t) : list DBWorker.t :=
  filter (fun w => negb (DBWorker.closed w)) (workers d).

(** The lines of [#outsource] after the [await worker.terminate()]. *)
Definition outsource_after_terminate (d : t) : t :=
  match openWorkers d with
  | [] => set_workerShutdownComplete true d
  | _ :: _ => d
  end.

(** [#outsource(entry)] from its first line to its first [await], to its
    [return], or to the test [if (this.#queue.length)]. *)
Definition outsource_head (e : Entry) (d : t) : t :=
  match getIdleWorker d with
  | Some i =>
      match nth_error (workers d) i with
      | None => d
      | Some w =>
          if closed d then
            if negb (DBWorker.closed w)
            then set_pc Idle (set_tasks (tasks d ++ [TTerminate i ByOutsource]) d)
            else set_pc Idle (outsource_after_terminate d)
          else
            match DBWorker.run (payload e) w with
            | Ok w' =>
                set_pc Idle
                  (set_tasks (tasks d ++ [TAwaitRun e i None])
                     (set_workers (replace_nth i w' (workers d)) d))
            | Throw err =>
                if String.eqb (message err) locked
                then set_pc AtTail (set_queue (e :: queue d) d)
                else set_pc AtTail (reject e err d)
            end
      end
  | None => set_pc AtTail (set_queue (queue d ++ [e]) d)
  end.

(** [#outsource(entry)] from the moment the promise of [worker.run] has
    settled to the test [if (this.#queue.length)]. *)
Definition outsource_resume (e : Entry) (r : Result Value) (d : t) : t :=
  match r with
  | Ok v => set_pc AtTail (resolve e v d)
  | Throw err =>
      if String.eqb (message err) locked
      then set_pc AtTail (set_queue (e :: queue d) d)       (* unshift *)
      else set_pc AtTail (reject e err d)
  end.

(** The last lines of [#outsource]. *)
Definition outsource_tail (d : t) : t :=
  match queue d with
  | [] => set_pc Idle d
  | next_entry :: rest =>
      set_pc Idle (set_tasks (tasks d ++ [TImmediate next_entry]) (set_queue rest d))
  end.

(** What [submit] returns: a promise already rejected, or the new promise
    whose callbacks went into the entry with this id. *)
Inductive Submitted : Type :=
| Rejected (err : Error)
| Awaiting (i : Z).

(** [submit(job)] up to the point where [#outsource] stops running (that
    is, before its last lines when it reaches them). *)
Definition submit (j : Job) (d : t) : Submitted * t :=
  if closed d then (Rejected dispatcherClosed, d)
  else if reaches (Z.of_nat (List.length (queue d))) (maxQueue d)
  then (Rejected queueFull, d)
  else
    let i := nextJobId d in
    let d1 := set_nextJobId (i + 1) d in
    let p := {| id := i; job := j |} in
    (Awaiting i, outsource_head {| payload := p |} d1).

(** The loop [for (const entry of this.#queue) entry.reject(...)]. *)
Fixpoint reject_all (q : list Entry) (d : t) : t :=
  match q with
  | [] => d
  | e :: rest => reject_all rest (reject e shuttingDown d)
  end.

(** The callback of [this.#workers.map] in [shutdown()], for the call
    numbered [k]: the promise put in slot [i], and the task that will
    settle it. *)
Definition shutdown_worker (k i : nat) (w : DBWorker.t) : SubState * Task :=
  if negb (DBWorker.busy w)
  then (SubPending, TTerminate i (ByShutdown k))    (* w.terminate() *)
  else (SubPending, TPoll k i).                     (* this.#waitForWorkerShutdown() *)

Fixpoint shutdown_workers (k i : nat) (ws : list DBWorker.t)
  : list (SubState * Task) :=
  match ws with
  | [] => []
  | w :: rest => shutdown_worker k i w :: shutdown_workers k (S i) rest
  end.

(** [shutdown()] up to its [await Promise.all(...)]. *)
Definition shutdown (d : t) : t :=
  let k := List.length (shutdowns d) in
  let d1 := set_closed true d in
  let d2 := reject_all (queue d1) d1 in
  let d3 := set_queue [] d2 in
  let started := shutdown_workers k 0 (workers d3) in
  set_shutdowns (shutdowns d3 ++ [{| subs := map fst started; snapshot := queue d |}])
    (set_tasks (tasks d3 ++ map snd started) d3).

(** The promise of the [k]-th call of [shutdown()] has resolved: every
    promise given to [Promise.all] is fulfilled. *)
Definition shutdown_resolved (k : nat) (d : t) : bool :=
  match nth_error (shutdowns d) k with
  | None => false
  | Some c => forallb (fun s => match s with SubFulfilled => true | _ => false end)
                (subs c)
  end.

(** Settle slot [i] of the [Promise.all] of call [k]. *)
Definition settle_sub (k i : nat) (st : SubState) (d : t) : t :=
  match nth_error (shutdowns d) k with
  | None => d
  | Some c =>
      set_shutdowns
        (replace_nth k {| subs := replace_nth i st (subs c);
                          snapshot := snapshot c |} (shutdowns d)) d
  end.

(** Settle the promise of [run] that the [#outsource] suspended on worker
    [w] awaits. *)
Fixpoint settle_run (w : nat) (r : Result Value) (ts : list Task) : list Task :=
  match ts with
  | [] => []
  | TAwaitRun e w' None :: rest =>
      if Nat.eqb w' w then TAwaitRun e w' (Some r) :: rest
      else TAwaitRun e w' None :: settle_run w r rest
  | t0 :: rest => t0 :: settle_run w r rest
  end.

(** Take the task at a position out of the task list. *)
Fixpoint take {A : Type} (n : nat) (l : list A) : option (A * list A) :=
  match l, n with
  | [], _ => None
  | x :: rest, O => Some (x, rest)
  | x :: rest, S n' =>
      match take n' rest with
      | None => None
      | Some (y, rest') => Some (y, x :: rest')
      end
  end.

(** What can happen next. *)
Inductive Label : Type :=
| LSubmit (j : Job)                      (* the application calls [submit] *)
| LShutdown                              (* the application calls [shutdown] *)
| LMessage (w : nat) (msg : Message)     (* worker [w]'s thread posts a message *)
| LWorkerError (w : nat) (err : Error)   (* worker [w]'s thread emits ['error'] *)
| LResume (t : nat)                      (* a settled [await worker.run] continues *)
| LImmediate (t : nat)                   (* a [setImmediate] callback fires *)
| LTerminated (t : nat) (ok : bool)      (* a thread's [terminate()] settles *)
| LPoll (t : nat)                        (* an interval callback fires *)
| LTail.                                 (* the running [#outsource] goes on *)

(** A worker event: run the listener, store the handle, settle the
    awaited promise. *)
Definition worker_event (i : nat)
    (listener : DBWorker.t -> DBWorker.t * option (Result Value)) (d : t) : option t :=
  match nth_error (workers d) i with
  | None => None
  | Some w =>
      let (w', settled) := listener w in
      let d1 := set_workers (replace_nth i w' (workers d)) d in
      Some match settled with
           | None => d1
           | Some r => set_tasks (settle_run i r (tasks d1)) d1
           end
  end.

(** One step of the event loop; [None] when the label cannot happen in
    this state. *)
Definition step (l : Label) (d : t) : option t :=
  match pc d, l with
  | AtTail, LTail => Some (outsource_tail d)
  | AtTail, _ => None
  | Idle, LTail => None
  | Idle, LSubmit j => Some (snd (submit j d))
  | Idle, LShutdown => Some (shutdown d)
  | Idle, LMessage i msg => worker_event i (DBWorker.on_message msg) d
  | Idle, LWorkerError i err => worker_event i (DBWorker.on_error err) d
  | Idle, LResume n =>
      match take n (tasks d) with
      | Some (TAwaitRun e _ (Some r), rest) => Some (outsource_resume e r (set_tasks rest d))
      | _ => None
      end
  | Idle, LImmediate n =>
      match take n (tasks d) with
      | Some (TImmediate e, rest) => Some (outsource_head e (set_tasks rest d))
      | _ => None
      end
  | Idle, LTerminated n ok =>
      match take n (tasks d) with
      | Some (TTerminate i owner, rest) =>
          let d1 := set_tasks rest d in
          if ok then
            match nth_error (workers d1) i with
            | None => None
            | Some w =>
                let d2 := set_workers
                            (replace_nth i (DBWorker.terminated w) (workers d1)) d1 in
                Some match owner with
                     | ByShutdown k => settle_sub k i SubFulfilled d2
                     | ByOutsource => outsource_after_terminate d2
                     end
            end
          else
            Some match owner with
                 | ByShutdown k => settle_sub k i SubRejected d1
                 | ByOutsource => d1       (* caught and ignored *)
                 end
      | _ => None
      end
  | Idle, LPoll n =>
      match take n (tasks d) with
      | Some (TPoll k slot, rest) =>
          if workerShutdownComplete d
          then Some (settle_sub k slot SubFulfilled (set_tasks rest d))
          else Some d
      | _ => None
      end
  end.

(** A run of the event loop. *)
Fixpoint run (ls : list Label) (d : t) : option t :=
  match ls with
  | [] => Some d
  | l :: rest =>
      match step l d with
      | None => None
      | Some d' => run rest d'
      end
  end.

(** The ids that the accepted [submit] calls of a run hand out. *)
Fixpoint ids_issued (ls : list Label) (d : t) : list Z :=
  match ls with
  | [] => []
  | l :: rest =>
      match step l d with
      | None => []
      | Some d' =>
          match l with
          | LSubmit j =>
              match fst (submit j d) with
              | Awaiting i => i :: ids_issued rest d'
              | Rejected _ => ids_issued rest d'
              end
          | _ => ids_issued rest d'
          end
      end
  end.

(** The states a dispatcher built with [size] workers and [maxQueue] can
    be in. *)
Definition reachable (size : nat) (maxQueue : Bound) (d : t) : Prop :=
  exists ls, run ls (create size maxQueue) = Some d.

End DBDispatcher.

(* ===================================================================== *)
(** * The two worker runtimes                                             *)
(* ===================================================================== *)

(** A call on the SQLite connection.  An argument that JavaScript would
    pass as [undefined] is [None]. *)
Inductive Call : Type :=
| CExec (script : option SqlText)                       (* [db.exec(script)] *)
| CPragma (text : string)                               (* [db.pragma(text)] *)
| CPrepare (text : option SqlText)                      (* [db.prepare(text)] *)
| CStatement (m : Method) (text : option SqlText) (vals : list Value)
                                                        (* [stmt.run|get|all(...vals)] *)
| CTagged (m : Method) (pieces : option (list string)) (vals : list Value).
                                                        (* [tagStore.run|get|all(pieces, ...vals)] *)

(** The connection, seen from the runtime: the calls made on it so far. *)
Definition Conn : Type := list Call.

(** The engine is outside the repository: it answers a call, given the
    calls before it, with a value or by throwing. *)
Definition Engine : Type := Conn -> Call -> Result Value.

Definition call (sqlite : Engine) (c : Call) (conn : Conn) : Result Value * Conn :=
  (sqlite conn c, (conn ++ [c])%list).

(** [this.#db.exec(text); return undefined;] *)
Definition exec_undefined (sqlite : Engine) (text : string) (conn : Conn)
  : Result Value * Conn :=
  match call sqlite (CExec (Some (SqlString text))) conn with
  | (Ok _, conn') => (Ok VUndefined, conn')
  | (Throw e, conn') => (Throw e, conn')
  end.

Definition as_text (s : option string) : option SqlText :=
  match s with
  | Some x => Some (SqlString x)
  | None => None
  end.

(** [lib/WorkerRuntime.js], the runtime of the built-in driver. *)
Module WorkerRuntime.

(** The first lines of [#handle]: [split_sql]. *)
Definition split_sql (s : option SqlText) : option (list string) :=
  match s with
  | Some (SqlString x) => Some (split qmark x)
  | Some (SqlPieces l) => Some l
  | None => None
  end.

(** [#handle(job)], with [#runTransaction(steps)] inside it. *)
Fixpoint handle (sqlite : Engine) (j : Job) (conn : Conn) {struct j}
  : Result Value * Conn :=
  match j with
  | mkJob m s v st =>
      match m with
      | BeginTransaction => exec_undefined sqlite "BEGIN IMMEDIATE" conn
      | Commit => exec_undefined sqlite "COMMIT" conn
      | Rollback => exec_undefined sqlite "ROLLBACK" conn
      | Exec =>
          match split_sql s with
          | None =>
              (Throw (js_TypeError "Cannot read properties of undefined (reading '0')"),
               conn)
          | Some pieces => call sqlite (CExec (as_text (nth_error pieces 0))) conn
          end
      | Run | Get | All =>
          match v with
          | None => (Throw (js_TypeError "Spread syntax requires ...iterable"), conn)
          | Some vals => call sqlite (CTagged m (split_sql s) vals) conn
          end
      | Transaction =>
          match call sqlite (CExec (Some (SqlString "BEGIN"))) conn with
          | (Throw e, conn0) => (Throw e, conn0)
          | (Ok _, conn0) =>
              let body :=
                match st with
                | None => (Throw (js_TypeError "steps is not iterable"), conn0)
                | Some l =>
                    (fix each (l : list Job) (result : Value) (c : Conn)
                       : Result Value * Conn :=
                       match l with
                       | [] =>
                           match call sqlite (CExec (Some (SqlString "COMMIT"))) c with
                           | (Ok _, c') => (Ok result, c')
                           | (Throw e, c') => (Throw e, c')
                           end
                       | step :: rest =>
                           match handle sqlite step c with
                           | (Ok r, c') => each rest r c'
                           | (Throw e, c') => (Throw e, c')
                           end
                       end) l VUndefined conn0
                end in
              match body with
              | (Ok r, c) => (Ok r, c)
              | (Throw err, c) =>
                  (* rollback errors are ignored *)
                  (Throw err, snd (call sqlite (CExec (Some (SqlString "ROLLBACK"))) c))
              end
          end
      | OtherMethod m' => (Throw (js_Error ("Unknown DB method: " ++ m')), conn)
      end
  end.

(** The listener installed by [start()]: handle the job, post the reply. *)
Definition on_message (sqlite : Engine) (p : Payload) (conn : Conn) : Message * Conn :=
  let (r, conn') := handle sqlite (job p) conn in
  ({| msg_id := id p; msg_body := r |}, conn').

End WorkerRuntime.

(** [lib/BetterRuntime.js], the runtime of the native binding. *)
Module BetterRuntime.

(** The connection and the keys of the statement cache. *)
Record t : Type := mk { db : Conn; statements : list string }.

(** [new BetterRuntime(...)]: open, then [pragma('foreign_keys = ON')]. *)
Definition create (sqlite : Engine) : t :=
  {| db := snd (call sqlite (CPragma "foreign_keys = ON") []); statements := [] |}.

(** [#getStatement(sql)].  Only a string can be found again in the [Map]:
    an array arrives as a fresh object with every message. *)
Definition getStatement (sqlite : Engine) (s : option SqlText) (rt : t)
  : Result unit * t :=
  let cached := match s with
                | Some (SqlString x) => existsb (String.eqb x) (statements rt)
                | _ => false
                end in
  if cached then (Ok tt, rt)
  else
    match call sqlite (CPrepare s) (db rt) with
    | (Throw e, c) => (Throw e, {| db := c; statements := statements rt |})
    | (Ok _, c) =>
        (Ok tt, {| db := c;
                   statements := match s with
                                 | Some (SqlString x) => x :: statements rt
                                 | _ => statements rt
                                 end |})
    end.

Definition on_conn (f : Conn -> Result Value * Conn) (rt : t) : Result Value * t :=
  let (r, c) := f (db rt) in (r, {| db := c; statements := statements rt |}).

(** [#handle(job)]; [#runTransaction] goes through better-sqlite3's
    [db.transaction(fn)()], which brackets [fn] by BEGIN and COMMIT and
    rolls back when [fn] throws. *)
Fixpoint handle (sqlite : Engine) (j : Job) (rt : t) {struct j} : Result Value * t :=
  match j with
  | mkJob m s v st =>
      let vals := match v with Some l => l | None => [] end in
      match m with
      | BeginTransaction => on_conn (exec_undefined sqlite "BEGIN IMMEDIATE") rt
      | Commit => on_conn (exec_undefined sqlite "COMMIT") rt
      | Rollback => on_conn (exec_undefined sqlite "ROLLBACK") rt
      | Transaction =>
          match on_conn (call sqlite (CExec (Some (SqlString "BEGIN")))) rt with
          | (Throw e, rt0) => (Throw e, rt0)
          | (Ok _, rt0) =>
              let body :=
                match st with
                | None => (Throw (js_TypeError "steps is not iterable"), rt0)
                | Some l =>
                    (fix each (l : list Job) (lastResult : Value) (r0 : t)
                       : Result Value * t :=
                       match l with
                       | [] =>
                           match on_conn (call sqlite (CExec (Some (SqlString "COMMIT")))) r0 with
                           | (Ok _, r1) => (Ok lastResult, r1)
                           | (Throw e, r1) => (Throw e, r1)
                           end
                       | step :: rest =>
                           match handle sqlite step r0 with
                           | (Ok r, r1) => each rest r r1
                           | (Throw e, r1) => (Throw e, r1)
                           end
                       end) l VUndefined rt0
                end in
              match body with
              | (Ok r, r1) => (Ok r, r1)
              | (Throw err, r1) =>
                  (Throw err,
                   snd (on_conn (call sqlite (CExec (Some (SqlString "ROLLBACK")))) r1))
              end
          end
      | Exec =>
          (* better-sqlite3 allows multi-statement here *)
          match on_conn (call sqlite (CExec s)) rt with
          | (Ok _, rt') => (Ok VUndefined, rt')
          | (Throw e, rt') => (Throw e, rt')
          end
      | Run | Get | All =>
          match getStatement sqlite s rt with
          | (Throw e, rt') => (Throw e, rt')
          | (Ok _, rt') => on_conn (call sqlite (CStatement m s vals)) rt'
          end
      | OtherMethod m' =>
          match getStatement sqlite s rt with
          | (Throw e, rt') => (Throw e, rt')
          | (Ok _, rt') => (Throw (js_Error ("Unknown method: " ++ m')), rt')
          end
      end
  end.

(** The listener of [workers/better.worker.js]. *)
Definition on_message (sqlite : Engine) (p : Payload) (rt : t) : Message * t :=
  let (r, rt') := handle sqlite (job p) rt in
  ({| msg_id := id p; msg_body := r |}, rt').

End BetterRuntime.

(** The script a runtime was asked to execute by its latest [exec] call. *)
Fixpoint last_script (conn : Conn) : option (option SqlText) :=
  match conn with
  | [] => None
  | c :: rest =>
      match last_script rest with
      | Some s => Some s
      | None => match c with CExec s => Some s | _ => None end
      end
  end.

(** An engine that accepts every call and answers [undefined]. *)
Definition accepting : Engine := fun _ _ => Ok VUndefined.

(* ===================================================================== *)
(** * The application surface ([DB])                                      *)
(* ===================================================================== *)

(** A property or argument that may be left out. *)
Inductive Arg (A : Type) : Type :=
| Undefined
| Null
| Given (a : A).
Arguments Undefined {A}.
Arguments Null {A}.

(** A destructuring default: it replaces [undefined] only. *)
Definition defaulting {A : Type} (d : A) (a : Arg A) : Arg A :=
  match a with
  | Undefined => Given d
  | _ => a
  end.

(** [a === s] for a string literal [s]. *)
Definition is_string (s : string) (a : Arg string) : bool :=
  match a with
  | Given x => String.eqb x s
  | _ => false
  end.

(** [s.replace(pat, rep)] with a string pattern: the first occurrence only. *)
Fixpoint replace_first (pat rep s : string) : string :=
  if String.prefix pat s
  then rep ++ String.substring (String.length pat)
                (String.length s - String.length pat) s
  else match s with
       | EmptyString => ""
       | String a rest => String a (replace_first pat rep rest)
       end.

Module DB.

(** ** The constructor *)

Record Options : Type := mkOptions {
  filename : Arg string;
  driver : Arg string;
  workers : Arg Z
}.

Inductive WorkerScript : Type :=
| better_worker   (* ./workers/better.worker.js *)
| db_worker.      (* ./workers/db.worker.js *)

(** What the constructor passes to [new DBDispatcher]. *)
Record DispatcherOptions : Type := mkDispatcherOptions {
  workerPath : WorkerScript;
  size : Z;
  workerData_filename : Arg string
}.

(** [#getWorkerPath(driver)]. *)
Definition getWorkerPath (drv : Arg string) : Result WorkerScript :=
  match drv with
  | Given d =>
      let normal := replace_first "sqlite3" "sqlite" d in
      if String.eqb normal "better-sqlite" then Ok better_worker
      else if String.eqb normal "node:sqlite" then Ok db_worker
      else Throw (js_Error ("Sorry, the provided worker_driver " ++ dquote
                              ++ d ++ dquote ++ " is not supported."))
  | _ => Throw (js_TypeError "Cannot read properties of null (reading 'replace')")
  end.

Definition default_options : Options :=
  {| filename := Given ":memory:"; driver := Given "node:sqlite"; workers := Given 1 |}.

(** [new DB(arg)], on a host whose [os.availableParallelism()] is
    [availableParallelism]. *)
Definition constructor (availableParallelism : Z) (arg : Arg Options)
  : Result DispatcherOptions :=
  match defaulting default_options arg with
  | Given o =>
      let filename := defaulting ":memory:" (filename o) in
      let driver := defaulting "node:sqlite" (driver o) in
      let workers := defaulting 1 (workers o) in
      let defaultWorkers :=
        if is_string "better-sqlite" driver then 1
        else if is_string ":memory:" filename then availableParallelism else 2 in
      let size := match workers with           (* workers ?? defaultWorkers *)
                  | Given n => n
                  | _ => defaultWorkers
                  end in
      match getWorkerPath driver with
      | Throw e => Throw e
      | Ok path =>
          Ok {| workerPath := path; size := size; workerData_filename := filename |}
      end
  | _ => Throw (js_TypeError "Cannot destructure 'null'")
  end.

(** The formula the spec gives for the default worker count. *)
Definition spec_default_workers (availableParallelism : Z)
    (drv fname : string) : Z :=
  if String.eqb drv "better-sqlite" then 1
  else if String.eqb fname ":memory:" then availableParallelism else 2.

(** ** Query methods and transactions *)

(** The private state of one [DB] object: the flag, and the jobs it has
    handed to its dispatcher, oldest first. *)
Record t : Type := mk { inTransaction : bool; submitted : list Job }.

(** Objects are named by references; the store holds every [DB] object. *)
Definition Ref : Type := nat.
Definition Store : Type := Ref -> t.

Definition update (this : Ref) (o : t) (st : Store) : Store :=
  fun r => if Nat.eqb r this then o else st r.

(** Code running on the application's thread, awaiting included: it
    transforms the store and returns or throws. *)
Definition M (A : Type) : Type := Store -> Result A * Store.

Definition ret {A : Type} (a : A) : M A := fun st => (Ok a, st).
Definition throw {A : Type} (e : Error) : M A := fun st => (Throw e, st).
Definition bind {A B : Type} (c : M A) (k : A -> M B) : M B :=
  fun st =>
    match c st with
    | (Ok a, st') => k a st'
    | (Throw e, st') => (Throw e, st')
    end.
(** [try { c } catch (err) { handler(err) }] *)
Definition try_catch {A : Type} (c : M A) (handler : Error -> M A) : M A :=
  fun st =>
    match c st with
    | (Ok a, st') => (Ok a, st')
    | (Throw e, st') => handler e st'
    end.
(** [await p.catch(() => {})] *)
Definition swallow (c : M Value) : M Value :=
  try_catch c (fun _ => ret VUndefined).

Declare Scope db_scope.
Notation "x <- c ;; k" := (bind c (fun x => k))
  (at level 61, c at next level, right associativity) : db_scope.
Notation "c ;;; k" := (bind c (fun _ => k))
  (at level 61, right associativity) : db_scope.
Local Open Scope db_scope.

Definition get_inTransaction (this : Ref) : M bool :=
  fun st => (Ok (inTransaction (st this)), st).
Definition set_inTransaction (this : Ref) (b : bool) : M unit :=
  fun st => (Ok tt, update this {| inTransaction := b;
                                   submitted := submitted (st this) |} st).

Section Surface.

(** How the dispatcher settles the promise of a submitted job, given the
    jobs submitted before it. *)
Variable settle : list Job -> Job -> Result Value.

(** [await this.#submit(job)]. *)
Definition submit (this : Ref) (j : Job) : M Value :=
  fun st =>
    (settle (submitted (st this)) j,
     update this {| inTransaction := inTransaction (st this);
                    submitted := submitted (st this) ++ [j] |} st).

(** [await db.exec(strings, ...values)]. *)
Definition exec (this : Ref) (strings : list string) (vals : list Value) : M Value :=
  match vals with
  | _ :: _ => throw (js_Error "exec() does not support parameters")
  | [] =>
      submit this {| method := Exec;
                     job_sql := Some (SqlString (join "" strings));
                     job_values := None;
                     steps := None |}
  end.

(** [await db.run|get|all(strings, ...values)]. *)
Definition query (m : Method) (this : Ref) (strings : Strings) (vals : list Value)
  : M Value :=
  match SQLCompiler.compile strings vals with
  | Throw e => throw e
  | Ok c =>
      submit this {| method := m;
                     job_sql := Some (sql c);
                     job_values := Some (values c);
                     steps := None |}
  end.

(** [await db.transaction(fn)]. *)
Definition transaction (this : Ref) (fn : Ref -> M Value) : M Value :=
  inTx <- get_inTransaction this ;;
  if (inTx : bool) then
    (* Nested: just run the function *)
    fn this
  else
    set_inTransaction this true ;;;
    try_catch
      (submit this (control BeginTransaction) ;;;
       result <- fn this ;;
       submit this (control Commit) ;;;
       set_inTransaction this false ;;;
       ret result)
      (fun err =>
         swallow (submit this (control Rollback)) ;;;   (* ignore rollback errors *)
         set_inTransaction this false ;;;
         throw err).

End Surface.

End DB.

(* ===================================================================== *)
(** * Auxiliary functions used to state the properties                    *)
(* ===================================================================== *)

(** [sep ⊕ x1 ⊕ sep ⊕ x2 ⊕ …]: what the composer's loop appends. *)
Fixpoint prefixed (sep : string) (l : list string) : string :=
  match l with
  | [] => ""
  | x :: rest => sep ++ x ++ prefixed sep rest
  end.

(** A string with every occurrence of a character dropped. *)
Fixpoint remove_char (c : ascii) (s : string) : string :=
  match s with
  | EmptyString => ""
  | String a rest =>
      if Ascii.eqb a c then remove_char c rest else String a (remove_char c rest)
  end.

(** Occurrences of a character in all the pieces together. *)
Fixpoint total_occurrences (c : ascii) (l : list string) : nat :=
  match l with
  | [] => 0%nat
  | x :: rest => (occurrences c x + total_occurrences c rest)%nat
  end.

(** The store in which [transaction] invokes its callback when it opens a
    transaction itself: the flag is set and [beginTransaction] has been
    submitted. *)
Definition begun (this : DB.Ref) (st : DB.Store) : DB.Store :=
  DB.update this
    {| DB.inTransaction := true;
       DB.submitted := DB.submitted (st this) ++ [control BeginTransaction] |}
    (DB.update this
       {| DB.inTransaction := true; DB.submitted := DB.submitted (st this) |} st).

(** The text of a statement up to its first "?". *)
Fixpoint before_placeholder (s : string) : string :=
  match s with
  | EmptyString => ""
  | String a rest => if Ascii.eqb a qmark then "" else String a (before_placeholder rest)
  end.

(** A task that holds no entry. *)
Definition entry_free (t : Task) : bool :=
  match t with
  | TImmediate _ | TAwaitRun _ _ _ => false
  | TTerminate _ _ | TPoll _ _ => true
  end.

(** A bound that lets at least one job in. *)
Definition at_least_one (b : Bound) : Prop :=
  match b with
  | Infinity => True
  | Finite M => 1 <= M
  end.

(** The shape of the queue between and inside the runs of [#outsource]:
    empty when no dispatcher code is running, at most the one entry just
    pushed or unshifted when [#outsource] stands before its last lines.  A
    dispatcher with [maxQueue <= 0] never holds an entry anywhere. *)
Definition queue_inv (b : Bound) (d : DBDispatcher.t) : Prop :=
  DBDispatcher.maxQueue d = b
  /\ match DBDispatcher.pc d with
     | Idle => DBDispatcher.queue d = []
     | AtTail => (List.length (DBDispatcher.queue d) <= 1)%nat /\ at_least_one b
     end
  /\ (~ at_least_one b -> forallb entry_free (DBDispatcher.tasks d) = true).

(** Every handle has [closed = true]. *)
Definition all_closed (d : DBDispatcher.t) : Prop :=
  forall w, In w (DBDispatcher.workers d) -> DBWorker.closed w = true.

(** [entry.reject(new Error('DBDispatcher shutting down'))] has been called. *)
Definition rejected_shutting_down (e : Entry) (d : DBDispatcher.t) : Prop :=
  In (id (payload e), Throw shuttingDown) (DBDispatcher.settlements d).

(** A fulfilled slot of a [Promise.all] of [shutdown()] stands for a closed
    handle: its own, or all of them once [#workerShutdownComplete] is set. *)
Definition slot_ok (d : DBDispatcher.t) (i : nat) (st : SubState) : Prop :=
  st = SubFulfilled ->
  DBDispatcher.workerShutdownComplete d = true
  \/ exists w, nth_error (DBDispatcher.workers d) i = Some w
               /\ DBWorker.closed w = true.

Definition call_ok (d : DBDispatcher.t) (c : ShutdownCall) : Prop :=
  List.length (subs c) = List.length (DBDispatcher.workers d)
  /\ (forall i st, nth_error (subs c) i = Some st -> slot_ok d i st)
  /\ (forall e, In e (snapshot c) -> rejected_shutting_down e d).

Definition shutdown_inv (d : DBDispatcher.t) : Prop :=
  (DBDispatcher.workerShutdownComplete d = true -> all_closed d)
  /\ (forall k c, nth_error (DBDispatcher.shutdowns d) k = Some c -> call_ok d c).

(** From [d] to [d']: the same handles, none reopened; the flag not taken
    back; no settlement forgotten. *)
Definition grows (d d' : DBDispatcher.t) : Prop :=
  List.length (DBDispatcher.workers d') = List.length (DBDispatcher.workers d)
  /\ (forall i w, nth_error (DBDispatcher.workers d) i = Some w ->
                  DBWorker.closed w = true ->
                  exists w', nth_error (DBDispatcher.workers d') i = Some w'
                             /\ DBWorker.closed w' = true)
  /\ (DBDispatcher.workerShutdownComplete d = true ->
      DBDispatcher.workerShutdownComplete d' = true)
  /\ (forall x, In x (DBDispatcher.settlements d) -> In x (DBDispatcher.settlements d')).

(* ===================================================================== *)
(** * Further notions, for the properties beyond the specification        *)
(* ===================================================================== *)

(** [start, start + 1, …], [n] numbers. *)
Fixpoint count_from (start : Z) (n : nat) : list Z :=
  match n with
  | O => []
  | S n' => start :: count_from (start + 1) n'
  end.

(** A handle is busy exactly when it holds an inflight job. *)
Definition handle_consistent (w : DBWorker.t) : Prop :=
  DBWorker.busy w = true <-> DBWorker.inflight w <> None.

(** The three methods that go through a prepared or tagged statement. *)
Definition is_query (m : Method) : bool :=
  match m with
  | Run | Get | All => true
  | _ => false
  end.

(** The handles of a state: as many as at construction, each consistent. *)
Definition handles_ok (size : nat) (d : DBDispatcher.t) : Prop :=
  List.length (DBDispatcher.workers d) = size
  /\ Forall handle_consistent (DBDispatcher.workers d).

(** The loop of [#runTransaction]: handle the steps in order, keep the last
    result, stop at the first step that throws; then [COMMIT]. *)
Fixpoint each_step (handle : Job -> Conn -> Result Value * Conn) (sqlite : Engine)
    (l : list Job) (result : Value) (c : Conn) : Result Value * Conn :=
  match l with
  | [] =>
      match call sqlite (CExec (Some (SqlString "COMMIT"))) c with
      | (Ok _, c') => (Ok result, c')
      | (Throw e, c') => (Throw e, c')
      end
  | step :: rest =>
      match handle step c with
      | (Ok r, c') => each_step handle sqlite rest r c'
      | (Throw e, c') => (Throw e, c')
      end
  end.

(** The statement after padding the fragments with [undefined] and keeping
    one more fragment than there are values: what [lib/SQLCompiler.js]
    builds for any arity. *)
Definition padded (fragments : list string) (n : nat) : list string :=
  firstn (S n) (fragments ++ repeat "undefined" (S n)).

(** The three calls that bracket a [transaction] job. *)
Definition begin_call : Call := CExec (Some (SqlString "BEGIN")).
Definition commit_call : Call := CExec (Some (SqlString "COMMIT")).
Definition rollback_call : Call := CExec (Some (SqlString "ROLLBACK")).

(** The connection only ever grows: the calls of [conn] come first. *)
Definition extends (conn conn' : Conn) : Prop := exists added, conn' = (conn ++ added)%list.

(** The loop of [#runTransaction] in the native binding's runtime. *)
Fixpoint better_each (handle : Job -> BetterRuntime.t -> Result Value * BetterRuntime.t)
    (sqlite : Engine) (l : list Job) (lastResult : Value) (r0 : BetterRuntime.t)
  : Result Value * BetterRuntime.t :=
  match l with
  | [] =>
      match BetterRuntime.on_conn (call sqlite commit_call) r0 with
      | (Ok _, r1) => (Ok lastResult, r1)
      | (Throw e, r1) => (Throw e, r1)
      end
  | step :: rest =>
      match handle step r0 with
      | (Ok r, r1) => better_each handle sqlite rest r r1
      | (Throw e, r1) => (Throw e, r1)
      end
  end.

(** The call [db.prepare(text)]. *)
Definition prepares (text : string) (c : Call) : bool :=
  match c with
  | CPrepare (Some (SqlString x)) => String.eqb x text
  | _ => false
  end.

(** How often a statement text has been handed to [db.prepare]. *)
Definition prepared_count (text : string) (conn : Conn) : nat :=
  List.length (filter (prepares text) conn).

(** Once a text is in the cache it stays there and is not prepared again. *)
Definition keeps_cached (text : string) (rt rt' : BetterRuntime.t) : Prop :=
  In text (BetterRuntime.statements rt')
  /\ prepared_count text (BetterRuntime.db rt')
     = prepared_count text (BetterRuntime.db rt).

(** The id of an entry. *)
Definition entry_id (e : Entry) : Z := id (payload e).

(** The ids of the entries a task holds on to. *)
Definition ids_of_task (t : Task) : list Z :=
  match t with
  | TImmediate e => [entry_id e]
  | TAwaitRun e _ _ => [entry_id e]
  | TTerminate _ _ | TPoll _ _ => []
  end.

(** Every id the dispatcher knows of: the ids of the queued entries, of the
    entries held by scheduled or suspended calls of [#outsource], and of
    the awaiters that [resolve] or [reject] has been called on (one
    occurrence per call). *)
Definition known_ids (d : DBDispatcher.t) : list Z :=
  (map entry_id (DBDispatcher.queue d)
   ++ flat_map ids_of_task (DBDispatcher.tasks d)
   ++ map fst (DBDispatcher.settlements d))%list.

(** [l'] is [l] with some elements left out, in any order. *)
Definition sub_perm (l' l : list Z) : Prop :=
  exists dropped, Permutation.Permutation l (dropped ++ l')%list.

(** No id is known twice, and every known id has been handed out. *)
Definition ids_inv (d : DBDispatcher.t) : Prop :=
  NoDup (known_ids d)
  /\ Forall (fun i => i < DBDispatcher.nextJobId d) (known_ids d).

(** The ids of the entries that still wait or run. *)
Definition pending_ids (d : DBDispatcher.t) : list Z :=
  (map entry_id (DBDispatcher.queue d)
   ++ flat_map ids_of_task (DBDispatcher.tasks d))%list.

(** The tasks [shutdown()] schedules when the handles at positions
    [i, i + 1, …] ([n] of them) are idle: one [w.terminate()] each. *)
Fixpoint terminate_tasks (k i n : nat) : list Task :=
  match n with
  | O => []
  | S n' => TTerminate i (ByShutdown k) :: terminate_tasks k (S i) n'
  end.

(** The entry a [setImmediate] callback holds on to. *)
Definition waiting_entry (t : Task) : list Entry :=
  match t with
  | TImmediate e => [e]
  | _ => []
  end.

(** The entries that wait for a handle: those in [#queue], and those that
    [#outsource] has shifted out of it into a [setImmediate] callback. *)
Definition waiting (d : DBDispatcher.t) : list Entry :=
  (DBDispatcher.queue d ++ flat_map waiting_entry (DBDispatcher.tasks d))%list.

(* ===================================================================== *)
(** * Strings                                                             *)
(* ===================================================================== *)

Lemma string_app_assoc (a b c : string) : (a ++ b) ++ c = a ++ b ++ c.
Proof.
  induction a as [|x a IH]; simpl; [reflexivity | now rewrite IH].
Qed.

Lemma string_app_nil_r (a : string) : a ++ "" = a.
Proof.
  induction a as [|x a IH]; simpl; [reflexivity | now rewrite IH].
Qed.

Lemma join_cons (sep x : string) (rest : list string) :
  join sep (x :: rest) = x ++ prefixed sep rest.
Proof.
  revert x; induction rest as [|y rest IH]; intros x.
  - simpl. now rewrite string_app_nil_r.
  - change (join sep (x :: y :: rest)) with (x ++ sep ++ join sep (y :: rest)).
    rewrite IH. reflexivity.
Qed.

Lemma prefixed_empty (l : list string) : prefixed "" l = join "" l.
Proof.
  induction l as [|x l IH]; [reflexivity |].
  rewrite join_cons. simpl. now rewrite IH.
Qed.

Lemma occurrences_app (c : ascii) (a b : string) :
  occurrences c (a ++ b) = (occurrences c a + occurrences c b)%nat.
Proof.
  induction a as [|x a IH]; simpl; [reflexivity | rewrite IH; lia].
Qed.

Lemma remove_char_app (c : ascii) (a b : string) :
  remove_char c (a ++ b) = remove_char c a ++ remove_char c b.
Proof.
  induction a as [|x a IH]; simpl; [reflexivity |].
  destruct (Ascii.eqb x c); simpl; now rewrite IH.
Qed.

Lemma remove_char_free (c : ascii) (s : string) :
  occurrences c s = 0%nat -> remove_char c s = s.
Proof.
  induction s as [|x s IH]; simpl; [reflexivity |].
  destruct (Ascii.eqb x c); simpl; intros H; [discriminate | now rewrite IH].
Qed.

(** Splitting at a character and gluing the pieces back is dropping it. *)
Lemma join_split (c : ascii) (s : string) :
  join "" (split c s) = remove_char c s.
Proof.
  induction s as [|x s IH]; [reflexivity |].
  simpl split; simpl remove_char.
  destruct (Ascii.eqb x c).
  - destruct (split c s) as [|h t] eqn:E; [exact IH |].
    change (join "" ("" :: h :: t)) with ("" ++ "" ++ join "" (h :: t)).
    exact IH.
  - destruct (split c s) as [|h t] eqn:E.
    + simpl in IH. simpl. now rewrite <- IH.
    + rewrite join_cons in IH. rewrite join_cons. simpl. now rewrite IH.
Qed.

Lemma occurrences_prefixed (l : list string) :
  occurrences qmark (prefixed "?" l)
  = (List.length l + total_occurrences qmark l)%nat.
Proof.
  induction l as [|x l IH]; [reflexivity |].
  cbn [prefixed total_occurrences List.length].
  rewrite !occurrences_app, IH. simpl. lia.
Qed.

Lemma remove_prefixed (l : list string) :
  remove_char qmark (prefixed "?" l) = join "" (map (remove_char qmark) l).
Proof.
  induction l as [|x l IH]; [reflexivity |].
  cbn [prefixed map]. rewrite join_cons, prefixed_empty.
  rewrite !remove_char_app, IH. reflexivity.
Qed.

Lemma map_remove_free (l : list string) :
  Forall placeholder_free l -> map (remove_char qmark) l = l.
Proof.
  induction 1 as [|x l Hx _ IH]; simpl; [reflexivity |].
  now rewrite (remove_char_free _ _ Hx), IH.
Qed.

Lemma total_occurrences_free (l : list string) :
  Forall placeholder_free l -> total_occurrences qmark l = 0%nat.
Proof.
  induction 1 as [|x l Hx _ IH]; simpl; [reflexivity |].
  unfold placeholder_free in Hx. lia.
Qed.

(* ===================================================================== *)
(** * The SQL composer                                                    *)
(* ===================================================================== *)

(** The loop, started after the pieces [done], appends the remaining
    pieces, each behind a "?". *)
Lemma compile_loop_pieces (rest done : list string) (i : nat) (acc : string) :
  List.length done = S i ->
  compile_loop (Pieces (done ++ rest)) i (List.length rest) acc
  = acc ++ prefixed "?" rest.
Proof.
  revert done i acc; induction rest as [|y rest IH]; intros done i acc Hlen.
  - simpl. now rewrite string_app_nil_r.
  - cbn [List.length compile_loop strings_at].
    replace (nth (S i) (done ++ y :: rest) "undefined") with y.
    + replace (done ++ y :: rest)%list with ((done ++ [y]) ++ rest)%list
        by now rewrite <- app_assoc.
      rewrite IH by (rewrite length_app; simpl; lia).
      cbn [prefixed]. now rewrite !string_app_assoc.
    + rewrite app_nth2 by lia. now rewrite Hlen, Nat.sub_diag.
Qed.

Lemma compile_loop_interleaves (x : string) (rest : list string) :
  compile_loop (Pieces (x :: rest)) 0 (List.length rest) x = interleaved (x :: rest).
Proof.
  unfold interleaved. rewrite join_cons.
  exact (compile_loop_pieces rest [x] x eq_refl).
Qed.

(** Both copies of the composer agree with the spec's formula when the
    arity is right. *)
Lemma compile_arity_ok (fragments : list string) (vals : list Value) :
  Z.of_nat (List.length fragments) = Z.of_nat (List.length vals) + 1 ->
  SQLCompiler.compile (Pieces fragments) vals
  = Ok {| sql := SqlString (interleaved fragments); values := vals |}
  /\ SQLCompilerChecked.compile (Pieces fragments) vals
     = Ok {| sql := SqlString (interleaved fragments); values := vals |}.
Proof.
  intros Hlen.
  destruct fragments as [|x rest]; [simpl in Hlen; lia |].
  assert (Hrest : List.length rest = List.length vals) by (simpl in Hlen; lia).
  unfold SQLCompiler.compile, SQLCompilerChecked.compile.
  replace (negb (Z.of_nat (List.length vals) =? strings_length (Pieces (x :: rest)) - 1))
    with false
    by (symmetry; apply negb_false_iff, Z.eqb_eq; unfold strings_length; lia).
  destruct vals as [|v vals].
  - destruct rest; [| discriminate]. split; reflexivity.
  - rewrite <- Hrest. cbn [strings_at nth].
    rewrite compile_loop_interleaves. split; reflexivity.
Qed.

(** C2 (as amended): with [|fragments| = |values| + 1] both copies of
    [compile] return the fragments interleaved with "?" and the values
    unchanged; the output holds one "?" per value plus the "?" that the
    fragments themselves contain, so that, when no fragment contains a "?",
    it holds exactly [|values|] of them and dropping them gives back the
    concatenation of the fragments. *)
Theorem compile_interleaves (fragments : list string) (vals : list Value) :
  Z.of_nat (List.length fragments) = Z.of_nat (List.length vals) + 1 ->
  SQLCompiler.compile (Pieces fragments) vals
  = Ok {| sql := SqlString (interleaved fragments); values := vals |}
  /\ SQLCompilerChecked.compile (Pieces fragments) vals
     = Ok {| sql := SqlString (interleaved fragments); values := vals |}
  /\ occurrences qmark (interleaved fragments)
     = (List.length vals + total_occurrences qmark fragments)%nat
  /\ (Forall placeholder_free fragments ->
      occurrences qmark (interleaved fragments) = List.length vals
      /\ without_placeholders (interleaved fragments) = join "" fragments).
Proof.
  intros Hlen.
  destruct (compile_arity_ok fragments vals Hlen) as [H1 H2].
  split; [exact H1 | split; [exact H2 |]].
  destruct fragments as [|x rest]; [simpl in Hlen; lia |].
  assert (Hrest : List.length rest = List.length vals) by (simpl in Hlen; lia).
  assert (Hocc : occurrences qmark (interleaved (x :: rest))
                 = (List.length vals + total_occurrences qmark (x :: rest))%nat).
  { unfold interleaved. rewrite join_cons, occurrences_app, occurrences_prefixed.
    cbn [total_occurrences]. lia. }
  split; [exact Hocc |].
  intros Hfree. split.
  - rewrite Hocc, (total_occurrences_free Hfree). lia.
  - unfold without_placeholders, interleaved.
    rewrite join_split, join_cons, remove_char_app, remove_prefixed.
    inversion Hfree as [|? ? Hx Hr]; subst.
    rewrite (remove_char_free _ _ Hx), (map_remove_free Hr).
    now rewrite join_cons, prefixed_empty.
Qed.

Lemma compile_interleaves_witness :
  SQLCompiler.compile (Pieces ["SELECT * FROM users WHERE id = "; ""]) [VNum 1]
  = Ok {| sql := SqlString "SELECT * FROM users WHERE id = ?"; values := [VNum 1] |}.
Proof.
  exact (proj1 (compile_interleaves
                  ["SELECT * FROM users WHERE id = "; ""] [VNum 1] eq_refl)).
Defined.

(** C2 as written fails: a fragment may itself contain a "?". *)
Lemma compile_placeholder_count_counterexample :
  ~ (forall (fragments : list string) (vals : list Value) (out : string),
        Z.of_nat (List.length fragments) = Z.of_nat (List.length vals) + 1 ->
        SQLCompiler.compile (Pieces fragments) vals
        = Ok {| sql := SqlString out; values := vals |} ->
        occurrences qmark out = List.length vals
        /\ without_placeholders out = join "" fragments).
Proof.
  intros H.
  destruct (H ["SELECT '?' AS q WHERE id = "; ""] [VNum 1]
              "SELECT '?' AS q WHERE id = ?" eq_refl eq_refl) as [Hocc _].
  vm_compute in Hocc. discriminate.
Qed.

(** With the arity test of the second copy, a wrong arity is refused. *)
Lemma compile_checked_arity (fragments : list string) (vals : list Value) :
  Z.of_nat (List.length fragments) - 1 <> Z.of_nat (List.length vals) ->
  exists e, SQLCompilerChecked.compile (Pieces fragments) vals = Throw e
            /\ InvalidQuery e.
Proof.
  intros Hne. unfold SQLCompilerChecked.compile.
  replace (negb (Z.of_nat (List.length vals) =? strings_length (Pieces fragments) - 1))
    with true.
  - eexists; split; [reflexivity |]. now exists (Pieces fragments), vals.
  - symmetry. apply negb_true_iff, Z.eqb_neq. unfold strings_length. lia.
Qed.

(** C9: [lib/SQLCompiler.js] has no arity test.  An empty fragment array
    compiles to the empty statement, surplus fragments are glued together,
    and surplus values read past the end of the fragments. *)
Theorem compile_unchecked_arity :
  SQLCompiler.compile (Pieces []) []
  = Ok {| sql := SqlString ""; values := [] |}
  /\ SQLCompiler.compile (Pieces ["a"; "b"]) []
     = Ok {| sql := SqlString "ab"; values := [] |}
  /\ SQLCompiler.compile (Pieces ["a"]) [VNum 1; VNum 2]
     = Ok {| sql := SqlString "a?undefined?undefined"; values := [VNum 1; VNum 2] |}
  /\ (exists e, SQLCompilerChecked.compile (Pieces []) [] = Throw e /\ InvalidQuery e).
Proof.
  repeat split.
  apply compile_checked_arity. simpl. lia.
Qed.

(* ===================================================================== *)
(** * The application surface                                             *)
(* ===================================================================== *)

Lemma update_this (this : DB.Ref) (o : DB.t) (st : DB.Store) :
  DB.update this o st this = o.
Proof. unfold DB.update. now rewrite Nat.eqb_refl. Qed.

Lemma update_other (this r : DB.Ref) (o : DB.t) (st : DB.Store) :
  r <> this -> DB.update this o st r = st r.
Proof.
  intros Hne. unfold DB.update.
  destruct (Nat.eqb r this) eqn:E; [apply Nat.eqb_eq in E; contradiction | reflexivity].
Qed.

Lemma begun_this (this : DB.Ref) (st : DB.Store) :
  begun this st this
  = {| DB.inTransaction := true;
       DB.submitted := DB.submitted (st this) ++ [control BeginTransaction] |}.
Proof. apply update_this. Qed.

Lemma begun_other (this r : DB.Ref) (st : DB.Store) :
  r <> this -> begun this st r = st r.
Proof.
  intros Hne. unfold begun. now rewrite !update_other.
Qed.

(** The first two statements of a transaction that is not nested. *)
Lemma transaction_enter (settle : list Job -> Job -> Result Value)
    (this : DB.Ref) (st : DB.Store) :
  DB.bind (DB.set_inTransaction this true)
    (fun _ => DB.submit settle this (control BeginTransaction)) st
  = (settle (DB.submitted (st this)) (control BeginTransaction), begun this st).
Proof.
  unfold DB.bind, DB.set_inTransaction, DB.submit, begun.
  now rewrite update_this.
Qed.

Ltac store_facts :=
  repeat first
    [ rewrite update_this
    | rewrite update_other by assumption ];
  cbn [DB.inTransaction DB.submitted];
  rewrite <- ?app_assoc; cbn [app]; try reflexivity.

Section Transaction.

Variable settle : list Job -> Job -> Result Value.
Variable this : DB.Ref.
Variable fn : DB.Ref -> DB.M Value.
Variable st : DB.Store.

Let outcome : Result Value * DB.Store := DB.transaction settle this fn st.

(** What the object [this] looks like, and that nothing else moved. *)
Let leaves (from : DB.Store) (extra : list Job) : Prop :=
  DB.inTransaction (snd outcome this) = false
  /\ DB.submitted (snd outcome this) = (DB.submitted (from this) ++ extra)%list
  /\ forall r, r <> this -> snd outcome r = from r.

Lemma transaction_nested :
  DB.inTransaction (st this) = true -> outcome = fn this st.
Proof.
  intros Hflag. unfold outcome, DB.transaction, DB.bind, DB.get_inTransaction.
  now rewrite Hflag.
Qed.

Lemma transaction_unfold :
  DB.inTransaction (st this) = false ->
  outcome =
    match settle (DB.submitted (st this)) (control BeginTransaction) with
    | Throw e =>
        DB.bind (DB.swallow (DB.submit settle this (control Rollback)))
          (fun _ => DB.bind (DB.set_inTransaction this false)
                      (fun _ => @DB.throw Value e)) (begun this st)
    | Ok _ =>
        match fn this (begun this st) with
        | (Ok result, st2) =>
            match settle (DB.submitted (st2 this)) (control Commit) with
            | Ok _ =>
                (Ok result,
                 DB.update this
                   {| DB.inTransaction := false;
                      DB.submitted := DB.submitted (st2 this) ++ [control Commit] |}
                   (DB.update this
                      {| DB.inTransaction := DB.inTransaction (st2 this);
                         DB.submitted := DB.submitted (st2 this) ++ [control Commit] |}
                      st2))
            | Throw e =>
                DB.bind (DB.swallow (DB.submit settle this (control Rollback)))
                  (fun _ => DB.bind (DB.set_inTransaction this false)
                              (fun _ => @DB.throw Value e))
                  (DB.update this
                     {| DB.inTransaction := DB.inTransaction (st2 this);
                        DB.submitted := DB.submitted (st2 this) ++ [control Commit] |}
                     st2)
            end
        | (Throw e, st2) =>
            DB.bind (DB.swallow (DB.submit settle this (control Rollback)))
              (fun _ => DB.bind (DB.set_inTransaction this false)
                          (fun _ => @DB.throw Value e)) st2
        end
    end.
Proof.
  intros Hflag. unfold outcome, DB.transaction.
  unfold DB.bind at 1. unfold DB.get_inTransaction at 1. rewrite Hflag.
  unfold DB.bind at 1. unfold DB.set_inTransaction at 1.
  unfold DB.try_catch at 1. unfold DB.bind at 1. unfold DB.submit at 1.
  rewrite update_this. cbn [DB.inTransaction DB.submitted].
  fold (begun this st).
  destruct (settle (DB.submitted (st this)) (control BeginTransaction)) as [v|e];
    [| reflexivity].
  unfold DB.bind at 1.
  destruct (fn this (begun this st)) as [[result|e] st2]; [| reflexivity].
  unfold DB.bind at 1. unfold DB.submit at 1.
  destruct (settle (DB.submitted (st2 this)) (control Commit)) as [v'|e];
    [| reflexivity].
  unfold DB.bind, DB.set_inTransaction, DB.ret.
  now rewrite update_this.
Qed.

(** The [catch] block: rollback submitted, its failure swallowed, flag
    cleared, the error thrown again. *)
Lemma rollback_block (e : Error) (from : DB.Store) :
  let r := DB.bind (DB.swallow (DB.submit settle this (control Rollback)))
             (fun _ => DB.bind (DB.set_inTransaction this false)
                         (fun _ => @DB.throw Value e)) from in
  fst r = Throw e
  /\ DB.inTransaction (snd r this) = false
  /\ DB.submitted (snd r this) = (DB.submitted (from this) ++ [control Rollback])%list
  /\ forall x, x <> this -> snd r x = from x.
Proof.
  unfold DB.bind, DB.swallow, DB.try_catch, DB.submit, DB.set_inTransaction,
    DB.throw, DB.ret.
  destruct (settle (DB.submitted (from this)) (control Rollback));
    cbn [fst snd]; repeat split; intros; store_facts.
Qed.

(** C1: [transaction(fn)] on the object [this].  Nested, it is [fn(this)]
    and nothing else.  Otherwise [fn(this)] runs with the flag set and
    [beginTransaction] submitted; a result is returned after [commit] has
    been submitted; any error (of the begin job, of [fn], of the commit
    job) comes back to the caller after [rollback] has been submitted,
    whatever the rollback job itself answers; the flag is cleared in
    every case. *)
Theorem transaction_protocol :
  (DB.inTransaction (st this) = true -> outcome = fn this st)
  /\ (DB.inTransaction (st this) = false ->
      DB.inTransaction (begun this st this) = true
      /\ DB.submitted (begun this st this)
         = (DB.submitted (st this) ++ [control BeginTransaction])%list
      /\ (forall e,
             settle (DB.submitted (st this)) (control BeginTransaction) = Throw e ->
             fst outcome = Throw e
             /\ leaves st [control BeginTransaction; control Rollback])
      /\ (forall v,
             settle (DB.submitted (st this)) (control BeginTransaction) = Ok v ->
             (forall result st2,
                 fn this (begun this st) = (Ok result, st2) ->
                 (forall v',
                     settle (DB.submitted (st2 this)) (control Commit) = Ok v' ->
                     fst outcome = Ok result /\ leaves st2 [control Commit])
                 /\ (forall e,
                        settle (DB.submitted (st2 this)) (control Commit) = Throw e ->
                        fst outcome = Throw e
                        /\ leaves st2 [control Commit; control Rollback]))
             /\ (forall e st2,
                    fn this (begun this st) = (Throw e, st2) ->
                    fst outcome = Throw e /\ leaves st2 [control Rollback]))).
Proof.
  split; [exact transaction_nested |].
  intros Hflag. rewrite begun_this. cbn [DB.inTransaction DB.submitted].
  split; [reflexivity | split; [reflexivity |]].
  pose proof (transaction_unfold Hflag) as Hout. unfold leaves.
  split.
  - intros e Hbegin. rewrite Hbegin in Hout. rewrite Hout.
    destruct (rollback_block e (begun this st)) as (H1 & H2 & H3 & H4).
    split; [exact H1 |]. split; [exact H2 |]. split.
    + rewrite H3, begun_this. store_facts.
    + intros r Hr. rewrite (H4 r Hr). now apply begun_other.
  - intros v Hbegin. rewrite Hbegin in Hout. split.
    + intros result st2 Hfn. rewrite Hfn in Hout. split.
      * intros v' Hcommit. rewrite Hcommit in Hout. rewrite Hout.
        cbn [fst snd]. repeat split; intros; store_facts.
      * intros e Hcommit. rewrite Hcommit in Hout. rewrite Hout.
        match goal with
        | |- context [DB.bind _ _ ?s] =>
            destruct (rollback_block e s) as (H1 & H2 & H3 & H4)
        end.
        split; [exact H1 |]. split; [exact H2 |]. split.
        -- rewrite H3. store_facts.
        -- intros r Hr. rewrite (H4 r Hr). store_facts.
    + intros e st2 Hfn. rewrite Hfn in Hout. rewrite Hout.
      exact (rollback_block e st2).
Qed.

End Transaction.

Lemma transaction_protocol_witness :
  let settle : list Job -> Job -> Result Value := fun _ _ => Ok VUndefined in
  let insert := {| method := Run;
                   job_sql := Some (SqlString "INSERT INTO users (name) VALUES (?)");
                   job_values := Some [VText "bob"];
                   steps := None |} in
  let fn : DB.Ref -> DB.M Value := fun tx => DB.submit settle tx insert in
  let st : DB.Store := fun _ => {| DB.inTransaction := false; DB.submitted := [] |} in
  let outcome := DB.transaction settle 0%nat fn st in
  fst outcome = Ok VUndefined
  /\ DB.inTransaction (snd outcome 0%nat) = false
  /\ DB.submitted (snd outcome 0%nat)
     = [control BeginTransaction; insert; control Commit].
Proof.
  intros settle insert fn st outcome.
  destruct (transaction_protocol settle 0%nat fn st) as [_ H].
  destruct (H eq_refl) as (_ & _ & _ & Hbegun).
  destruct (Hbegun VUndefined eq_refl) as [Hfn _].
  destruct (Hfn VUndefined _ eq_refl) as [Hcommit _].
  destruct (Hcommit VUndefined eq_refl) as (Hres & Hflag & Hlog & _).
  split; [exact Hres | split; [exact Hflag | exact Hlog]].
Defined.

(** A callback that throws: the transaction is rolled back and the error of
    the callback comes out, even though the rollback job fails too. *)
Example transaction_rollback_run :
  let settle : list Job -> Job -> Result Value :=
    fun _ j => match method j with
               | Rollback => Throw (js_Error "cannot rollback")
               | _ => Ok VUndefined
               end in
  let fn : DB.Ref -> DB.M Value := fun _ => DB.throw (js_Error "intentional") in
  let st : DB.Store := fun _ => {| DB.inTransaction := false; DB.submitted := [] |} in
  let outcome := DB.transaction settle 0%nat fn st in
  fst outcome = Throw (js_Error "intentional")
  /\ DB.inTransaction (snd outcome 0%nat) = false
  /\ DB.submitted (snd outcome 0%nat) = [control BeginTransaction; control Rollback].
Proof. repeat split. Qed.

(** ** The constructor *)

(** C8 as written fails: a file database opened with the built-in driver
    and no worker count gets one worker, not two. *)
Lemma constructor_default_counterexample :
  ~ (forall (parallelism : Z) (fname drv : string) (out : DB.DispatcherOptions),
        DB.constructor parallelism
          (Given {| DB.filename := Given fname; DB.driver := Given drv;
                    DB.workers := Undefined |}) = Ok out ->
        DB.size out = DB.spec_default_workers parallelism drv fname).
Proof.
  intros H.
  specialize (H 8 "./chat.db" "node:sqlite" _ eq_refl).
  vm_compute in H. discriminate.
Qed.

(** C8 (as amended): the worker count the dispatcher is given.  Left out
    (absent or [undefined]) it is 1, whatever the driver and the filename;
    the formula of the spec is used only for an explicit [null]; a number
    is passed on as it is. *)
Theorem constructor_worker_count (parallelism : Z) (o : DB.Options)
    (out : DB.DispatcherOptions) :
  DB.constructor parallelism (Given o) = Ok out ->
  (DB.workers o = Undefined -> DB.size out = 1)
  /\ (forall n, DB.workers o = Given n -> DB.size out = n)
  /\ (forall drv fname,
         DB.workers o = Null ->
         defaulting "node:sqlite" (DB.driver o) = Given drv ->
         defaulting ":memory:" (DB.filename o) = Given fname ->
         DB.size out = DB.spec_default_workers parallelism drv fname).
Proof.
  unfold DB.constructor. cbn [defaulting].
  destruct (DB.getWorkerPath (defaulting "node:sqlite" (DB.driver o))) as [path|e];
    [| discriminate].
  intros Hout. injection Hout as <-. cbn [DB.size].
  split; [| split].
  - intros ->. reflexivity.
  - intros n ->. reflexivity.
  - intros drv fname -> -> ->. reflexivity.
Qed.

Lemma constructor_worker_count_witness :
  DB.size {| DB.workerPath := DB.db_worker; DB.size := 1;
             DB.workerData_filename := Given "./chat.db" |} = 1.
Proof.
  exact (proj1 (constructor_worker_count 8
                  {| DB.filename := Given "./chat.db"; DB.driver := Undefined;
                     DB.workers := Undefined |} eq_refl) eq_refl).
Defined.

(** [new DB()] and [new DB({})] start one worker on ":memory:". *)
Example constructor_no_argument (parallelism : Z) :
  DB.constructor parallelism Undefined
  = Ok {| DB.workerPath := DB.db_worker; DB.size := 1;
          DB.workerData_filename := Given ":memory:" |}
  /\ DB.constructor parallelism
       (Given {| DB.filename := Undefined; DB.driver := Undefined;
                 DB.workers := Undefined |})
     = Ok {| DB.workerPath := DB.db_worker; DB.size := 1;
             DB.workerData_filename := Given ":memory:" |}.
Proof. split; reflexivity. Qed.

(* ===================================================================== *)
(** * The worker runtimes                                                 *)
(* ===================================================================== *)

Lemma split_head (s : string) :
  nth_error (split qmark s) 0 = Some (before_placeholder s).
Proof.
  induction s as [|a s IH]; [reflexivity |].
  simpl. destruct (Ascii.eqb a qmark); [reflexivity |].
  destruct (split qmark s) as [|h t]; simpl in *; [discriminate |].
  now injection IH as ->.
Qed.

Lemma before_placeholder_free (s : string) :
  placeholder_free s -> before_placeholder s = s.
Proof.
  unfold placeholder_free.
  induction s as [|a s IH]; simpl; [reflexivity |].
  destruct (Ascii.eqb a qmark); [discriminate |].
  intros H. now rewrite IH.
Qed.

(** The built-in driver's runtime hands the engine the text before the
    first "?" only. *)
Lemma worker_runtime_exec (sqlite : Engine) (text : string)
    (vals : option (list Value)) (st : option (list Job)) (conn : Conn) :
  WorkerRuntime.handle sqlite
    {| method := Exec; job_sql := Some (SqlString text);
       job_values := vals; steps := st |} conn
  = call sqlite (CExec (Some (SqlString (before_placeholder text)))) conn.
Proof.
  cbn [WorkerRuntime.handle WorkerRuntime.split_sql].
  now rewrite split_head.
Qed.

(** Without a "?" in it, the script reaches the engine whole. *)
Lemma worker_runtime_exec_free (sqlite : Engine) (text : string)
    (vals : option (list Value)) (st : option (list Job)) (conn : Conn) :
  placeholder_free text ->
  WorkerRuntime.handle sqlite
    {| method := Exec; job_sql := Some (SqlString text);
       job_values := vals; steps := st |} conn
  = call sqlite (CExec (Some (SqlString text))) conn.
Proof.
  intros Hfree. rewrite worker_runtime_exec. now rewrite before_placeholder_free.
Qed.

(** The native binding's runtime hands the engine the whole script and
    replies [undefined]. *)
Lemma better_runtime_exec (sqlite : Engine) (text : string)
    (vals : option (list Value)) (st : option (list Job)) (rt : BetterRuntime.t) :
  let r := BetterRuntime.handle sqlite
             {| method := Exec; job_sql := Some (SqlString text);
                job_values := vals; steps := st |} rt in
  BetterRuntime.db (snd r)
  = (BetterRuntime.db rt ++ [CExec (Some (SqlString text))])%list
  /\ (forall v, sqlite (BetterRuntime.db rt) (CExec (Some (SqlString text))) = Ok v ->
                fst r = Ok VUndefined)
  /\ (forall e, sqlite (BetterRuntime.db rt) (CExec (Some (SqlString text))) = Throw e ->
                fst r = Throw e).
Proof.
  cbn [BetterRuntime.handle]. unfold BetterRuntime.on_conn, call.
  destruct (sqlite (BetterRuntime.db rt) (CExec (Some (SqlString text)))) as [v|e];
    cbn [fst snd BetterRuntime.db]; repeat split; intros; congruence.
Qed.

(** C6: an [exec] job whose script contains a "?".  The runtime of the
    native binding executes the script whole; the runtime of the built-in
    driver executes only what stands before the first "?". *)
Theorem exec_script_with_placeholder :
  let script := "INSERT INTO log (msg) VALUES ('why?'); DELETE FROM queue;" in
  let j := {| method := Exec; job_sql := Some (SqlString script);
              job_values := None; steps := None |} in
  last_script (snd (WorkerRuntime.handle accepting j []))
  = Some (Some (SqlString "INSERT INTO log (msg) VALUES ('why"))
  /\ fst (WorkerRuntime.handle accepting j []) = Ok VUndefined
  /\ last_script (BetterRuntime.db
                    (snd (BetterRuntime.handle accepting j
                            (BetterRuntime.create accepting))))
     = Some (Some (SqlString script))
  /\ fst (BetterRuntime.handle accepting j (BetterRuntime.create accepting))
     = Ok VUndefined.
Proof. repeat split. Qed.

(* ===================================================================== *)
(** * The worker handle                                                   *)
(* ===================================================================== *)

Import DBDispatcher.

Lemma replace_nth_length {A : Type} (i : nat) (x : A) (l : list A) :
  List.length (replace_nth i x l) = List.length l.
Proof.
  revert i; induction l as [|y l IH]; intros [|i]; simpl; auto.
Qed.

Lemma replace_nth_same {A : Type} (i : nat) (x y : A) (l : list A) :
  nth_error l i = Some y -> nth_error (replace_nth i x l) i = Some x.
Proof.
  revert i; induction l as [|z l IH]; intros [|i]; simpl; try discriminate; auto.
Qed.

Lemma replace_nth_other {A : Type} (i j : nat) (x : A) (l : list A) :
  i <> j -> nth_error (replace_nth i x l) j = nth_error l j.
Proof.
  revert i j; induction l as [|z l IH]; intros [|i] [|j] Hne; simpl; auto.
  contradiction.
Qed.

Lemma replace_nth_In {A : Type} (i : nat) (x y : A) (l : list A) :
  In y (replace_nth i x l) -> y = x \/ In y l.
Proof.
  revert i; induction l as [|z l IH]; intros [|i]; simpl; auto.
  - intros [H|H]; auto.
  - intros [H|H]; auto. destruct (IH _ H); auto.
Qed.

(** [find] returns the first handle that is not busy. *)
Lemma find_idle_sound (ws : list DBWorker.t) (n i : nat) :
  find_idle ws n = Some i ->
  (n <= i)%nat
  /\ exists w, nth_error ws (i - n) = Some w /\ DBWorker.busy w = false.
Proof.
  revert n; induction ws as [|w ws IH]; intros n; simpl; [discriminate |].
  destruct (DBWorker.busy w) eqn:Hb; simpl.
  - intros H. destruct (IH _ H) as (Hle & w' & Hnth & Hidle).
    split; [lia |]. exists w'. split; [| exact Hidle].
    replace (i - n)%nat with (S (i - S n)) by lia. exact Hnth.
  - intros H. injection H as <-. split; [lia |].
    exists w. now rewrite Nat.sub_diag.
Qed.

Lemma find_idle_complete (ws : list DBWorker.t) (n i : nat) (w : DBWorker.t) :
  nth_error ws i = Some w -> DBWorker.busy w = false ->
  exists k, find_idle ws n = Some k /\ (k <= n + i)%nat.
Proof.
  revert n i; induction ws as [|w0 ws IH]; intros n [|i]; simpl; try discriminate.
  - intros H Hb. injection H as ->. rewrite Hb. simpl. exists n. split; [reflexivity | lia].
  - intros H Hb. destruct (DBWorker.busy w0); simpl.
    + destruct (IH (S n) i H Hb) as (k & Hk & Hle). exists k. split; [exact Hk | lia].
    + exists n. split; [reflexivity | lia].
Qed.

Lemma find_idle_first (ws : list DBWorker.t) (n i : nat) (w : DBWorker.t) :
  nth_error ws i = Some w -> DBWorker.busy w = false ->
  find_idle (firstn i ws) n = None ->
  find_idle ws n = Some (n + i)%nat.
Proof.
  revert n i; induction ws as [|w0 ws IH]; intros n [|i]; simpl; try discriminate.
  - intros H Hb _. injection H as ->. rewrite Hb. simpl. f_equal. lia.
  - intros H Hb. destruct (DBWorker.busy w0); simpl; [| discriminate].
    intros Hnone. rewrite (IH (S n) i H Hb Hnone). f_equal. lia.
Qed.

(** C7 (as amended): the ['error'] listener rejects the inflight job, if
    any, with the error and clears [busy]; it leaves [closed] as it was, and
    the handle is again among those the dispatcher's search for an idle
    worker can return: it is returned whenever every handle before it is
    busy. *)
Theorem worker_error_frees_handle (err : Error) (d : DBDispatcher.t)
    (i : nat) (w : DBWorker.t) :
  nth_error (workers d) i = Some w ->
  let w' := fst (DBWorker.on_error err w) in
  DBWorker.busy w' = false
  /\ DBWorker.inflight w' = None
  /\ DBWorker.closed w' = DBWorker.closed w
  /\ DBWorker.posted w' = DBWorker.posted w
  /\ snd (DBWorker.on_error err w)
     = match DBWorker.inflight w with
       | Some _ => Some (Throw err)
       | None => None
       end
  /\ exists d',
      worker_event i (DBWorker.on_error err) d = Some d'
      /\ nth_error (workers d') i = Some w'
      /\ (exists k, getIdleWorker d' = Some k /\ (k <= i)%nat)
      /\ (find_idle (firstn i (workers d')) 0 = None -> getIdleWorker d' = Some i).
Proof.
  intros Hnth w'.
  assert (Hw' : DBWorker.busy w' = false /\ DBWorker.inflight w' = None
                /\ DBWorker.closed w' = DBWorker.closed w
                /\ DBWorker.posted w' = DBWorker.posted w).
  { unfold w', DBWorker.on_error. destruct (DBWorker.inflight w) eqn:E; cbn; auto. }
  destruct Hw' as (Hb & Hi & Hc & Hp).
  repeat (split; [assumption |]).
  split.
  { unfold DBWorker.on_error. now destruct (DBWorker.inflight w). }
  unfold worker_event. rewrite Hnth.
  assert (Hfst : fst (DBWorker.on_error err w) = w') by reflexivity.
  clearbody w'.
  destruct (DBWorker.on_error err w) as [w1 settled]. cbn [fst] in Hfst. subst w1.
  eexists. split; [reflexivity |].
  assert (Hws : forall d1, workers (match settled with
                          | None => d1
                          | Some r => set_tasks (settle_run i r (tasks d1)) d1
                          end) = workers d1) by (intros; now destruct settled).
  unfold getIdleWorker. rewrite !Hws. cbn [workers set_workers].
  pose proof (replace_nth_same i w' _ Hnth) as Hnew.
  split; [exact Hnew |]. split.
  - destruct (find_idle_complete _ 0 _ Hnew Hb) as (k & Hk & Hle). now exists k.
  - intros Hnone. exact (find_idle_first _ 0 _ Hnew Hb Hnone).
Qed.

Lemma worker_error_frees_handle_witness :
  exists d',
    worker_event 0 (DBWorker.on_error (js_Error "worker crashed"))
      (create 1 Infinity) = Some d'
    /\ getIdleWorker d' = Some 0%nat.
Proof.
  destruct (worker_error_frees_handle (js_Error "worker crashed")
              (create 1 Infinity) 0 (w := DBWorker.create) eq_refl)
    as (_ & _ & _ & _ & _ & d' & Hev & _ & _ & Hidle).
  exists d'. split; [exact Hev | exact (Hidle eq_refl)].
Defined.

(** C7 as written fails: after its thread has failed, a handle is given the
    next job. *)
Lemma crashed_handle_reused_counterexample :
  ~ (forall (ls1 ls2 : list Label) (i : nat) (err : Error)
            (d1 d1' d2 : DBDispatcher.t) (w1 w2 : DBWorker.t),
        run ls1 (create 1 Infinity) = Some d1 ->
        step (LWorkerError i err) d1 = Some d1' ->
        run ls2 d1' = Some d2 ->
        nth_error (workers d1') i = Some w1 ->
        nth_error (workers d2) i = Some w2 ->
        DBWorker.posted w2 = DBWorker.posted w1).
Proof.
  intros H.
  pose (ls1 := [LSubmit (control BeginTransaction)]).
  pose (ls2 := [LResume 0; LTail; LSubmit (control Commit)]).
  pose (err := js_Error "worker crashed").
  let r1 := eval vm_compute in (run ls1 (create 1 Infinity)) in
  match r1 with
  | Some ?d1 =>
      let r2 := eval vm_compute in (step (LWorkerError 0 err) d1) in
      match r2 with
      | Some ?d1' =>
          let r3 := eval vm_compute in (run ls2 d1') in
          match r3 with
          | Some ?d2 =>
              let x1 := eval vm_compute in (nth_error (workers d1') 0) in
              let x2 := eval vm_compute in (nth_error (workers d2) 0) in
              match x1 with
              | Some ?w1 =>
                  match x2 with
                  | Some ?w2 =>
                      assert (Hposted : DBWorker.posted w2 = DBWorker.posted w1)
                        by (apply (H ls1 ls2 0%nat err d1 d1' d2 w1 w2);
                            vm_compute; reflexivity)
                  end
              end
          end
      end
  end.
  cbn [DBWorker.posted] in Hposted. discriminate.
Qed.

(** The same run, spelled out: job 2 is posted to the handle whose thread
    failed while it ran job 1; the handle is busy again and not closed. *)
Example crashed_handle_reused_run :
  exists d,
    run [LSubmit (control BeginTransaction);
         LWorkerError 0 (js_Error "worker crashed");
         LResume 0; LTail;
         LSubmit (control Commit)] (create 1 Infinity) = Some d
    /\ workers d
       = [ {| DBWorker.busy := true;
              DBWorker.inflight := Some {| DBWorker.inflight_id := 2 |};
              DBWorker.closed := false;
              DBWorker.posted := [ {| id := 1; job := control BeginTransaction |};
                                   {| id := 2; job := control Commit |} ] |} ]
    /\ settlements d = [(1, Throw (js_Error "worker crashed"))].
Proof. eexists. split; [vm_compute; reflexivity | split; reflexivity]. Qed.

(* ===================================================================== *)
(** * The dispatcher: single calls                                        *)
(* ===================================================================== *)




(** The whole path of a contended job: handed to the idle handle, refused by
    the engine, queued at the head, scheduled again, handed over again. *)
Example contention_run :
  exists d,
    run [LSubmit (control BeginTransaction);
         LMessage 0 {| msg_id := 1; msg_body := Throw (js_Error locked) |};
         LResume 0; LTail;
         LImmediate 0] (create 1 Infinity) = Some d
    /\ settlements d = []
    /\ queue d = []
    /\ tasks d = [TAwaitRun {| payload := {| id := 1; job := control BeginTransaction |} |}
                    0 None]
    /\ map DBWorker.posted (workers d)
       = [[ {| id := 1; job := control BeginTransaction |};
            {| id := 1; job := control BeginTransaction |} ]].
Proof. eexists. split; [vm_compute; reflexivity | repeat split]. Qed.

(* ===================================================================== *)
(** * The dispatcher: what each piece of code leaves alone                *)
(* ===================================================================== *)

Lemma outsource_after_terminate_frame (d : DBDispatcher.t) :
  let d' := outsource_after_terminate d in
  workers d' = workers d /\ queue d' = queue d /\ nextJobId d' = nextJobId d
  /\ closed d' = closed d /\ maxQueue d' = maxQueue d /\ tasks d' = tasks d
  /\ settlements d' = settlements d /\ shutdowns d' = shutdowns d /\ pc d' = pc d.
Proof.
  unfold outsource_after_terminate. destruct (openWorkers d); cbn; repeat split.
Qed.

Lemma outsource_head_frame (e : Entry) (d : DBDispatcher.t) :
  let d' := outsource_head e d in
  nextJobId d' = nextJobId d /\ closed d' = closed d
  /\ maxQueue d' = maxQueue d /\ shutdowns d' = shutdowns d.
Proof.
  unfold outsource_head.
  destruct (getIdleWorker d) as [i|]; [| cbn; repeat split].
  destruct (nth_error (workers d) i) as [w|]; [| cbn; repeat split].
  destruct (closed d) eqn:Hc.
  - destruct (negb (DBWorker.closed w)); [cbn; auto |].
    destruct (outsource_after_terminate_frame d)
      as (_ & _ & Hn & Hcl & Hm & _ & _ & Hs & _).
    cbn. rewrite Hn, Hcl, Hm, Hs. auto.
  - destruct (DBWorker.run (payload e) w) as [w'|err]; [cbn; auto |].
    destruct (String.eqb (message err) locked); cbn; auto.
Qed.

Lemma outsource_resume_frame (e : Entry) (r : Result Value) (d : DBDispatcher.t) :
  let d' := outsource_resume e r d in
  workers d' = workers d /\ nextJobId d' = nextJobId d /\ closed d' = closed d
  /\ workerShutdownComplete d' = workerShutdownComplete d
  /\ maxQueue d' = maxQueue d /\ tasks d' = tasks d /\ shutdowns d' = shutdowns d
  /\ pc d' = AtTail.
Proof.
  unfold outsource_resume. destruct r as [v|err]; [cbn; repeat split |].
  destruct (String.eqb (message err) locked); cbn; repeat split.
Qed.

Lemma outsource_tail_frame (d : DBDispatcher.t) :
  let d' := outsource_tail d in
  workers d' = workers d /\ nextJobId d' = nextJobId d /\ closed d' = closed d
  /\ workerShutdownComplete d' = workerShutdownComplete d
  /\ maxQueue d' = maxQueue d /\ settlements d' = settlements d
  /\ shutdowns d' = shutdowns d /\ pc d' = Idle /\ queue d' = tl (queue d).
Proof.
  unfold outsource_tail. destruct (queue d) eqn:E; cbn; rewrite ?E; repeat split.
Qed.

Lemma reject_all_frame (q : list Entry) (d : DBDispatcher.t) :
  let d' := reject_all q d in
  workers d' = workers d /\ queue d' = queue d /\ nextJobId d' = nextJobId d
  /\ closed d' = closed d /\ workerShutdownComplete d' = workerShutdownComplete d
  /\ maxQueue d' = maxQueue d /\ tasks d' = tasks d
  /\ shutdowns d' = shutdowns d /\ pc d' = pc d
  /\ settlements d'
     = (settlements d ++ map (fun e => (id (payload e), Throw shuttingDown)) q)%list.
Proof.
  revert d; induction q as [|e q IH]; intros d.
  - cbn. rewrite app_nil_r. repeat split.
  - cbn [reject_all map].
    destruct (IH (reject e shuttingDown d))
      as (H1 & H2 & H3 & H4 & H5 & H6 & H7 & H8 & H9 & H10).
    cbv zeta. rewrite H1, H2, H3, H4, H5, H6, H7, H8, H9, H10.
    cbn. rewrite <- app_assoc. repeat split.
Qed.

Lemma shutdown_frame (d : DBDispatcher.t) :
  let d' := shutdown d in
  workers d' = workers d /\ nextJobId d' = nextJobId d
  /\ workerShutdownComplete d' = workerShutdownComplete d
  /\ maxQueue d' = maxQueue d /\ pc d' = pc d
  /\ queue d' = [] /\ closed d' = true
  /\ settlements d'
     = (settlements d
        ++ map (fun e => (id (payload e), Throw shuttingDown)) (queue d))%list
  /\ tasks d'
     = (tasks d ++ map snd (shutdown_workers (List.length (shutdowns d)) 0 (workers d)))%list
  /\ shutdowns d'
     = (shutdowns d
        ++ [{| subs := map fst (shutdown_workers (List.length (shutdowns d)) 0 (workers d));
               snapshot := queue d |}])%list.
Proof.
  unfold shutdown.
  change (queue (set_closed true d)) with (queue d).
  destruct (reject_all_frame (queue d) (set_closed true d))
    as (H1 & H2 & H3 & H4 & H5 & H6 & H7 & H8 & H9 & H10).
  set (d2 := reject_all (queue d) (set_closed true d)) in *.
  cbn -[shutdown_workers]. rewrite H1, H3, H4, H5, H6, H7, H8, H9, H10.
  cbn -[shutdown_workers]. repeat split.
Qed.

Lemma settle_sub_frame (k i : nat) (st : SubState) (d : DBDispatcher.t) :
  let d' := settle_sub k i st d in
  workers d' = workers d /\ queue d' = queue d /\ nextJobId d' = nextJobId d
  /\ closed d' = closed d /\ workerShutdownComplete d' = workerShutdownComplete d
  /\ maxQueue d' = maxQueue d /\ tasks d' = tasks d
  /\ settlements d' = settlements d /\ pc d' = pc d.
Proof.
  unfold settle_sub. destruct (nth_error (shutdowns d) k); cbn; repeat split.
Qed.

Lemma worker_event_frame (i : nat)
    (listener : DBWorker.t -> DBWorker.t * option (Result Value))
    (d d' : DBDispatcher.t) :
  worker_event i listener d = Some d' ->
  queue d' = queue d /\ nextJobId d' = nextJobId d /\ closed d' = closed d
  /\ workerShutdownComplete d' = workerShutdownComplete d
  /\ maxQueue d' = maxQueue d /\ settlements d' = settlements d
  /\ shutdowns d' = shutdowns d /\ pc d' = pc d
  /\ exists w, nth_error (workers d) i = Some w
               /\ workers d' = replace_nth i (fst (listener w)) (workers d)
               /\ tasks d' = match snd (listener w) with
                             | None => tasks d
                             | Some r => settle_run i r (tasks d)
                             end.
Proof.
  unfold worker_event. destruct (nth_error (workers d) i) as [w|]; [| discriminate].
  destruct (listener w) as [w' [r|]] eqn:E; intros H; injection H as <-;
    repeat (split; [reflexivity |]); exists w; rewrite E; repeat split.
Qed.

(** The cases of a step, one by one. *)
Ltac step_cases H :=
  unfold step in H;
  repeat match type of H with
    | context [match ?x with _ => _ end] =>
        match x with
        | worker_event _ _ _ => fail 1
        | _ => destruct x eqn:?; try discriminate
        end
    end;
  try (injection H as H; try subst).

(* ===================================================================== *)
(** * The dispatcher: job ids                                             *)
(* ===================================================================== *)

Lemma submit_rejected (j : Job) (d : DBDispatcher.t) :
  closed d = true \/ reaches (Z.of_nat (List.length (queue d))) (maxQueue d) = true ->
  exists err, (err = dispatcherClosed \/ err = queueFull)
              /\ submit j d = (Rejected err, d)
              /\ (closed d = false -> err = queueFull).
Proof.
  unfold submit. intros [Hc|Hfull].
  - rewrite Hc. exists dispatcherClosed. repeat split; auto. discriminate.
  - destruct (closed d).
    + exists dispatcherClosed. repeat split; auto. discriminate.
    + rewrite Hfull. exists queueFull. repeat split; auto.
Qed.

Lemma submit_accepted (j : Job) (d : DBDispatcher.t) :
  closed d = false ->
  reaches (Z.of_nat (List.length (queue d))) (maxQueue d) = false ->
  submit j d
  = (Awaiting (nextJobId d),
     outsource_head {| payload := {| id := nextJobId d; job := j |} |}
       (set_nextJobId (nextJobId d + 1) d)).
Proof.
  unfold submit. now intros -> ->.
Qed.

Lemma submit_id (j : Job) (d : DBDispatcher.t) (i : Z) :
  fst (submit j d) = Awaiting i ->
  i = nextJobId d /\ nextJobId (snd (submit j d)) = nextJobId d + 1.
Proof.
  unfold submit. destruct (closed d); [discriminate |].
  destruct (reaches _ _); [discriminate |]. cbn [fst snd].
  intros H. injection H as <-. split; [reflexivity |].
  now rewrite (proj1 (outsource_head_frame _ _)).
Qed.

Lemma submit_no_id (j : Job) (d : DBDispatcher.t) (err : Error) :
  fst (submit j d) = Rejected err -> snd (submit j d) = d.
Proof.
  unfold submit. destruct (closed d); [reflexivity |].
  destruct (reaches _ _); [reflexivity | discriminate].
Qed.

(** Only an accepted [submit] moves the counter. *)
Lemma step_nextJobId (l : Label) (d d' : DBDispatcher.t) :
  step l d = Some d' ->
  nextJobId d' = nextJobId d
  \/ exists j, l = LSubmit j /\ fst (submit j d) = Awaiting (nextJobId d).
Proof.
  intros H. destruct l.
  - (* submit *)
    unfold step in H. destruct (pc d); [| discriminate]. injection H as <-.
    destruct (fst (submit j d)) as [err|i] eqn:E.
    + left. now rewrite (submit_no_id _ _ E).
    + right. exists j. split; [reflexivity |].
      now rewrite (proj1 (submit_id _ _ E)) in E.
  - left. unfold step in H. destruct (pc d); [| discriminate]. injection H as <-.
    apply shutdown_frame.
  - left. unfold step in H. destruct (pc d); [| discriminate].
    now apply worker_event_frame in H.
  - left. unfold step in H. destruct (pc d); [| discriminate].
    now apply worker_event_frame in H.
  - left. step_cases H. now rewrite (proj1 (proj2 (outsource_resume_frame _ _ _))).
  - left. step_cases H. now rewrite (proj1 (outsource_head_frame _ _)).
  - left. step_cases H;
      rewrite ?(proj1 (proj2 (proj2 (settle_sub_frame _ _ _ _))));
      rewrite ?(proj1 (proj2 (proj2 (outsource_after_terminate_frame _))));
      reflexivity.
  - left. step_cases H;
      rewrite ?(proj1 (proj2 (proj2 (settle_sub_frame _ _ _ _)))); reflexivity.
  - left. step_cases H. apply outsource_tail_frame.
Qed.

Lemma first_id_issued (ls : list Label) (d : DBDispatcher.t) (i : Z) (rest : list Z) :
  ids_issued ls d = i :: rest -> i = nextJobId d.
Proof.
  revert d; induction ls as [|l ls IH]; intros d; cbn [ids_issued]; [discriminate |].
  destruct (step l d) as [d'|] eqn:Hstep; [| discriminate].
  destruct (step_nextJobId _ _ Hstep) as [Hsame | (j & -> & Hacc)].
  - destruct l as [j| | | | | | | |]; try (intros H; rewrite <- Hsame; now apply IH).
    destruct (fst (submit j d)) as [err|i'] eqn:E.
    + intros H; rewrite <- Hsame; now apply IH.
    + intros H. injection H as -> _. exact (proj1 (submit_id _ _ E)).
  - rewrite Hacc. intros H. now injection H as <- _.
Qed.

(** C10: a [submit] that is turned away because the dispatcher is closed or
    the queue has reached [maxQueue] returns a rejected promise and the
    very same state: counter, queue and handles are as before, the event
    loop goes on as if the call had not been made, and the first id handed
    out afterwards is the one that was next before the call. *)
Theorem submit_rejection_leaves_state (j : Job) (d : DBDispatcher.t) :
  closed d = true \/ reaches (Z.of_nat (List.length (queue d))) (maxQueue d) = true ->
  (exists err, (err = dispatcherClosed \/ err = queueFull)
               /\ submit j d = (Rejected err, d))
  /\ (pc d = Idle ->
      forall ls, run (LSubmit j :: ls) d = run ls d
                 /\ ids_issued (LSubmit j :: ls) d = ids_issued ls d)
  /\ (forall ls i rest, ids_issued (LSubmit j :: ls) d = i :: rest -> i = nextJobId d).
Proof.
  intros Hrej. destruct (submit_rejected j d Hrej) as (err & Herr & Hsub & _).
  split; [now exists err |].
  assert (Hrun : pc d = Idle ->
                 forall ls, run (LSubmit j :: ls) d = run ls d
                            /\ ids_issued (LSubmit j :: ls) d = ids_issued ls d).
  { intros Hpc ls. cbn [run ids_issued]. unfold step. rewrite Hpc, Hsub. cbn.
    split; reflexivity. }
  split; [exact Hrun |].
  intros ls i rest. exact (@first_id_issued (LSubmit j :: ls) d i rest).
Qed.

Lemma submit_rejection_leaves_state_witness :
  submit (control BeginTransaction) (shutdown (create 2 Infinity))
  = (Rejected dispatcherClosed, shutdown (create 2 Infinity)).
Proof.
  destruct (submit_rejection_leaves_state (control BeginTransaction)
              (shutdown (create 2 Infinity)) (or_introl eq_refl))
    as ((err & Herr & Hsub) & _).
  rewrite Hsub. f_equal. f_equal.
  vm_compute in Hsub. now injection Hsub as <-.
Defined.

(* ===================================================================== *)
(** * The dispatcher: the queue bound                                     *)
(* ===================================================================== *)

Lemma take_forallb {A : Type} (f : A -> bool) (n : nat) (l rest : list A) (x : A) :
  take n l = Some (x, rest) -> forallb f l = f x && forallb f rest.
Proof.
  revert n rest; induction l as [|y l IH]; intros [|n] rest; cbn; try discriminate.
  - intros H. now injection H as -> ->.
  - destruct (take n l) as [[z rest']|] eqn:E; [| discriminate].
    intros H. injection H as -> <-. cbn. rewrite (IH _ _ E).
    destruct (f y), (f x); reflexivity.
Qed.

Lemma take_In {A : Type} (n : nat) (l rest : list A) (x : A) :
  take n l = Some (x, rest) -> In x l /\ forall y, In y rest -> In y l.
Proof.
  revert n rest; induction l as [|y l IH]; intros [|n] rest; cbn; try discriminate.
  - intros H. injection H as -> ->. auto.
  - destruct (take n l) as [[z rest']|] eqn:E; [| discriminate].
    intros H. injection H as -> <-. destruct (IH _ _ E) as [Hx Hrest].
    split; [auto |]. intros y' [<-|Hy]; auto.
Qed.

Lemma settle_run_entry_free (i : nat) (r : Result Value) (ts : list Task) :
  forallb entry_free (settle_run i r ts) = forallb entry_free ts.
Proof.
  induction ts as [|t0 ts IH]; [reflexivity |].
  destruct t0 as [e|e w [r'|]|w o|k s]; cbn; rewrite ?IH; try reflexivity.
  destruct (Nat.eqb w i); reflexivity.
Qed.

Lemma shutdown_workers_entry_free (k n : nat) (ws : list DBWorker.t) :
  forallb entry_free (map snd (shutdown_workers k n ws)) = true.
Proof.
  revert n; induction ws as [|w ws IH]; intros n; cbn; [reflexivity |].
  rewrite IH. unfold shutdown_worker. now destruct (negb (DBWorker.busy w)).
Qed.

(** Entered with an empty queue, [#outsource] holds at most its own entry
    when it reaches its last lines. *)
Lemma outsource_head_queue (e : Entry) (d : DBDispatcher.t) :
  queue d = [] ->
  match pc (outsource_head e d) with
  | Idle => queue (outsource_head e d) = []
  | AtTail => (List.length (queue (outsource_head e d)) <= 1)%nat
  end.
Proof.
  intros Hq. unfold outsource_head.
  destruct (getIdleWorker d) as [i|]; [| cbn; rewrite Hq; cbn; lia].
  destruct (nth_error (workers d) i) as [w|].
  2:{ destruct (pc d); rewrite Hq; cbn; auto. }
  destruct (closed d).
  - destruct (negb (DBWorker.closed w)); cbn; [exact Hq |].
    now rewrite (proj1 (proj2 (outsource_after_terminate_frame d))).
  - destruct (DBWorker.run (payload e) w) as [w'|err]; cbn; [exact Hq |].
    destruct (String.eqb (message err) locked); cbn; rewrite Hq; cbn; lia.
Qed.

Lemma outsource_resume_queue (e : Entry) (r : Result Value) (d : DBDispatcher.t) :
  queue d = [] -> (List.length (queue (outsource_resume e r d)) <= 1)%nat.
Proof.
  intros Hq. unfold outsource_resume. destruct r as [v|err]; cbn; [rewrite Hq; cbn; lia |].
  destruct (String.eqb (message err) locked); cbn; rewrite Hq; cbn; lia.
Qed.

Lemma at_least_one_dec (b : Bound) : at_least_one b \/ ~ at_least_one b.
Proof.
  destruct b as [|M]; cbn; [now left |].
  destruct (Z.le_gt_cases 1 M); [now left | right; lia].
Qed.

Lemma not_reached_at_least_one (b : Bound) : reaches 0 b = false -> at_least_one b.
Proof.
  destruct b as [|M]; cbn; [trivial | lia].
Qed.

Lemma queue_inv_create (size : nat) (b : Bound) : queue_inv b (create size b).
Proof. repeat split. Qed.

(** A task that holds an entry exists only under a bound that lets one in. *)
Lemma entry_task_at_least_one (b : Bound) (n : nat) (ts rest : list Task) (t0 : Task) :
  (~ at_least_one b -> forallb entry_free ts = true) ->
  take n ts = Some (t0, rest) -> entry_free t0 = false -> at_least_one b.
Proof.
  intros Hfree Ht Ht0. destruct (at_least_one_dec b) as [H|H]; [exact H |].
  specialize (Hfree H). rewrite (take_forallb entry_free _ _ Ht), Ht0 in Hfree.
  discriminate.
Qed.

Lemma rest_entry_free (b : Bound) (n : nat) (ts rest : list Task) (t0 : Task) :
  (~ at_least_one b -> forallb entry_free ts = true) ->
  take n ts = Some (t0, rest) ->
  ~ at_least_one b -> forallb entry_free rest = true.
Proof.
  intros Hfree Ht H. specialize (Hfree H).
  rewrite (take_forallb entry_free _ _ Ht) in Hfree.
  now apply andb_true_iff in Hfree.
Qed.

(** A state in which no dispatcher code runs and the queue is empty. *)
Lemma queue_inv_idle (b : Bound) (d : DBDispatcher.t) :
  maxQueue d = b -> pc d = Idle -> queue d = [] ->
  (~ at_least_one b -> forallb entry_free (tasks d) = true) ->
  queue_inv b d.
Proof.
  intros Hm Hp Hq Hf. unfold queue_inv. rewrite Hp. auto.
Qed.

(** A state reached by [#outsource] under a bound that lets a job in. *)
Lemma queue_inv_outsource (b : Bound) (d : DBDispatcher.t) :
  maxQueue d = b -> at_least_one b ->
  match pc d with
  | Idle => queue d = []
  | AtTail => (List.length (queue d) <= 1)%nat
  end ->
  queue_inv b d.
Proof.
  intros Hm Hone Hq. unfold queue_inv. split; [exact Hm |]. split.
  - destruct (pc d); auto.
  - intros Hn. contradiction.
Qed.

Lemma queue_inv_step (b : Bound) (l : Label) (d d' : DBDispatcher.t) :
  queue_inv b d -> step l d = Some d' -> queue_inv b d'.
Proof.
  intros (Hmax & Hshape & Hfree) Hstep.
  destruct (pc d) eqn:Hpc.
  - (* no dispatcher code is running *)
    destruct l; unfold step in Hstep; rewrite Hpc in Hstep; try discriminate.
    + (* submit *)
      injection Hstep as <-. unfold submit.
      destruct (closed d); [now apply queue_inv_idle |].
      rewrite Hshape, Hmax. cbn [List.length Z.of_nat].
      destruct (reaches 0 b) eqn:HM; [now apply queue_inv_idle |].
      pose proof (not_reached_at_least_one _ HM) as Hone. cbn [snd].
      set (e := {| payload := {| id := nextJobId d; job := j |} |}).
      set (d1 := set_nextJobId (nextJobId d + 1) d).
      destruct (outsource_head_frame e d1) as (_ & _ & Hm & _).
      apply queue_inv_outsource; [now rewrite Hm | exact Hone |].
      exact (outsource_head_queue e d1 Hshape).
    + (* shutdown *)
      injection Hstep as <-.
      destruct (shutdown_frame d) as (_ & _ & _ & Hm & Hp & Hq & _ & _ & Ht & _).
      apply queue_inv_idle; [congruence | congruence | exact Hq |].
      intros HM. rewrite Ht, forallb_app, (Hfree HM).
      apply shutdown_workers_entry_free.
    + (* message *)
      apply worker_event_frame in Hstep.
      destruct Hstep as (Hq & _ & _ & _ & Hm & _ & _ & Hp & w0 & _ & _ & Ht).
      apply queue_inv_idle; [congruence | congruence | congruence |].
      intros HM. rewrite Ht.
      destruct (snd _); [rewrite settle_run_entry_free |]; auto.
    + (* error *)
      apply worker_event_frame in Hstep.
      destruct Hstep as (Hq & _ & _ & _ & Hm & _ & _ & Hp & w0 & _ & _ & Ht).
      apply queue_inv_idle; [congruence | congruence | congruence |].
      intros HM. rewrite Ht.
      destruct (snd _); [rewrite settle_run_entry_free |]; auto.
    + (* resume *)
      destruct (take t0 (tasks d)) as [[[e|e w [r|]|w o|k s] rest]|] eqn:Ht;
        try discriminate.
      injection Hstep as <-.
      pose proof (@entry_task_at_least_one b _ _ _ _ Hfree Ht eq_refl) as Hone.
      destruct (outsource_resume_frame e r (set_tasks rest d))
        as (_ & _ & _ & _ & Hm & _ & _ & Hp).
      apply queue_inv_outsource; [now rewrite Hm | exact Hone |].
      rewrite Hp. now apply outsource_resume_queue.
    + (* immediate *)
      destruct (take t0 (tasks d)) as [[[e|e w r|w o|k s] rest]|] eqn:Ht;
        try discriminate.
      injection Hstep as <-.
      pose proof (@entry_task_at_least_one b _ _ _ _ Hfree Ht eq_refl) as Hone.
      destruct (outsource_head_frame e (set_tasks rest d)) as (_ & _ & Hm & _).
      apply queue_inv_outsource; [now rewrite Hm | exact Hone |].
      exact (outsource_head_queue e (set_tasks rest d) Hshape).
    + (* terminated *)
      destruct (take t0 (tasks d)) as [[[e|e w r|w o|k s] rest]|] eqn:Ht;
        try discriminate.
      pose proof (@rest_entry_free b _ _ _ _ Hfree Ht) as Hrest.
      destruct ok.
      * cbn [workers set_tasks] in Hstep.
        destruct (nth_error (workers d) w) as [w0|]; [| discriminate].
        injection Hstep as <-.
        destruct o as [k|].
        -- destruct (settle_sub_frame k w SubFulfilled
                       (set_workers (replace_nth w (DBWorker.terminated w0) (workers d))
                          (set_tasks rest d)))
             as (_ & Hq & _ & _ & _ & Hm & Hts & _ & Hp).
           apply queue_inv_idle; [now rewrite Hm | now rewrite Hp | now rewrite Hq |].
           now rewrite Hts.
        -- destruct (outsource_after_terminate_frame
                       (set_workers (replace_nth w (DBWorker.terminated w0) (workers d))
                          (set_tasks rest d)))
             as (_ & Hq & _ & _ & Hm & Hts & _ & _ & Hp).
           apply queue_inv_idle; [now rewrite Hm | now rewrite Hp | now rewrite Hq |].
           now rewrite Hts.
      * injection Hstep as <-. destruct o as [k|].
        -- destruct (settle_sub_frame k w SubRejected (set_tasks rest d))
             as (_ & Hq & _ & _ & _ & Hm & Hts & _ & Hp).
           apply queue_inv_idle; [now rewrite Hm | now rewrite Hp | now rewrite Hq |].
           now rewrite Hts.
        -- now apply queue_inv_idle.
    + (* poll *)
      destruct (take t0 (tasks d)) as [[[e|e w r|w o|k s] rest]|] eqn:Ht;
        try discriminate.
      pose proof (@rest_entry_free b _ _ _ _ Hfree Ht) as Hrest.
      destruct (workerShutdownComplete d); injection Hstep as <-.
      * destruct (settle_sub_frame k s SubFulfilled (set_tasks rest d))
          as (_ & Hq & _ & _ & _ & Hm & Hts & _ & Hp).
        apply queue_inv_idle; [now rewrite Hm | now rewrite Hp | now rewrite Hq |].
        now rewrite Hts.
      * now apply queue_inv_idle.
  - (* [#outsource] stands before its last lines *)
    destruct Hshape as [Hlen HM].
    destruct l; unfold step in Hstep; rewrite Hpc in Hstep; try discriminate.
    injection Hstep as <-.
    destruct (outsource_tail_frame d) as (_ & _ & _ & _ & Hm & _ & _ & Hp & Hq).
    apply queue_inv_outsource; [now rewrite Hm | exact HM |].
    rewrite Hp, Hq. destruct (queue d) as [|e [|e' q]]; cbn in *; auto; lia.
Qed.

Lemma queue_inv_run (b : Bound) (ls : list Label) (d d' : DBDispatcher.t) :
  queue_inv b d -> run ls d = Some d' -> queue_inv b d'.
Proof.
  revert d; induction ls as [|l ls IH]; intros d Hinv; cbn [run].
  - intros H. now injection H as <-.
  - destruct (step l d) as [d1|] eqn:Hstep; [| discriminate].
    apply IH. eapply queue_inv_step; eassumption.
Qed.

Lemma queue_inv_reachable (size : nat) (b : Bound) (d : DBDispatcher.t) :
  reachable size b d -> queue_inv b d.
Proof.
  intros [ls Hrun]. eapply queue_inv_run; [apply queue_inv_create | exact Hrun].
Qed.

(** The array [#queue] itself: a dispatcher built with [maxQueue = M] never
    holds more than [M] entries in it, not between two runs of its code and
    not inside one (after the push or the unshift of [#outsource]); and [submit],
    called with [M] or more entries queued, returns a rejected promise and
    leaves the state alone, the error being "DB queue is full" unless the
    dispatcher is closed. *)
Theorem queue_never_exceeds_maxQueue (M : Z) :
  0 <= M ->
  (forall (size : nat) (d : DBDispatcher.t),
      reachable size (Finite M) d -> Z.of_nat (List.length (queue d)) <= M)
  /\ (forall (d : DBDispatcher.t) (j : Job),
         maxQueue d = Finite M ->
         M <= Z.of_nat (List.length (queue d)) ->
         exists err, submit j d = (Rejected err, d)
                     /\ (closed d = false -> err = queueFull)).
Proof.
  intros HM. split.
  - intros size d Hreach.
    destruct (@queue_inv_reachable _ _ _ Hreach) as (_ & Hshape & _).
    destruct (pc d).
    + rewrite Hshape. cbn. lia.
    + cbn in Hshape. lia.
  - intros d j Hmax Hfull.
    destruct (submit_rejected j d) as (err & _ & Hsub & Hkind).
    + right. rewrite Hmax. cbn. lia.
    + now exists err.
Qed.

Lemma queue_never_exceeds_maxQueue_witness :
  match run [LSubmit (control BeginTransaction); LSubmit (control Commit)]
          (create 1 (Finite 1)) with
  | Some d => Z.of_nat (List.length (queue d)) <= 1
  | None => False
  end.
Proof.
  cbn [run step create pc].
  refine (proj1 (queue_never_exceeds_maxQueue (M := 1) _) 1%nat _ _); [lia |].
  exists [LSubmit (control BeginTransaction); LSubmit (control Commit)].
  reflexivity.
Defined.

(** Two jobs on one worker: the second waits in a [setImmediate], passing
    through the queue each time it finds the worker busy. *)
Example queue_passes_through :
  exists d1 d2,
    run [LSubmit (control BeginTransaction); LSubmit (control Commit)]
      (create 1 (Finite 1)) = Some d1
    /\ pc d1 = AtTail
    /\ queue d1 = [{| payload := {| id := 2; job := control Commit |} |}]
    /\ step LTail d1 = Some d2
    /\ queue d2 = []
    /\ tasks d2 = [TAwaitRun {| payload := {| id := 1; job := control BeginTransaction |} |}
                     0 None;
                   TImmediate {| payload := {| id := 2; job := control Commit |} |}].
Proof. do 2 eexists. repeat split. Qed.

(** Submits that find no idle handle: each one is accepted, passes through
    the queue and ends in a [setImmediate] callback. *)
Lemma submits_while_busy (M : Z) (js : list Job) :
  1 <= M ->
  forall d : DBDispatcher.t,
    pc d = Idle -> closed d = false -> queue d = [] ->
    find_idle (workers d) 0 = None -> maxQueue d = Finite M ->
    exists d',
      run (flat_map (fun j => [LSubmit j; LTail]) js) d = Some d'
      /\ ids_issued (flat_map (fun j => [LSubmit j; LTail]) js) d
         = count_from (nextJobId d) (List.length js)
      /\ map (fun e => job (payload e)) (waiting d')
         = (map (fun e => job (payload e)) (waiting d) ++ js)%list
      /\ queue d' = [] /\ settlements d' = settlements d /\ pc d' = Idle.
Proof.
  intros HM. induction js as [|j js IH]; intros d Hpc Hc Hq Hidle Hmax.
  - exists d. cbn. rewrite app_nil_r. repeat split; assumption.
  - destruct d as [ws q n c wsc mq ts st sh p].
    cbn in Hpc, Hc, Hq, Hidle, Hmax. subst.
    assert (Hfull : (0 >=? M) = false) by lia.
    set (e := {| payload := {| id := n; job := j |} |}).
    assert (Hsub : submit j (mk ws [] n false wsc (Finite M) ts st sh Idle)
                   = (Awaiting n, mk ws [e] (n + 1) false wsc (Finite M) ts st sh AtTail)).
    { unfold submit, outsource_head, getIdleWorker. cbn. rewrite Hfull, Hidle.
      reflexivity. }
    destruct (IH (mk ws [] (n + 1) false wsc (Finite M) (ts ++ [TImmediate e]) st sh Idle))
      as (d' & Hrun & Hids & Hwait & Hq' & Hs' & Hpc'); try reflexivity; try assumption.
    exists d'. cbn [flat_map app run ids_issued].
    unfold step at 1 3. cbn [pc]. rewrite Hsub. cbn [fst snd].
    assert (Htail : outsource_tail (mk ws [e] (n + 1) false wsc (Finite M) ts st sh AtTail)
                    = mk ws [] (n + 1) false wsc (Finite M) (ts ++ [TImmediate e]) st sh Idle)
      by reflexivity.
    unfold step at 1 2. cbn [pc]. rewrite Htail.
    cbn [List.length count_from]. cbn [nextJobId] in Hids. rewrite Hrun, Hids.
    split; [reflexivity |]. split; [reflexivity |]. split; [| auto].
    rewrite Hwait. unfold waiting. cbn [queue tasks app].
    rewrite flat_map_app, map_app. cbn. now rewrite <- app_assoc.
Qed.

(** C5: [maxQueue] does not bound the jobs that wait.  With one handle and
    [maxQueue = M >= 1], any number of jobs submitted in a row are all
    accepted: the first goes to the handle, and each of the others passes
    through [#queue] into a [setImmediate] callback before the next
    [submit] runs, so that [submit] always finds [#queue] empty.  All of
    them wait for the handle, none is rejected. *)
Theorem waiting_jobs_exceed_maxQueue (M : Z) (j0 : Job) (js : list Job) :
  1 <= M ->
  exists d,
    run (LSubmit j0 :: flat_map (fun j => [LSubmit j; LTail]) js) (create 1 (Finite M))
    = Some d
    /\ ids_issued (LSubmit j0 :: flat_map (fun j => [LSubmit j; LTail]) js)
         (create 1 (Finite M))
       = count_from 1 (S (List.length js))
    /\ map (fun e => job (payload e)) (waiting d) = js
    /\ queue d = []
    /\ settlements d = []
    /\ pc d = Idle.
Proof.
  intros HM.
  assert (Hfull : (0 >=? M) = false) by lia.
  set (e0 := {| payload := {| id := 1; job := j0 |} |}).
  assert (Hsub : submit j0 (create 1 (Finite M))
                 = (Awaiting 1,
                    mk [{| DBWorker.busy := true;
                           DBWorker.inflight := Some {| DBWorker.inflight_id := 1 |};
                           DBWorker.closed := false;
                           DBWorker.posted := [payload e0] |}]
                       [] 2 false false (Finite M) [TAwaitRun e0 0 None] [] [] Idle)).
  { unfold submit, outsource_head, getIdleWorker. cbn. rewrite Hfull. reflexivity. }
  match type of Hsub with _ = (_, ?d1) =>
    destruct (@submits_while_busy M js HM d1)
      as (d & Hrun & Hids & Hwait & Hq & Hs & Hpc); try reflexivity
  end.
  exists d. cbn [run ids_issued]. unfold step at 1 2. cbn [pc create].
  fold (create 1 (Finite M)). rewrite Hsub. cbn [fst snd].
  cbn [nextJobId] in Hids. cbn [count_from]. rewrite Hrun, Hids.
  repeat split; assumption.
Qed.

Lemma waiting_jobs_exceed_maxQueue_witness :
  exists d,
    run (LSubmit (control BeginTransaction)
         :: flat_map (fun j => [LSubmit j; LTail])
              [control Commit; control Rollback; control Commit; control Rollback])
      (create 1 (Finite 1)) = Some d
    /\ ids_issued (LSubmit (control BeginTransaction)
                   :: flat_map (fun j => [LSubmit j; LTail])
                        [control Commit; control Rollback; control Commit; control Rollback])
         (create 1 (Finite 1))
       = count_from 1 5
    /\ map (fun e => job (payload e)) (waiting d)
       = [control Commit; control Rollback; control Commit; control Rollback]
    /\ queue d = []
    /\ settlements d = []
    /\ pc d = Idle.
Proof.
  apply (@waiting_jobs_exceed_maxQueue 1 (control BeginTransaction)
           [control Commit; control Rollback; control Commit; control Rollback]).
  lia.
Defined.

(* ===================================================================== *)
(** * The dispatcher: shutdown                                            *)
(* ===================================================================== *)

Lemma openWorkers_nil (d : DBDispatcher.t) : openWorkers d = [] -> all_closed d.
Proof.
  unfold openWorkers, all_closed.
  induction (workers d) as [|w ws IH]; cbn; [contradiction |].
  destruct (DBWorker.closed w) eqn:Hc; cbn; [| discriminate].
  intros Hnil w' [<-|Hin]; auto.
Qed.

Lemma grows_refl (d : DBDispatcher.t) : grows d d.
Proof.
  repeat split; auto. intros i w Hnth Hc. now exists w.
Qed.

Lemma grows_trans (d1 d2 d3 : DBDispatcher.t) :
  grows d1 d2 -> grows d2 d3 -> grows d1 d3.
Proof.
  intros (L1 & C1 & F1 & S1) (L2 & C2 & F2 & S2). repeat split; auto.
  - congruence.
  - intros i w Hnth Hc. destruct (C1 _ _ Hnth Hc) as (w' & Hnth' & Hc'). eauto.
Qed.

(** Equal handles, flag and settlements: nothing to show. *)
Lemma grows_same (d d' : DBDispatcher.t) :
  workers d' = workers d ->
  workerShutdownComplete d' = workerShutdownComplete d ->
  (forall x, In x (settlements d) -> In x (settlements d')) ->
  grows d d'.
Proof.
  intros Hw Hf Hs. unfold grows. rewrite Hw, Hf. repeat split; auto.
  intros i w Hnth Hc. now exists w.
Qed.

(** One handle replaced by one that is closed if the old one was. *)
Lemma grows_replace (d d' : DBDispatcher.t) (i : nat) (w w' : DBWorker.t) :
  nth_error (workers d) i = Some w ->
  (DBWorker.closed w = true -> DBWorker.closed w' = true) ->
  workers d' = replace_nth i w' (workers d) ->
  workerShutdownComplete d' = workerShutdownComplete d ->
  (forall x, In x (settlements d) -> In x (settlements d')) ->
  grows d d'.
Proof.
  intros Hnth Hc Hw Hf Hs. unfold grows. rewrite Hw, Hf, replace_nth_length.
  repeat split; auto.
  intros j w0 Hj Hc0. destruct (Nat.eq_dec i j) as [<-|Hne].
  - exists w'. split; [now apply replace_nth_same with (y := w) |].
    apply Hc. congruence.
  - exists w0. split; [now rewrite replace_nth_other | exact Hc0].
Qed.

Lemma all_closed_grows (d d' : DBDispatcher.t) :
  grows d d' -> all_closed d -> all_closed d'.
Proof.
  intros (Hlen & Hc & _ & _) Hall w' Hin.
  destruct (In_nth_error _ _ Hin) as [i Hi].
  assert (Hlt : (i < List.length (workers d))%nat).
  { rewrite <- Hlen. apply nth_error_Some. congruence. }
  destruct (nth_error (workers d) i) as [w|] eqn:Hw;
    [| apply nth_error_None in Hw; lia].
  destruct (Hc i w Hw (Hall w (nth_error_In _ _ Hw))) as (w'' & Hi' & Hc'').
  congruence.
Qed.

Lemma call_ok_grows (d d' : DBDispatcher.t) (c : ShutdownCall) :
  grows d d' -> call_ok d c -> call_ok d' c.
Proof.
  intros (Hlen & Hc & Hf & Hs) (Hsubs & Hslots & Hsnap). repeat split.
  - congruence.
  - intros i st Hnth Hst. destruct (Hslots i st Hnth Hst) as [Hflag|(w & Hw & Hcw)].
    + left. auto.
    + right. exact (Hc i w Hw Hcw).
  - intros e He. apply Hs. now apply Hsnap.
Qed.

(** The invariant goes along with any change that keeps the shutdown calls
    and does not set the flag. *)
Lemma shutdown_inv_grows (d d' : DBDispatcher.t) :
  grows d d' ->
  shutdowns d' = shutdowns d ->
  workerShutdownComplete d' = workerShutdownComplete d ->
  shutdown_inv d -> shutdown_inv d'.
Proof.
  intros Hg Hs Hf (Hflag & Hcalls). split.
  - rewrite Hf. intros H. exact (all_closed_grows Hg (Hflag H)).
  - rewrite Hs. intros k c Hk. exact (call_ok_grows Hg (Hcalls k c Hk)).
Qed.

(** [#outsource] after its [await worker.terminate()]: the flag is set only
    when every handle is closed. *)
Lemma shutdown_inv_after_terminate (d : DBDispatcher.t) :
  shutdown_inv d -> shutdown_inv (outsource_after_terminate d).
Proof.
  intros (Hflag & Hcalls). unfold outsource_after_terminate.
  destruct (openWorkers d) eqn:Hopen; [| exact (conj Hflag Hcalls)].
  split.
  - intros _. exact (openWorkers_nil _ Hopen).
  - intros k c Hk. cbn in Hk. apply call_ok_grows with (d := d); [| now apply Hcalls with k].
    unfold grows. cbn. repeat split; auto. intros i w Hnth Hc. now exists w.
Qed.

Lemma shutdown_inv_ext (d d' : DBDispatcher.t) :
  workers d' = workers d ->
  workerShutdownComplete d' = workerShutdownComplete d ->
  settlements d' = settlements d ->
  shutdowns d' = shutdowns d ->
  shutdown_inv d -> shutdown_inv d'.
Proof.
  intros Hw Hf Hs Hsd. apply shutdown_inv_grows; auto.
  apply grows_same; auto. now rewrite Hs.
Qed.

Ltac same_core Hinv d0 :=
  apply shutdown_inv_ext with (d := d0);
  [reflexivity | reflexivity | reflexivity | reflexivity | exact Hinv].

Lemma shutdown_inv_head (e : Entry) (d : DBDispatcher.t) :
  shutdown_inv d -> shutdown_inv (outsource_head e d).
Proof.
  intros Hinv. unfold outsource_head.
  destruct (getIdleWorker d) as [i|]; [| same_core Hinv d].
  destruct (nth_error (workers d) i) as [w|] eqn:Hnth; [| exact Hinv].
  destruct (closed d).
  - destruct (negb (DBWorker.closed w)); [same_core Hinv d |].
    pose proof (shutdown_inv_after_terminate Hinv) as Hafter.
    same_core Hafter (outsource_after_terminate d).
  - unfold DBWorker.run. destruct (DBWorker.busy w).
    + cbn [message js_Error]. destruct (String.eqb _ locked); [same_core Hinv d |].
      apply shutdown_inv_grows with (d := d);
        [| reflexivity | reflexivity | exact Hinv].
      apply grows_same; [reflexivity | reflexivity |].
      cbn. intros x Hx. apply in_or_app. now left.
    + apply shutdown_inv_grows with (d := d);
        [| reflexivity | reflexivity | exact Hinv].
      eapply grows_replace with (i := i);
        [exact Hnth | | reflexivity | reflexivity | auto].
      cbn. auto.
Qed.

Lemma shutdown_inv_resume (e : Entry) (r : Result Value) (d : DBDispatcher.t) :
  shutdown_inv d -> shutdown_inv (outsource_resume e r d).
Proof.
  intros Hinv.
  destruct (outsource_resume_frame e r d) as (Hw & _ & _ & Hf & _ & _ & Hs & _).
  apply shutdown_inv_grows with (d := d); auto.
  apply grows_same; auto.
  unfold outsource_resume. destruct r as [v|err]; cbn.
  - intros x Hx. apply in_or_app. now left.
  - destruct (String.eqb _ locked); cbn; auto.
    intros x Hx. apply in_or_app. now left.
Qed.

Lemma shutdown_inv_tail (d : DBDispatcher.t) :
  shutdown_inv d -> shutdown_inv (outsource_tail d).
Proof.
  intros Hinv.
  destruct (outsource_tail_frame d) as (Hw & _ & _ & Hf & _ & Hs & Hsd & _).
  now apply shutdown_inv_ext with (d := d).
Qed.

Lemma shutdown_workers_subs (k n : nat) (ws : list DBWorker.t) :
  List.length (map fst (shutdown_workers k n ws)) = List.length ws
  /\ forall i st, nth_error (map fst (shutdown_workers k n ws)) i = Some st ->
                  st = SubPending.
Proof.
  revert n; induction ws as [|w ws IH]; intros n; cbn.
  - split; [reflexivity |]. intros [|i] st; discriminate.
  - destruct (IH (S n)) as [Hlen Hpend]. split; [now rewrite Hlen |].
    intros [|i] st; cbn.
    + unfold shutdown_worker. destruct (negb (DBWorker.busy w)); cbn; congruence.
    + apply Hpend.
Qed.

Lemma shutdown_inv_shutdown (d : DBDispatcher.t) :
  shutdown_inv d -> shutdown_inv (shutdown d).
Proof.
  intros (Hflag & Hcalls).
  destruct (shutdown_frame d) as (Hw & _ & Hf & _ & _ & _ & _ & Hs & _ & Hsd).
  assert (Hg : grows d (shutdown d)).
  { apply grows_same; auto. rewrite Hs. intros x Hx. apply in_or_app. now left. }
  split.
  - rewrite Hf. intros H. exact (all_closed_grows Hg (Hflag H)).
  - rewrite Hsd. intros k c Hk.
    destruct (Nat.lt_ge_cases k (List.length (shutdowns d))) as [Hlt|Hge].
    + rewrite nth_error_app1 in Hk by exact Hlt.
      exact (call_ok_grows Hg (Hcalls k c Hk)).
    + rewrite nth_error_app2 in Hk by exact Hge.
      destruct (k - List.length (shutdowns d))%nat as [|k']; cbn in Hk;
        [| destruct k'; discriminate].
      injection Hk as <-.
      destruct (shutdown_workers_subs (List.length (shutdowns d)) 0 (workers d))
        as [Hlen Hpend].
      repeat split; cbn [subs snapshot].
      * now rewrite Hw.
      * intros i st Hi Hst. rewrite (Hpend i st Hi) in Hst. discriminate.
      * intros e He. unfold rejected_shutting_down. rewrite Hs.
        apply in_or_app. right.
        exact (in_map (fun e0 => (id (payload e0), Throw shuttingDown)) _ _ He).
Qed.

(** Settling a slot keeps the invariant when the new state of the slot is
    justified. *)
Lemma shutdown_inv_settle_sub (k i : nat) (st : SubState) (d : DBDispatcher.t) :
  shutdown_inv d -> slot_ok d i st -> shutdown_inv (settle_sub k i st d).
Proof.
  intros (Hflag & Hcalls) Hslot.
  destruct (settle_sub_frame k i st d) as (Hw & _ & _ & _ & Hf & _ & _ & Hs & _).
  assert (Hg : grows d (settle_sub k i st d))
    by (apply grows_same; auto; now rewrite Hs).
  split.
  - rewrite Hf. intros H. exact (all_closed_grows Hg (Hflag H)).
  - intros k' c' Hk'. apply call_ok_grows with (d := d); [exact Hg |].
    unfold settle_sub in Hk'.
    destruct (nth_error (shutdowns d) k) as [c|] eqn:Hk; [| now apply Hcalls with k'].
    cbn [shutdowns set_shutdowns] in Hk'.
    destruct (Nat.eq_dec k k') as [<-|Hne].
    + rewrite (replace_nth_same _ _ _ Hk) in Hk'. injection Hk' as <-.
      destruct (Hcalls k c Hk) as (Hlen & Hslots & Hsnap).
      repeat split; cbn [subs snapshot]; auto.
      * now rewrite replace_nth_length.
      * intros j st' Hj. destruct (Nat.eq_dec i j) as [<-|Hij].
        -- destruct (nth_error (subs c) i) as [old|] eqn:Hold.
           ++ rewrite (replace_nth_same _ _ _ Hold) in Hj. now injection Hj as <-.
           ++ assert (Hnone : nth_error (replace_nth i st (subs c)) i = None).
              { apply nth_error_None. rewrite replace_nth_length.
                now apply nth_error_None. }
              congruence.
        -- rewrite replace_nth_other in Hj by exact Hij. now apply Hslots.
    + rewrite replace_nth_other in Hk' by exact Hne. now apply Hcalls with k'.
Qed.

Lemma listener_keeps_closed (w : DBWorker.t) :
  (forall msg, DBWorker.closed (fst (DBWorker.on_message msg w)) = DBWorker.closed w)
  /\ (forall err, DBWorker.closed (fst (DBWorker.on_error err w)) = DBWorker.closed w).
Proof.
  split; intros x.
  - unfold DBWorker.on_message. destruct (DBWorker.inflight w) as [fl|]; [| reflexivity].
    destruct (negb _); [reflexivity |]. now destruct (msg_body x).
  - unfold DBWorker.on_error. now destruct (DBWorker.inflight w).
Qed.

Lemma shutdown_inv_worker_event (i : nat)
    (listener : DBWorker.t -> DBWorker.t * option (Result Value))
    (d d' : DBDispatcher.t) :
  (forall w, DBWorker.closed (fst (listener w)) = DBWorker.closed w) ->
  worker_event i listener d = Some d' ->
  shutdown_inv d -> shutdown_inv d'.
Proof.
  intros Hkeep Hev Hinv. apply worker_event_frame in Hev.
  destruct Hev as (_ & _ & _ & Hf & _ & Hs & Hsd & _ & w & Hnth & Hw & _).
  apply shutdown_inv_grows with (d := d); auto.
  apply grows_replace with (i := i) (w := w) (w' := fst (listener w));
    [exact Hnth | rewrite Hkeep; auto | exact Hw | exact Hf | rewrite Hs; auto].
Qed.

Lemma shutdown_inv_step (l : Label) (d d' : DBDispatcher.t) :
  shutdown_inv d -> step l d = Some d' -> shutdown_inv d'.
Proof.
  intros Hinv Hstep.
  destruct (pc d) eqn:Hpc;
    destruct l; unfold step in Hstep; rewrite Hpc in Hstep; try discriminate.
  - (* submit *)
    injection Hstep as <-. unfold submit.
    destruct (closed d); [exact Hinv |].
    destruct (reaches _ _); [exact Hinv |]. cbn [snd].
    apply shutdown_inv_head. now apply shutdown_inv_ext with (d := d).
  - injection Hstep as <-. now apply shutdown_inv_shutdown.
  - eapply shutdown_inv_worker_event; [| exact Hstep | exact Hinv].
    intros w0. apply listener_keeps_closed.
  - eapply shutdown_inv_worker_event; [| exact Hstep | exact Hinv].
    intros w0. apply listener_keeps_closed.
  - (* resume *)
    destruct (take t0 (tasks d)) as [[[e|e w [r|]|w o|k s] rest]|]; try discriminate.
    injection Hstep as <-.
    apply shutdown_inv_resume. now apply shutdown_inv_ext with (d := d).
  - (* immediate *)
    destruct (take t0 (tasks d)) as [[[e|e w r|w o|k s] rest]|]; try discriminate.
    injection Hstep as <-.
    apply shutdown_inv_head. now apply shutdown_inv_ext with (d := d).
  - (* terminated *)
    destruct (take t0 (tasks d)) as [[[e|e w r|w o|k s] rest]|]; try discriminate.
    destruct ok.
    + cbn [workers set_tasks] in Hstep.
      destruct (nth_error (workers d) w) as [w0|] eqn:Hnth; [| discriminate].
      injection Hstep as <-.
      set (d2 := set_workers (replace_nth w (DBWorker.terminated w0) (workers d))
                   (set_tasks rest d)).
      assert (Hinv2 : shutdown_inv d2).
      { apply shutdown_inv_grows with (d := d);
          [| reflexivity | reflexivity | exact Hinv].
        apply grows_replace with (i := w) (w := w0) (w' := DBWorker.terminated w0);
          [exact Hnth | reflexivity | reflexivity | reflexivity | auto]. }
      destruct o as [k|].
      * apply shutdown_inv_settle_sub; [exact Hinv2 |].
        intros _. right. exists (DBWorker.terminated w0).
        split; [| reflexivity]. cbn. exact (replace_nth_same _ _ _ Hnth).
      * now apply shutdown_inv_after_terminate.
    + injection Hstep as <-.
      assert (Hinv1 : shutdown_inv (set_tasks rest d))
        by now apply shutdown_inv_ext with (d := d).
      destruct o as [k|]; [| exact Hinv1].
      apply shutdown_inv_settle_sub; [exact Hinv1 |]. intros H; discriminate.
  - (* poll *)
    destruct (take t0 (tasks d)) as [[[e|e w r|w o|k s] rest]|]; try discriminate.
    destruct (workerShutdownComplete d) eqn:Hflag; injection Hstep as <-;
      [| exact Hinv].
    apply shutdown_inv_settle_sub; [now apply shutdown_inv_ext with (d := d) |].
    intros _. left. exact Hflag.
  - (* the last lines of [#outsource] *)
    injection Hstep as <-. now apply shutdown_inv_tail.
Qed.

Lemma shutdown_inv_create (size : nat) (b : Bound) : shutdown_inv (create size b).
Proof.
  split; [discriminate |]. intros [|k] c; discriminate.
Qed.

Lemma shutdown_inv_reachable (size : nat) (b : Bound) (d : DBDispatcher.t) :
  reachable size b d -> shutdown_inv d.
Proof.
  intros [ls Hrun]. revert Hrun. generalize (shutdown_inv_create size b).
  generalize (create size b). induction ls as [|l ls IH]; intros d0 Hinv; cbn [run].
  - intros H. now injection H as <-.
  - destruct (step l d0) as [d1|] eqn:Hstep; [| discriminate].
    apply IH. eapply shutdown_inv_step; eassumption.
Qed.

Lemma shutdown_workers_nth (k n i : nat) (ws : list DBWorker.t) (w : DBWorker.t) :
  nth_error ws i = Some w ->
  nth_error (shutdown_workers k n ws) i = Some (shutdown_worker k (n + i) w).
Proof.
  revert n i; induction ws as [|w0 ws IH]; intros n [|i]; cbn; try discriminate.
  - intros H. injection H as ->. now rewrite Nat.add_0_r.
  - intros H. rewrite (IH (S n) i H). do 2 f_equal. lia.
Qed.

(** What a call of [shutdown()] does before it waits. *)
Lemma shutdown_call (d : DBDispatcher.t) :
  let k := List.length (shutdowns d) in
  closed (shutdown d) = true
  /\ queue (shutdown d) = []
  /\ (forall e, In e (queue d) -> rejected_shutting_down e (shutdown d))
  /\ (forall i w, nth_error (workers d) i = Some w ->
                  In (if DBWorker.busy w then TPoll k i else TTerminate i (ByShutdown k))
                     (tasks (shutdown d))).
Proof.
  destruct (shutdown_frame d) as (_ & _ & _ & _ & _ & Hq & Hc & Hs & Ht & _).
  cbv zeta. split; [exact Hc |]. split; [exact Hq |]. split.
  - intros e He. unfold rejected_shutting_down. rewrite Hs. apply in_or_app. right.
    exact (in_map (fun e0 => (id (payload e0), Throw shuttingDown)) _ _ He).
  - intros i w Hnth. rewrite Ht. apply in_or_app. right.
    pose proof (@shutdown_workers_nth (List.length (shutdowns d)) 0 _ _ _ Hnth) as H.
    apply (map_nth_error snd) in H. apply nth_error_In in H.
    unfold shutdown_worker in H. now destruct (DBWorker.busy w).
Qed.

(** Once closed, [#outsource] terminates a handle only when [find] returned
    it, that is, when it is not busy. *)
Lemma outsource_terminates_idle (e : Entry) (d : DBDispatcher.t) (i : nat) :
  tasks (outsource_head e d) = (tasks d ++ [TTerminate i ByOutsource])%list ->
  closed d = true
  /\ exists w, nth_error (workers d) i = Some w
               /\ DBWorker.busy w = false /\ DBWorker.closed w = false.
Proof.
  assert (Hnot : forall (ts : list Task), ts = (ts ++ [TTerminate i ByOutsource])%list -> False).
  { intros ts H. apply (f_equal (@List.length Task)) in H.
    rewrite length_app in H. cbn in H. lia. }
  unfold outsource_head, getIdleWorker.
  destruct (find_idle (workers d) 0) as [k|] eqn:Hfind;
    [| cbn; intros H; now apply Hnot in H].
  destruct (find_idle_sound _ _ Hfind) as (_ & w & Hnth & Hidle).
  rewrite Nat.sub_0_r in Hnth. rewrite Hnth.
  destruct (closed d).
  - destruct (DBWorker.closed w) eqn:Hc; cbn.
    + rewrite (proj1 (proj2 (proj2 (proj2 (proj2 (proj2
                 (outsource_after_terminate_frame d))))))).
      intros H; now apply Hnot in H.
    + intros H. apply app_inv_head in H. injection H as ->.
      split; [reflexivity |]. now exists w.
  - unfold DBWorker.run. rewrite Hidle. cbn.
    intros H. apply app_inv_head in H. discriminate.
Qed.

Lemma resolved_slots (k : nat) (d : DBDispatcher.t) (c : ShutdownCall) :
  nth_error (shutdowns d) k = Some c ->
  shutdown_resolved k d = true ->
  forall i st, nth_error (subs c) i = Some st -> st = SubFulfilled.
Proof.
  unfold shutdown_resolved. intros -> Hall i st Hi.
  rewrite forallb_forall in Hall. specialize (Hall st (nth_error_In _ _ Hi)).
  now destruct st.
Qed.

(** What [shutdown()] does to the array [#queue] and to the handles.  The
    call closes the dispatcher, rejects every entry of [#queue]
    with "DBDispatcher shutting down", empties the queue, and starts
    [terminate()] on every handle that is not busy; the busy ones are
    terminated later by [#outsource], which only ever picks a handle that
    is not busy.  And whenever the promise of a call has resolved, the
    queue is empty, every handle has [closed = true], and the entries that
    were queued at the call have been rejected. *)
Theorem shutdown_resolved_all_closed :
  (forall d : DBDispatcher.t,
      closed (shutdown d) = true
      /\ queue (shutdown d) = []
      /\ (forall e, In e (queue d) -> rejected_shutting_down e (shutdown d))
      /\ (forall i w, nth_error (workers d) i = Some w -> DBWorker.busy w = false ->
                      In (TTerminate i (ByShutdown (List.length (shutdowns d))))
                         (tasks (shutdown d))))
  /\ (forall (e : Entry) (d : DBDispatcher.t) (i : nat),
         tasks (outsource_head e d) = (tasks d ++ [TTerminate i ByOutsource])%list ->
         closed d = true
         /\ exists w, nth_error (workers d) i = Some w /\ DBWorker.busy w = false)
  /\ (forall (size : nat) (b : Bound) (d : DBDispatcher.t) (k : nat) (c : ShutdownCall),
         reachable size b d ->
         pc d = Idle ->
         nth_error (shutdowns d) k = Some c ->
         shutdown_resolved k d = true ->
         queue d = []
         /\ all_closed d
         /\ (forall e, In e (snapshot c) -> rejected_shutting_down e d)).
Proof.
  split; [| split].
  - intros d. destruct (shutdown_call d) as (Hc & Hq & Hrej & Hterm).
    repeat split; auto.
    intros i w Hnth Hidle. specialize (Hterm i w Hnth). now rewrite Hidle in Hterm.
  - intros e d i H. destruct (outsource_terminates_idle e d i H) as (Hc & w & Hw & Hb & _).
    split; [exact Hc |]. now exists w.
  - intros size b d k c Hreach Hpc Hk Hres.
    destruct (@queue_inv_reachable _ _ _ Hreach) as (_ & Hshape & _).
    rewrite Hpc in Hshape.
    destruct (@shutdown_inv_reachable _ _ _ Hreach) as (Hflag & Hcalls).
    destruct (Hcalls k c Hk) as (Hlen & Hslots & Hsnap).
    split; [exact Hshape |]. split; [| exact Hsnap].
    intros w Hin. destruct (In_nth_error _ _ Hin) as [i Hi].
    assert (Hlt : (i < List.length (subs c))%nat).
    { rewrite Hlen. apply nth_error_Some. congruence. }
    destruct (nth_error (subs c) i) as [st|] eqn:Hst;
      [| apply nth_error_None in Hst; lia].
    pose proof (resolved_slots k d Hk Hres i Hst) as ->.
    destruct (Hslots i SubFulfilled Hst eq_refl) as [Hdone|(w' & Hw' & Hc')].
    + exact (Hflag Hdone w Hin).
    + congruence.
Qed.

Lemma shutdown_resolved_all_closed_witness :
  match run [LShutdown; LTerminated 0 true] (create 1 Infinity) with
  | Some d => queue d = [] /\ all_closed d
  | None => False
  end.
Proof.
  cbn [run step create pc].
  destruct (proj2 (proj2 shutdown_resolved_all_closed) 1%nat Infinity
              {| workers := [DBWorker.terminated DBWorker.create];
                 queue := []; nextJobId := 1; closed := true;
                 workerShutdownComplete := false; maxQueue := Infinity;
                 tasks := []; settlements := [];
                 shutdowns := [{| subs := [SubFulfilled]; snapshot := [] |}];
                 pc := Idle |}
              0%nat {| subs := [SubFulfilled]; snapshot := [] |})
    as (Hq & Hall & _); try reflexivity.
  - exists [LShutdown; LTerminated 0 true]. reflexivity.
  - split; [exact Hq | exact Hall].
Defined.

(** A busy worker and a waiting job: the worker finishes, the waiting job's
    [#outsource] finds the dispatcher closed and terminates the worker, the
    interval sees the flag, and [shutdown()] resolves.  The waiting job
    (id 2) sat in a [setImmediate], not in the queue, when [shutdown()] ran:
    it is neither run nor rejected. *)
Example shutdown_with_busy_worker :
  exists d,
    run [LSubmit (control BeginTransaction); LSubmit (control Commit); LTail;
         LShutdown;
         LMessage 0 {| msg_id := 1; msg_body := Ok VUndefined |};
         LResume 0; LTail;
         LImmediate 0;
         LTerminated 1 true;
         LPoll 0] (create 1 Infinity) = Some d
    /\ shutdown_resolved 0 d = true
    /\ map DBWorker.closed (workers d) = [true]
    /\ settlements d = [(1, Ok VUndefined)]
    /\ awaiter 2 (settlements d) = None
    /\ tasks d = [].
Proof. eexists. split; [vm_compute; reflexivity | repeat split]. Qed.

(** A busy worker and nobody waiting: after the job is done nothing calls
    [#outsource] any more, so the handle stays open and the interval never
    sees the flag. *)
Example shutdown_without_waiting_job :
  exists d,
    run [LSubmit (control BeginTransaction);
         LShutdown;
         LMessage 0 {| msg_id := 1; msg_body := Ok VUndefined |};
         LResume 0; LTail] (create 1 Infinity) = Some d
    /\ shutdown_resolved 0 d = false
    /\ map DBWorker.closed (workers d) = [false]
    /\ workerShutdownComplete d = false
    /\ tasks d = [TPoll 0 0]
    /\ step (LPoll 0) d = Some d.
Proof. eexists. split; [vm_compute; reflexivity | repeat split]. Qed.

(** The loop of [shutdown()] over [#queue] never finds an entry: where the
    application can call [shutdown()], [#queue] is empty. *)
Lemma shutdown_rejects_nobody (size : nat) (b : Bound) (d : DBDispatcher.t) :
  reachable size b d -> pc d = Idle ->
  settlements (shutdown d) = settlements d
  /\ nth_error (shutdowns (shutdown d)) (List.length (shutdowns d))
     = Some {| subs := map fst (shutdown_workers (List.length (shutdowns d)) 0 (workers d));
               snapshot := [] |}.
Proof.
  intros Hreach Hpc.
  destruct (@queue_inv_reachable _ _ _ Hreach) as (_ & Hshape & _).
  rewrite Hpc in Hshape.
  destruct (shutdown_frame d) as (_ & _ & _ & _ & _ & _ & _ & Hs & _ & Hsh).
  cbv zeta in *. rewrite Hs, Hsh, Hshape. cbn [map]. rewrite app_nil_r.
  split; [reflexivity |].
  rewrite nth_error_app2 by apply Nat.le_refl. now rewrite Nat.sub_diag.
Qed.

(** C4: a job that waits for a handle when [shutdown()] is called is not
    rejected.  In every state the dispatcher can be in when [shutdown()]
    is called, [#queue] is empty, so the loop that rejects the queued
    entries settles nobody.  With one handle: job 1 runs, job 2 waits in a
    [setImmediate] callback, [shutdown()] is called; the handle is busy, so
    the call polls; job 1 completes and is resolved; the callback of job 2
    finds the dispatcher closed, terminates the handle and returns; the
    poll sees the flag and [shutdown()] resolves, every handle closed and
    the queue empty.  Job 2 was never posted, its promise is neither
    rejected nor resolved, and nothing is left that could settle it. *)
Theorem shutdown_drops_waiting_job :
  (forall (size : nat) (b : Bound) (d : DBDispatcher.t),
      reachable size b d -> pc d = Idle ->
      settlements (shutdown d) = settlements d)
  /\ (let e1 := {| payload := {| id := 1; job := control BeginTransaction |} |} in
      let e2 := {| payload := {| id := 2; job := control Commit |} |} in
      exists d0 d,
        run [LSubmit (control BeginTransaction); LSubmit (control Commit); LTail]
          (create 1 Infinity) = Some d0
        /\ closed d0 = false
        /\ waiting d0 = [e2]
        /\ tasks (shutdown d0) = [TAwaitRun e1 0 None; TImmediate e2; TPoll 0 0]
        /\ run [LShutdown;
                LMessage 0 {| msg_id := 1; msg_body := Ok VUndefined |};
                LResume 0; LTail;
                LImmediate 0;
                LTerminated 1 true;
                LPoll 0] d0 = Some d
        /\ shutdown_resolved 0 d = true
        /\ map DBWorker.closed (workers d) = [true]
        /\ queue d = []
        /\ map DBWorker.posted (workers d) = [[payload e1]]
        /\ settlements d = [(1, Ok VUndefined)]
        /\ awaiter 2 (settlements d) = None
        /\ tasks d = []).
Proof.
  split.
  - intros size b d Hreach Hpc. exact (proj1 (shutdown_rejects_nobody Hreach Hpc)).
  - cbv zeta. do 2 eexists.
    split; [vm_compute; reflexivity |].
    split; [vm_compute; reflexivity |].
    split; [vm_compute; reflexivity |].
    split; [vm_compute; reflexivity |].
    split; [vm_compute; reflexivity |].
    repeat split.
Qed.

Lemma shutdown_drops_waiting_job_witness :
  match run [LSubmit (control BeginTransaction); LSubmit (control Commit); LTail]
          (create 1 Infinity) with
  | Some d0 => settlements (shutdown d0) = settlements d0
  | None => False
  end.
Proof.
  assert (Hrun : exists d0,
             run [LSubmit (control BeginTransaction); LSubmit (control Commit); LTail]
               (create 1 Infinity) = Some d0)
    by (eexists; vm_compute; reflexivity).
  destruct Hrun as [d0 Hrun]. rewrite Hrun.
  refine (proj1 shutdown_drops_waiting_job 1%nat Infinity d0 _ _).
  - eexists. exact Hrun.
  - assert (Hpc : option_map pc (run [LSubmit (control BeginTransaction);
                                      LSubmit (control Commit); LTail]
                                   (create 1 Infinity)) = Some Idle)
      by (vm_compute; reflexivity).
    rewrite Hrun in Hpc. cbn in Hpc. now injection Hpc.
Defined.

(* ===================================================================== *)
(** * Beyond the specification: job ids                                   *)
(* ===================================================================== *)

(** X1: the ids a dispatcher hands out are consecutive: the accepted
    [submit] calls of any run receive [nextJobId], [nextJobId + 1], … in the
    order of the calls, so no id is used twice and every id is greater than
    the ones before it. *)
Theorem ids_issued_consecutive (ls : list Label) (d : DBDispatcher.t) :
  ids_issued ls d = count_from (nextJobId d) (List.length (ids_issued ls d)).
Proof.
  revert d; induction ls as [|l ls IH]; intros d; cbn [ids_issued]; [reflexivity |].
  destruct (step l d) as [d'|] eqn:Hstep; [| reflexivity].
  assert (Hkeep : nextJobId d' = nextJobId d ->
                  ids_issued ls d'
                  = count_from (nextJobId d) (List.length (ids_issued ls d'))).
  { intros <-. apply IH. }
  destruct l as [j| | | | | | | |];
    try (apply Hkeep;
         destruct (step_nextJobId _ _ Hstep) as [H|(j0 & Hl & _)];
         [exact H | discriminate]).
  destruct (fst (submit j d)) as [err|i] eqn:E.
  - apply Hkeep. unfold step in Hstep. destruct (pc d); [| discriminate].
    injection Hstep as <-. now rewrite (submit_no_id _ _ E).
  - destruct (submit_id _ _ E) as [-> Hnext].
    unfold step in Hstep. destruct (pc d); [| discriminate].
    injection Hstep as <-. cbn [List.length count_from]. f_equal.
    rewrite <- Hnext. apply IH.
Qed.

(* ===================================================================== *)
(** * Beyond the specification: the worker handle                         *)
(* ===================================================================== *)

Lemma replace_nth_id {A : Type} (i : nat) (x : A) (l : list A) :
  nth_error l i = Some x -> replace_nth i x l = l.
Proof.
  revert i; induction l as [|y l IH]; intros [|i]; cbn; try discriminate.
  - intros H. now injection H as ->.
  - intros H. now rewrite IH.
Qed.

Lemma replace_nth_Forall {A : Type} (P : A -> Prop) (i : nat) (x : A) (l : list A) :
  Forall P l -> P x -> Forall P (replace_nth i x l).
Proof.
  intros Hl Hx. revert i; induction Hl as [|y l Hy Hl IH]; intros [|i]; cbn;
    constructor; auto.
Qed.

Lemma handle_consistent_create : handle_consistent DBWorker.create.
Proof. split; [discriminate | intros H; now contradiction H]. Qed.

Lemma handle_consistent_run (p : Payload) (w w' : DBWorker.t) :
  DBWorker.run p w = Ok w' -> handle_consistent w'.
Proof.
  unfold DBWorker.run. destruct (DBWorker.busy w); [discriminate |].
  intros H. injection H as <-. split; [discriminate | reflexivity].
Qed.

Lemma handle_consistent_on_message (msg : Message) (w : DBWorker.t) :
  handle_consistent w -> handle_consistent (fst (DBWorker.on_message msg w)).
Proof.
  intros Hw. unfold DBWorker.on_message.
  destruct (DBWorker.inflight w) as [fl|]; [| exact Hw].
  destruct (negb _); [exact Hw |].
  destruct (msg_body msg); cbn; (split; [discriminate | intros H; now contradiction H]).
Qed.

Lemma handle_consistent_on_error (err : Error) (w : DBWorker.t) :
  handle_consistent w -> handle_consistent (fst (DBWorker.on_error err w)).
Proof.
  intros Hw. unfold DBWorker.on_error.
  destruct (DBWorker.inflight w) as [fl|] eqn:E; cbn;
    (split; [discriminate | intros H; now contradiction H]).
Qed.

Lemma handle_consistent_terminated (w : DBWorker.t) :
  handle_consistent w -> handle_consistent (DBWorker.terminated w).
Proof. intros Hw. exact Hw. Qed.

Lemma handles_ok_same (size : nat) (d d' : DBDispatcher.t) :
  workers d' = workers d -> handles_ok size d -> handles_ok size d'.
Proof. unfold handles_ok. now intros ->. Qed.

Lemma handles_ok_replace (size : nat) (d d' : DBDispatcher.t) (i : nat) (w : DBWorker.t) :
  workers d' = replace_nth i w (workers d) -> handle_consistent w ->
  handles_ok size d -> handles_ok size d'.
Proof.
  unfold handles_ok. intros -> Hw [Hlen Hall]. split.
  - now rewrite replace_nth_length.
  - now apply replace_nth_Forall.
Qed.

Lemma handles_ok_head (size : nat) (e : Entry) (d : DBDispatcher.t) :
  handles_ok size d -> handles_ok size (outsource_head e d).
Proof.
  intros Hok. unfold outsource_head.
  destruct (getIdleWorker d) as [i|]; [| now apply handles_ok_same with d].
  destruct (nth_error (workers d) i) as [w|] eqn:Hnth; [| exact Hok].
  destruct (closed d).
  - destruct (negb (DBWorker.closed w)); [now apply handles_ok_same with d |].
    apply handles_ok_same with d; [| exact Hok].
    cbn. now rewrite (proj1 (outsource_after_terminate_frame d)).
  - destruct (DBWorker.run (payload e) w) as [w'|err] eqn:Hrun.
    + apply handles_ok_replace with (d := d) (i := i) (w := w');
        [reflexivity | exact (handle_consistent_run _ _ Hrun) | exact Hok].
    + destruct (String.eqb (message err) locked); now apply handles_ok_same with d.
Qed.

Lemma handles_ok_step (size : nat) (l : Label) (d d' : DBDispatcher.t) :
  handles_ok size d -> step l d = Some d' -> handles_ok size d'.
Proof.
  intros Hok Hstep.
  destruct (pc d) eqn:Hpc;
    destruct l; unfold step in Hstep; rewrite Hpc in Hstep; try discriminate.
  - injection Hstep as <-. unfold submit.
    destruct (closed d); [exact Hok |]. destruct (reaches _ _); [exact Hok |].
    cbn [snd]. apply handles_ok_head. now apply handles_ok_same with d.
  - injection Hstep as <-. apply handles_ok_same with d; [| exact Hok].
    now rewrite (proj1 (shutdown_frame d)).
  - apply worker_event_frame in Hstep.
    destruct Hstep as (_ & _ & _ & _ & _ & _ & _ & _ & w0 & Hnth & Hw & _).
    apply handles_ok_replace with (d := d) (i := w) (w := fst (DBWorker.on_message msg w0));
      [exact Hw | | exact Hok].
    apply handle_consistent_on_message.
    destruct Hok as [_ Hall]. rewrite Forall_forall in Hall.
    apply Hall. exact (nth_error_In _ _ Hnth).
  - apply worker_event_frame in Hstep.
    destruct Hstep as (_ & _ & _ & _ & _ & _ & _ & _ & w0 & Hnth & Hw & _).
    apply handles_ok_replace with (d := d) (i := w) (w := fst (DBWorker.on_error err w0));
      [exact Hw | | exact Hok].
    apply handle_consistent_on_error.
    destruct Hok as [_ Hall]. rewrite Forall_forall in Hall.
    apply Hall. exact (nth_error_In _ _ Hnth).
  - destruct (take t0 (tasks d)) as [[[e|e w [r|]|w o|k s] rest]|]; try discriminate.
    injection Hstep as <-. apply handles_ok_same with d; [| exact Hok].
    now rewrite (proj1 (outsource_resume_frame _ _ _)).
  - destruct (take t0 (tasks d)) as [[[e|e w r|w o|k s] rest]|]; try discriminate.
    injection Hstep as <-. apply handles_ok_head. now apply handles_ok_same with d.
  - destruct (take t0 (tasks d)) as [[[e|e w r|w o|k s] rest]|]; try discriminate.
    destruct ok.
    + cbn [workers set_tasks] in Hstep.
      destruct (nth_error (workers d) w) as [w0|] eqn:Hnth; [| discriminate].
      injection Hstep as <-.
      assert (Hw0 : handle_consistent w0).
      { destruct Hok as [_ Hall]. rewrite Forall_forall in Hall.
        apply Hall. exact (nth_error_In _ _ Hnth). }
      apply handles_ok_replace
        with (d := d) (i := w) (w := DBWorker.terminated w0); [| exact Hw0 | exact Hok].
      destruct o as [k|].
      * now rewrite (proj1 (settle_sub_frame _ _ _ _)).
      * now rewrite (proj1 (outsource_after_terminate_frame _)).
    + injection Hstep as <-. apply handles_ok_same with d; [| exact Hok].
      destruct o as [k|]; [| reflexivity].
      now rewrite (proj1 (settle_sub_frame _ _ _ _)).
  - destruct (take t0 (tasks d)) as [[[e|e w r|w o|k s] rest]|]; try discriminate.
    destruct (workerShutdownComplete d); injection Hstep as <-; [| exact Hok].
    apply handles_ok_same with d; [| exact Hok].
    now rewrite (proj1 (settle_sub_frame _ _ _ _)).
  - injection Hstep as <-. apply handles_ok_same with d; [| exact Hok].
    now rewrite (proj1 (outsource_tail_frame d)).
Qed.

Lemma handles_ok_create (size : nat) (b : Bound) : handles_ok size (create size b).
Proof.
  split; cbn.
  - apply repeat_length.
  - apply Forall_forall. intros w Hw. apply repeat_spec in Hw. subst w.
    apply handle_consistent_create.
Qed.

(** X2: a dispatcher keeps the handles it was built with, and in every
    state it can reach each handle is busy exactly when it holds an inflight
    job (so it never holds more than the one job it is busy with). *)
Theorem handles_fixed_and_consistent (size : nat) (b : Bound) (d : DBDispatcher.t) :
  reachable size b d ->
  List.length (workers d) = size
  /\ forall w, In w (workers d) ->
               (DBWorker.busy w = true <-> DBWorker.inflight w <> None).
Proof.
  intros [ls Hrun].
  assert (Hok : handles_ok size d).
  { revert Hrun. generalize (handles_ok_create size b). generalize (create size b).
    induction ls as [|l ls IH]; intros d0 Hok0; cbn [run].
    - intros H. now injection H as <-.
    - destruct (step l d0) as [d1|] eqn:Hstep; [| discriminate].
      apply IH. eapply handles_ok_step; eassumption. }
  destruct Hok as [Hlen Hall]. split; [exact Hlen |].
  rewrite Forall_forall in Hall. exact Hall.
Qed.

Lemma handles_fixed_and_consistent_witness :
  match run [LSubmit (control BeginTransaction)] (create 2 Infinity) with
  | Some d => List.length (workers d) = 2%nat
  | None => False
  end.
Proof.
  cbn [run step create pc].
  refine (proj1 (@handles_fixed_and_consistent 2 Infinity _ _)).
  exists [LSubmit (control BeginTransaction)]. vm_compute. reflexivity.
Defined.

Lemma set_workers_same (d : DBDispatcher.t) : set_workers (workers d) d = d.
Proof. now destruct d. Qed.

(** X3: a message that is not the awaited reply changes nothing.  If the
    handle has no inflight job, or one with another id, the message leaves
    the handle and the whole dispatcher as they are and settles no promise;
    in particular a reply delivered a second time is ignored. *)
Theorem stray_message_ignored (d : DBDispatcher.t) (i : nat) (msg : Message)
    (w : DBWorker.t) :
  (forall fl, DBWorker.inflight w = Some fl -> DBWorker.inflight_id fl <> msg_id msg) ->
  DBWorker.on_message msg w = (w, None)
  /\ (pc d = Idle -> nth_error (workers d) i = Some w ->
      step (LMessage i msg) d = Some d)
  /\ (forall w0 : DBWorker.t,
         DBWorker.on_message msg (fst (DBWorker.on_message msg w0))
         = (fst (DBWorker.on_message msg w0), None)).
Proof.
  intros Hstray.
  assert (Hw : DBWorker.on_message msg w = (w, None)).
  { unfold DBWorker.on_message. destruct (DBWorker.inflight w) as [fl|] eqn:E;
      [| reflexivity].
    specialize (Hstray fl eq_refl).
    replace (DBWorker.inflight_id fl =? msg_id msg) with false
      by (symmetry; now apply Z.eqb_neq).
    reflexivity. }
  split; [exact Hw |]. split.
  - intros Hpc Hnth. unfold step. rewrite Hpc. unfold worker_event.
    rewrite Hnth, Hw, (replace_nth_id _ _ Hnth). now rewrite set_workers_same.
  - intros w0. unfold DBWorker.on_message at 2 3.
    destruct (DBWorker.inflight w0) as [fl|] eqn:E.
    + destruct (negb (DBWorker.inflight_id fl =? msg_id msg)) eqn:Hid.
      * cbn [fst]. unfold DBWorker.on_message. now rewrite E, Hid.
      * destruct (msg_body msg); reflexivity.
    + cbn [fst]. unfold DBWorker.on_message. now rewrite E.
Qed.

Lemma stray_message_ignored_witness :
  step (LMessage 0 {| msg_id := 7; msg_body := Ok VUndefined |}) (create 1 Infinity)
  = Some (create 1 Infinity).
Proof.
  refine (proj1 (proj2 (@stray_message_ignored (create 1 Infinity) 0
                          {| msg_id := 7; msg_body := Ok VUndefined |}
                          DBWorker.create _)) eq_refl eq_refl).
  intros fl H. discriminate.
Defined.

Lemma deserializeError_id (e : Error) : DBWorker.deserializeError e = e.
Proof. now destruct e. Qed.

(** The reply to a posted payload, once delivered, frees the handle and
    settles the promise of [run] with the body of the reply. *)
Lemma reply_delivered (p : Payload) (w : DBWorker.t) (body : Result Value) :
  DBWorker.busy w = false ->
  exists w1,
    DBWorker.run p w = Ok w1
    /\ DBWorker.on_message {| msg_id := id p; msg_body := body |} w1
       = ({| DBWorker.busy := false; DBWorker.inflight := None;
             DBWorker.closed := DBWorker.closed w;
             DBWorker.posted := DBWorker.posted w ++ [p] |},
          Some body).
Proof.
  intros Hidle. unfold DBWorker.run. rewrite Hidle. eexists. split; [reflexivity |].
  unfold DBWorker.on_message. cbn. rewrite Z.eqb_refl. cbn.
  destruct body as [v|e]; [reflexivity |]. now rewrite deserializeError_id.
Qed.

(** X4: the round trip of a job between a handle and a runtime.  A payload
    given to an idle handle, handled by either runtime and answered by its
    message listener, comes back to the handle as the awaited reply: the
    handle is idle again with nothing inflight, and the promise of [run] is
    settled with exactly what [#handle] returned or threw (name and message
    of the error kept). *)
Theorem job_round_trip (sqlite : Engine) (p : Payload) (w : DBWorker.t)
    (conn : Conn) (rt : BetterRuntime.t) :
  DBWorker.busy w = false ->
  exists w1,
    DBWorker.run p w = Ok w1
    /\ DBWorker.on_message (fst (WorkerRuntime.on_message sqlite p conn)) w1
       = ({| DBWorker.busy := false; DBWorker.inflight := None;
             DBWorker.closed := DBWorker.closed w;
             DBWorker.posted := DBWorker.posted w ++ [p] |},
          Some (fst (WorkerRuntime.handle sqlite (job p) conn)))
    /\ DBWorker.on_message (fst (BetterRuntime.on_message sqlite p rt)) w1
       = ({| DBWorker.busy := false; DBWorker.inflight := None;
             DBWorker.closed := DBWorker.closed w;
             DBWorker.posted := DBWorker.posted w ++ [p] |},
          Some (fst (BetterRuntime.handle sqlite (job p) rt))).
Proof.
  intros Hidle.
  destruct (reply_delivered p w (Ok VUndefined) Hidle) as (w1 & Hrun & _).
  exists w1. split; [exact Hrun |]. split.
  - unfold WorkerRuntime.on_message.
    destruct (WorkerRuntime.handle sqlite (job p) conn) as [r conn'] eqn:E.
    cbn [fst].
    destruct (reply_delivered p w r Hidle) as (w2 & Hrun2 & Hreply).
    rewrite Hrun in Hrun2. injection Hrun2 as <-. exact Hreply.
  - unfold BetterRuntime.on_message.
    destruct (BetterRuntime.handle sqlite (job p) rt) as [r rt'] eqn:E.
    cbn [fst].
    destruct (reply_delivered p w r Hidle) as (w2 & Hrun2 & Hreply).
    rewrite Hrun in Hrun2. injection Hrun2 as <-. exact Hreply.
Qed.

Lemma job_round_trip_witness :
  exists w1,
    DBWorker.run {| id := 1; job := control Commit |} DBWorker.create = Ok w1
    /\ snd (DBWorker.on_message
              (fst (WorkerRuntime.on_message accepting
                      {| id := 1; job := control Commit |} [])) w1)
       = Some (Ok VUndefined).
Proof.
  destruct (@job_round_trip accepting {| id := 1; job := control Commit |}
              DBWorker.create [] (BetterRuntime.create accepting) eq_refl)
    as (w1 & Hrun & Hreply & _).
  exists w1. split; [exact Hrun |]. now rewrite Hreply.
Defined.

(* ===================================================================== *)
(** * Beyond the specification: from the composer to the engine           *)
(* ===================================================================== *)

Lemma split_free (s : string) : placeholder_free s -> split qmark s = [s].
Proof.
  unfold placeholder_free.
  induction s as [|a s IH]; cbn; [reflexivity |].
  destruct (Ascii.eqb a qmark); [discriminate |].
  intros H. now rewrite IH.
Qed.

Lemma split_app_free (a b : string) :
  placeholder_free a ->
  split qmark (a ++ String qmark b) = a :: split qmark b.
Proof.
  unfold placeholder_free.
  induction a as [|x a IH]; cbn.
  - intros _. reflexivity.
  - destruct (Ascii.eqb x qmark); [discriminate |].
    intros H. now rewrite IH.
Qed.

Lemma split_prefixed (x : string) (rest : list string) :
  placeholder_free x -> Forall placeholder_free rest ->
  split qmark (x ++ prefixed "?" rest) = x :: rest.
Proof.
  intros Hx Hrest. revert x Hx.
  induction Hrest as [|y rest Hy Hrest IH]; intros x Hx.
  - cbn [prefixed]. rewrite string_app_nil_r. now apply split_free.
  - cbn [prefixed].
    change ("?" ++ y ++ prefixed "?" rest) with (String qmark (y ++ prefixed "?" rest)).
    rewrite (split_app_free _ Hx). now rewrite IH.
Qed.

(** Splitting the composed statement at its "?" gives the fragments back. *)
Lemma split_interleaved (fragments : list string) :
  fragments <> [] -> Forall placeholder_free fragments ->
  split qmark (interleaved fragments) = fragments.
Proof.
  destruct fragments as [|x rest]; [intros H; now contradiction H |].
  intros _ Hfree. inversion Hfree as [|? ? Hx Hrest]; subst.
  unfold interleaved. rewrite join_cons. now apply split_prefixed.
Qed.

(** X5: the round trip from the composer to the tag store of the built-in
    driver.  For [run], [get] and [all], with [|fragments| = |values| + 1]
    and no "?" inside a fragment, the statement composed by [compile] is
    split by the runtime into the very fragments the application wrote, and
    the tag store is called once with these fragments and the values in
    their order. *)
Theorem composed_query_reaches_tag_store (sqlite : Engine) (m : Method)
    (fragments : list string) (vals : list Value) (conn : Conn) :
  is_query m = true ->
  Z.of_nat (List.length fragments) = Z.of_nat (List.length vals) + 1 ->
  Forall placeholder_free fragments ->
  exists c,
    SQLCompiler.compile (Pieces fragments) vals = Ok c
    /\ WorkerRuntime.handle sqlite
         {| method := m; job_sql := Some (sql c);
            job_values := Some (values c); steps := None |} conn
       = call sqlite (CTagged m (Some fragments) vals) conn.
Proof.
  intros Hm Hlen Hfree.
  destruct (compile_arity_ok fragments vals Hlen) as [Hc _].
  eexists. split; [exact Hc |].
  assert (Hne : fragments <> []) by (intros ->; cbn in Hlen; lia).
  cbn [sql values].
  destruct m; try discriminate; cbn [WorkerRuntime.handle WorkerRuntime.split_sql];
    now rewrite (split_interleaved Hne Hfree).
Qed.

Lemma composed_query_reaches_tag_store_witness :
  WorkerRuntime.handle accepting
    {| method := Get;
       job_sql := Some (SqlString "SELECT * FROM users WHERE id = ?");
       job_values := Some [VNum 1]; steps := None |} []
  = call accepting
      (CTagged Get (Some ["SELECT * FROM users WHERE id = "; ""]) [VNum 1]) [].
Proof.
  destruct (@composed_query_reaches_tag_store accepting Get
              ["SELECT * FROM users WHERE id = "; ""] [VNum 1] []
              eq_refl eq_refl)
    as (c & Hc & Hrun).
  - repeat constructor.
  - vm_compute in Hc. injection Hc as <-. exact Hrun.
Defined.

(* ===================================================================== *)
(** * Beyond the specification: the dispatcher                            *)
(* ===================================================================== *)

Lemma map_posted_replace (i : nat) (w w' : DBWorker.t) (ws : list DBWorker.t) :
  nth_error ws i = Some w -> DBWorker.posted w' = DBWorker.posted w ->
  map DBWorker.posted (replace_nth i w' ws) = map DBWorker.posted ws.
Proof.
  revert i; induction ws as [|w0 ws IH]; intros [|i]; cbn; try discriminate.
  - intros H Hp. injection H as ->. now rewrite Hp.
  - intros H Hp. now rewrite (IH _ H Hp).
Qed.

Lemma listener_keeps_posted (w : DBWorker.t) :
  (forall msg, DBWorker.posted (fst (DBWorker.on_message msg w)) = DBWorker.posted w)
  /\ (forall err, DBWorker.posted (fst (DBWorker.on_error err w)) = DBWorker.posted w).
Proof.
  split; intros x.
  - unfold DBWorker.on_message. destruct (DBWorker.inflight w) as [fl|]; [| reflexivity].
    destruct (negb _); [reflexivity |]. now destruct (msg_body x).
  - unfold DBWorker.on_error. now destruct (DBWorker.inflight w).
Qed.

Lemma closed_head (e : Entry) (d : DBDispatcher.t) :
  closed d = true ->
  map DBWorker.posted (workers (outsource_head e d)) = map DBWorker.posted (workers d).
Proof.
  intros Hc. unfold outsource_head.
  destruct (getIdleWorker d) as [i|]; [| reflexivity].
  destruct (nth_error (workers d) i) as [w|]; [| reflexivity].
  rewrite Hc. destruct (negb (DBWorker.closed w)); [reflexivity |].
  cbn. now rewrite (proj1 (outsource_after_terminate_frame d)).
Qed.

Lemma closed_step (l : Label) (d d' : DBDispatcher.t) :
  closed d = true -> step l d = Some d' ->
  closed d' = true
  /\ map DBWorker.posted (workers d') = map DBWorker.posted (workers d).
Proof.
  intros Hc Hstep.
  destruct (pc d) eqn:Hpc;
    destruct l; unfold step in Hstep; rewrite Hpc in Hstep; try discriminate.
  - injection Hstep as <-. unfold submit. rewrite Hc. auto.
  - injection Hstep as <-.
    destruct (shutdown_frame d) as (Hw & _ & _ & _ & _ & _ & Hcl & _).
    now rewrite Hw, Hcl.
  - apply worker_event_frame in Hstep.
    destruct Hstep as (_ & _ & Hcl & _ & _ & _ & _ & _ & w0 & Hnth & Hw & _).
    rewrite Hcl, Hw. split; [exact Hc |].
    apply map_posted_replace with (w := w0); [exact Hnth |].
    apply listener_keeps_posted.
  - apply worker_event_frame in Hstep.
    destruct Hstep as (_ & _ & Hcl & _ & _ & _ & _ & _ & w0 & Hnth & Hw & _).
    rewrite Hcl, Hw. split; [exact Hc |].
    apply map_posted_replace with (w := w0); [exact Hnth |].
    apply listener_keeps_posted.
  - destruct (take t0 (tasks d)) as [[[e|e w [r|]|w o|k s] rest]|]; try discriminate.
    injection Hstep as <-.
    destruct (outsource_resume_frame e r (set_tasks rest d)) as (Hw & _ & Hcl & _).
    now rewrite Hw, Hcl.
  - destruct (take t0 (tasks d)) as [[[e|e w r|w o|k s] rest]|]; try discriminate.
    injection Hstep as <-.
    destruct (outsource_head_frame e (set_tasks rest d)) as (_ & Hcl & _).
    rewrite Hcl. split; [exact Hc |].
    now rewrite (closed_head e (set_tasks rest d) Hc).
  - destruct (take t0 (tasks d)) as [[[e|e w r|w o|k s] rest]|]; try discriminate.
    destruct ok.
    + cbn [workers set_tasks] in Hstep.
      destruct (nth_error (workers d) w) as [w0|] eqn:Hnth; [| discriminate].
      injection Hstep as <-.
      set (d2 := set_workers (replace_nth w (DBWorker.terminated w0) (workers d))
                   (set_tasks rest d)).
      assert (Hd2 : closed d2 = true
                    /\ map DBWorker.posted (workers d2) = map DBWorker.posted (workers d)).
      { split; [exact Hc |]. cbn.
        now apply map_posted_replace with (w := w0). }
      destruct o as [k|].
      * destruct (settle_sub_frame k w SubFulfilled d2) as (Hw & _ & _ & Hcl & _).
        now rewrite Hw, Hcl.
      * destruct (outsource_after_terminate_frame d2) as (Hw & _ & _ & Hcl & _).
        now rewrite Hw, Hcl.
    + injection Hstep as <-. destruct o as [k|]; [| auto].
      destruct (settle_sub_frame k w SubRejected (set_tasks rest d))
        as (Hw & _ & _ & Hcl & _).
      now rewrite Hw, Hcl.
  - destruct (take t0 (tasks d)) as [[[e|e w r|w o|k s] rest]|]; try discriminate.
    destruct (workerShutdownComplete d); injection Hstep as <-; [| auto].
    destruct (settle_sub_frame k s SubFulfilled (set_tasks rest d))
      as (Hw & _ & _ & Hcl & _).
    now rewrite Hw, Hcl.
  - injection Hstep as <-.
    destruct (outsource_tail_frame d) as (Hw & _ & Hcl & _).
    now rewrite Hw, Hcl.
Qed.

(** X6: once [shutdown()] has been called the dispatcher stays closed, and
    whatever happens afterwards no payload is posted to any worker any
    more: jobs that were still waiting for a handle never start. *)
Theorem closed_dispatcher_posts_nothing (ls : list Label) (d d' : DBDispatcher.t) :
  closed d = true -> run ls d = Some d' ->
  closed d' = true
  /\ map DBWorker.posted (workers d') = map DBWorker.posted (workers d)
  /\ ids_issued ls d = [].
Proof.
  revert d; induction ls as [|l ls IH]; intros d Hc; cbn [run ids_issued].
  - intros H. injection H as <-. auto.
  - destruct (step l d) as [d1|] eqn:Hstep; [| discriminate].
    intros Hrun. destruct (@closed_step _ _ _ Hc Hstep) as [Hc1 Hp1].
    destruct (IH d1 Hc1 Hrun) as (Hc' & Hp' & Hids).
    split; [exact Hc' |]. split; [congruence |].
    destruct l; try exact Hids.
    unfold submit. rewrite Hc. exact Hids.
Qed.

Lemma closed_dispatcher_posts_nothing_witness :
  match run [LSubmit (control Commit); LTerminated 0 true; LSubmit (control Commit)]
          (shutdown (create 1 Infinity)) with
  | Some d' => map DBWorker.posted (workers d') = [[]]
  | None => False
  end.
Proof.
  assert (Hrun : exists d', run [LSubmit (control Commit); LTerminated 0 true;
                                  LSubmit (control Commit)]
                              (shutdown (create 1 Infinity)) = Some d')
    by (eexists; vm_compute; reflexivity).
  destruct Hrun as [d' Hrun]. rewrite Hrun.
  exact (proj1 (proj2 (@closed_dispatcher_posts_nothing _ (shutdown (create 1 Infinity))
                         d' eq_refl Hrun))).
Defined.

Lemma find_idle_before (ws : list DBWorker.t) (n i : nat) :
  find_idle ws n = Some i -> find_idle (firstn (i - n) ws) n = None.
Proof.
  revert n; induction ws as [|w0 ws IH]; intros n; cbn; [discriminate |].
  destruct (DBWorker.busy w0) eqn:Hb; cbn.
  - intros H. destruct (find_idle_sound _ _ H) as [Hle _].
    replace (i - n)%nat with (S (i - S n)) by lia.
    cbn. rewrite Hb. cbn. now apply IH.
  - intros H. injection H as <-. now rewrite Nat.sub_diag.
Qed.

(** X7: an open dispatcher with an idle handle gives a submitted job to the
    first idle handle at once: every handle before it is busy, the payload
    with the next id is posted to it and becomes its inflight job, and
    neither the queue nor any awaiter is touched.  With no idle handle the
    entry is pushed to the queue instead. *)
Theorem submit_goes_to_first_idle (j : Job) (d : DBDispatcher.t) :
  closed d = false ->
  reaches (Z.of_nat (List.length (queue d))) (maxQueue d) = false ->
  let p := {| id := nextJobId d; job := j |} in
  let d' := snd (submit j d) in
  fst (submit j d) = Awaiting (nextJobId d)
  /\ nextJobId d' = nextJobId d + 1
  /\ settlements d' = settlements d
  /\ (forall i, getIdleWorker d = Some i ->
        exists w,
          nth_error (workers d) i = Some w
          /\ DBWorker.busy w = false
          /\ find_idle (firstn i (workers d)) 0 = None
          /\ workers d'
             = replace_nth i {| DBWorker.busy := true;
                                DBWorker.inflight :=
                                  Some {| DBWorker.inflight_id := nextJobId d |};
                                DBWorker.closed := DBWorker.closed w;
                                DBWorker.posted := DBWorker.posted w ++ [p] |}
                 (workers d)
          /\ queue d' = queue d
          /\ tasks d' = (tasks d ++ [TAwaitRun {| payload := p |} i None])%list)
  /\ (getIdleWorker d = None ->
        workers d' = workers d
        /\ queue d' = (queue d ++ [{| payload := p |}])%list
        /\ pc d' = AtTail).
Proof.
  intros Hopen Hroom p d'. unfold d'. rewrite (@submit_accepted j d Hopen Hroom).
  cbn [fst snd]. fold p. split; [reflexivity |].
  set (d1 := set_nextJobId (nextJobId d + 1) d).
  destruct (outsource_head_frame {| payload := p |} d1) as (Hn & _).
  split; [exact Hn |].
  unfold outsource_head.
  change (getIdleWorker d1) with (getIdleWorker d).
  change (workers d1) with (workers d). change (closed d1) with (closed d).
  rewrite Hopen. unfold getIdleWorker.
  destruct (find_idle (workers d) 0) as [i|] eqn:Hfind.
  - destruct (find_idle_sound _ _ Hfind) as (_ & w & Hnth & Hidle).
    rewrite Nat.sub_0_r in Hnth. rewrite Hnth.
    unfold DBWorker.run. rewrite Hidle. cbn.
    split; [reflexivity |]. split; [| discriminate].
    intros i0 Hi0. injection Hi0 as <-. exists w.
    repeat split; auto.
    pose proof (find_idle_before _ _ Hfind) as Hbefore.
    now rewrite Nat.sub_0_r in Hbefore.
  - cbn. split; [reflexivity |]. split; [discriminate |]. auto.
Qed.

Lemma submit_goes_to_first_idle_witness :
  fst (submit (control BeginTransaction) (create 2 Infinity)) = Awaiting 1.
Proof.
  exact (proj1 (@submit_goes_to_first_idle (control BeginTransaction)
                  (create 2 Infinity) eq_refl eq_refl)).
Defined.

(** X8: the bound never turns a job away in practice.  In every state an
    open dispatcher can reach with [maxQueue] at least 1 (or left at
    [Infinity]), a call of [submit] is accepted and gets the next id: the
    queue is empty whenever the application can call [submit], because
    [#outsource] moves a waiting entry from the queue straight into a
    [setImmediate] callback. *)
Theorem open_dispatcher_accepts (size : nat) (b : Bound) (d : DBDispatcher.t) (j : Job) :
  at_least_one b ->
  reachable size b d ->
  pc d = Idle ->
  closed d = false ->
  queue d = []
  /\ fst (submit j d) = Awaiting (nextJobId d).
Proof.
  intros Hone Hreach Hpc Hopen.
  destruct (@queue_inv_reachable _ _ _ Hreach) as (Hmax & Hshape & _).
  rewrite Hpc in Hshape. split; [exact Hshape |].
  assert (Hroom : reaches (Z.of_nat (List.length (queue d))) (maxQueue d) = false).
  { rewrite Hshape, Hmax. destruct b as [|M]; cbn in *; [reflexivity | lia]. }
  now rewrite (@submit_accepted j d Hopen Hroom).
Qed.

Lemma open_dispatcher_accepts_witness :
  match run [LSubmit (control BeginTransaction); LSubmit (control Commit); LTail]
          (create 1 (Finite 1)) with
  | Some d => fst (submit (control Rollback) d) = Awaiting 3
  | None => False
  end.
Proof.
  assert (Hrun : exists d, run [LSubmit (control BeginTransaction);
                                LSubmit (control Commit); LTail]
                             (create 1 (Finite 1)) = Some d
                           /\ pc d = Idle /\ closed d = false /\ nextJobId d = 3)
    by (eexists; split; [vm_compute; reflexivity | repeat split]).
  destruct Hrun as (d & Hrun & Hpc & Hopen & Hnext). rewrite Hrun. rewrite <- Hnext.
  refine (proj2 (@open_dispatcher_accepts 1 (Finite 1) d (control Rollback)
                   _ _ Hpc Hopen)).
  - cbn. lia.
  - eexists. exact Hrun.
Defined.

(* ===================================================================== *)
(** * Beyond the specification: the application surface                   *)
(* ===================================================================== *)

(** X9: nesting is flat.  A transaction whose callback opens a transaction
    on the object it was given behaves exactly like the transaction with
    the inner callback: the same result or error, the same jobs submitted
    (one [beginTransaction], one [commit] or [rollback]), the same store. *)
Theorem nested_transaction_is_flat (settle : list Job -> Job -> Result Value)
    (this : DB.Ref) (fn : DB.Ref -> DB.M Value) (st : DB.Store) :
  DB.transaction settle this (fun tx => DB.transaction settle tx fn) st
  = DB.transaction settle this fn st.
Proof.
  destruct (DB.inTransaction (st this)) eqn:Hflag.
  - rewrite (@transaction_nested settle this _ st Hflag).
    reflexivity.
  - rewrite (@transaction_unfold settle this fn st Hflag).
    rewrite (@transaction_unfold settle this _ st Hflag).
    assert (Hinner : DB.transaction settle this fn (begun this st)
                     = fn this (begun this st)).
    { apply transaction_nested. now rewrite begun_this. }
    rewrite Hinner. reflexivity.
Qed.

(* ===================================================================== *)
(** * Beyond the specification: the composer on any arity                 *)
(* ===================================================================== *)

Lemma compile_loop_ext (s1 s2 : Strings) (n i : nat) (acc : string) :
  (forall k, (i < k <= i + n)%nat -> strings_at s1 k = strings_at s2 k) ->
  compile_loop s1 i n acc = compile_loop s2 i n acc.
Proof.
  revert i acc; induction n as [|n IH]; intros i acc Hsame; cbn; [reflexivity |].
  rewrite (Hsame (S i)) by lia. apply IH. intros k Hk. apply Hsame. lia.
Qed.

Lemma nth_padded (fragments : list string) (n k : nat) :
  (k <= n)%nat ->
  nth k (padded fragments n) "undefined" = nth k fragments "undefined".
Proof.
  intros Hk. unfold padded. rewrite nth_firstn.
  replace (k <? S n)%nat with true by (symmetry; apply Nat.ltb_lt; lia).
  destruct (Nat.lt_ge_cases k (List.length fragments)) as [Hlt|Hge].
  - now rewrite app_nth1.
  - rewrite app_nth2 by exact Hge. rewrite nth_repeat.
    now rewrite nth_overflow.
Qed.

Lemma padded_length (fragments : list string) (n : nat) :
  List.length (padded fragments n) = S n.
Proof.
  unfold padded. rewrite length_firstn, length_app, repeat_length. lia.
Qed.

(** X10: what [lib/SQLCompiler.js] returns whatever the arity.  Without
    values all fragments are glued together.  With [n >= 1] values the
    statement is made of exactly [n + 1] pieces joined by "?": the first
    [n + 1] fragments, surplus fragments being dropped without notice and
    missing ones read as the text "undefined"; the values are returned
    unchanged.  It never throws on an array of fragments. *)
Theorem compile_unchecked_any_arity (fragments : list string) (v : Value)
    (vals : list Value) :
  SQLCompiler.compile (Pieces fragments) []
  = Ok {| sql := SqlString (join "" fragments); values := [] |}
  /\ SQLCompiler.compile (Pieces fragments) (v :: vals)
     = Ok {| sql := SqlString (interleaved (padded fragments (List.length (v :: vals))));
             values := v :: vals |}
  /\ List.length (padded fragments (List.length (v :: vals)))
     = S (List.length (v :: vals)).
Proof.
  split; [reflexivity |]. split; [| apply padded_length].
  unfold SQLCompiler.compile. do 2 f_equal. f_equal.
  set (n := List.length (v :: vals)).
  pose proof (padded_length fragments n) as Hlen.
  destruct (padded fragments n) as [|x rest] eqn:Hpad; [discriminate |].
  assert (Hrest : List.length rest = n) by (now injection Hlen).
  rewrite <- (compile_loop_interleaves x rest), Hrest.
  assert (Hx : strings_at (Pieces fragments) 0 = x).
  { cbn [strings_at]. rewrite <- (@nth_padded fragments n 0) by lia. now rewrite Hpad. }
  rewrite Hx. apply compile_loop_ext. intros k Hk. cbn [strings_at].
  rewrite <- Hpad. symmetry. apply nth_padded. lia.
Qed.

(** X11: the copy of the composer with the arity test accepts an array of
    fragments exactly when [|fragments| = |values| + 1], and then returns
    what [lib/SQLCompiler.js] returns; every other array is refused with
    the arity error. *)
Theorem compile_checked_guards_unchecked (fragments : list string) (vals : list Value) :
  (Z.of_nat (List.length fragments) = Z.of_nat (List.length vals) + 1 ->
   SQLCompilerChecked.compile (Pieces fragments) vals
   = SQLCompiler.compile (Pieces fragments) vals)
  /\ (Z.of_nat (List.length fragments) <> Z.of_nat (List.length vals) + 1 ->
      SQLCompilerChecked.compile (Pieces fragments) vals
      = Throw (js_Error (SQLCompilerChecked.arity_message (Pieces fragments) vals)))
  /\ ((exists c, SQLCompilerChecked.compile (Pieces fragments) vals = Ok c)
      <-> Z.of_nat (List.length fragments) = Z.of_nat (List.length vals) + 1).
Proof.
  assert (Hok : Z.of_nat (List.length fragments) = Z.of_nat (List.length vals) + 1 ->
                SQLCompilerChecked.compile (Pieces fragments) vals
                = SQLCompiler.compile (Pieces fragments) vals).
  { intros Hlen. destruct (compile_arity_ok fragments vals Hlen) as [H1 H2]. congruence. }
  assert (Hbad : Z.of_nat (List.length fragments) <> Z.of_nat (List.length vals) + 1 ->
                 SQLCompilerChecked.compile (Pieces fragments) vals
                 = Throw (js_Error (SQLCompilerChecked.arity_message (Pieces fragments) vals))).
  { intros Hne. unfold SQLCompilerChecked.compile.
    replace (negb (Z.of_nat (List.length vals) =? strings_length (Pieces fragments) - 1))
      with true; [reflexivity |].
    symmetry. apply negb_true_iff, Z.eqb_neq. unfold strings_length. lia. }
  split; [exact Hok |]. split; [exact Hbad |]. split.
  - intros [c Hc].
    destruct (Z.eq_dec (Z.of_nat (List.length fragments))
                (Z.of_nat (List.length vals) + 1)) as [Heq|Hne]; [exact Heq |].
    rewrite (Hbad Hne) in Hc. discriminate.
  - intros Hlen. destruct (compile_arity_ok fragments vals Hlen) as [_ H2]. eauto.
Qed.

Lemma compile_checked_guards_unchecked_witness :
  SQLCompilerChecked.compile (Pieces ["a"; "b"; "c"]) [VNum 1]
  = Throw (js_Error (SQLCompilerChecked.arity_message (Pieces ["a"; "b"; "c"]) [VNum 1])).
Proof.
  refine (proj1 (proj2 (compile_checked_guards_unchecked ["a"; "b"; "c"] [VNum 1])) _).
  cbn. lia.
Defined.

(* ===================================================================== *)
(** * Beyond the specification: transactions inside a runtime             *)
(* ===================================================================== *)

(** Induction on jobs, through the steps of a [transaction] job. *)
Lemma job_induction (P : Job -> Prop) :
  (forall m s v, P (mkJob m s v None)) ->
  (forall m s v l, Forall P l -> P (mkJob m s v (Some l))) ->
  forall j, P j.
Proof.
  intros Hnone Hsome. fix IH 1. intros [m s v [l|]]; [| apply Hnone].
  apply Hsome. induction l as [|step l IHl]; constructor; [apply IH | exact IHl].
Qed.

(** [#runTransaction] of the built-in driver's runtime, with its loop
    written as [each_step]. *)
Lemma worker_transaction_unfold (sqlite : Engine) (s : option SqlText)
    (v : option (list Value)) (st : option (list Job)) (conn : Conn) :
  WorkerRuntime.handle sqlite (mkJob Transaction s v st) conn
  = match call sqlite begin_call conn with
    | (Throw e, conn0) => (Throw e, conn0)
    | (Ok _, conn0) =>
        match match st with
              | None => (Throw (js_TypeError "steps is not iterable"), conn0)
              | Some l => each_step (WorkerRuntime.handle sqlite) sqlite l VUndefined conn0
              end with
        | (Ok r, c) => (Ok r, c)
        | (Throw err, c) => (Throw err, snd (call sqlite rollback_call c))
        end
    end.
Proof.
  cbn [WorkerRuntime.handle]. unfold begin_call, rollback_call.
  destruct (call sqlite (CExec (Some (SqlString "BEGIN"))) conn) as [[v0|e] conn0];
    [| reflexivity].
  destruct st as [l|]; [| reflexivity].
  match goal with
  | |- (match ?f l VUndefined conn0 with _ => _ end) = _ =>
      assert (Hloop : forall result c,
                 f l result c
                 = each_step (WorkerRuntime.handle sqlite) sqlite l result c)
  end.
  { induction l as [|step l IHl]; intros result c; [reflexivity |].
    cbn [each_step]. destruct (WorkerRuntime.handle sqlite step c) as [[r|e] c'];
      [apply IHl | reflexivity]. }
  now rewrite Hloop.
Qed.

Lemma extends_refl (c : Conn) : extends c c.
Proof. exists []. now rewrite app_nil_r. Qed.

Lemma extends_trans (c1 c2 c3 : Conn) : extends c1 c2 -> extends c2 c3 -> extends c1 c3.
Proof.
  intros [a1 ->] [a2 ->]. exists (a1 ++ a2)%list. now rewrite app_assoc.
Qed.

Lemma extends_call (sqlite : Engine) (c : Call) (conn : Conn) :
  extends conn (snd (call sqlite c conn)).
Proof. now exists [c]. Qed.

Lemma extends_exec_undefined (sqlite : Engine) (text : string) (conn : Conn) :
  extends conn (snd (exec_undefined sqlite text conn)).
Proof.
  unfold exec_undefined, call. destruct (sqlite conn _); cbn; now eexists.
Qed.

Lemma each_step_extends (handle : Job -> Conn -> Result Value * Conn)
    (sqlite : Engine) (l : list Job) :
  Forall (fun j => forall c, extends c (snd (handle j c))) l ->
  forall result c, extends c (snd (each_step handle sqlite l result c)).
Proof.
  induction 1 as [|step l Hstep _ IH]; intros result c; cbn [each_step].
  - unfold call. destruct (sqlite c _); cbn; now eexists.
  - specialize (Hstep c). destruct (handle step c) as [[r|e] c']; cbn [snd] in *.
    + exact (extends_trans Hstep (IH r c')).
    + exact Hstep.
Qed.

(** A successful loop ends with [COMMIT]. *)
Lemma each_step_commits (handle : Job -> Conn -> Result Value * Conn)
    (sqlite : Engine) (l : list Job) (result x : Value) (c c' : Conn) :
  each_step handle sqlite l result c = (Ok x, c') ->
  exists before, c' = (before ++ [commit_call])%list.
Proof.
  revert result c; induction l as [|step l IH]; intros result c; cbn [each_step].
  - unfold call. destruct (sqlite c _); intros H; inversion H; subst.
    exists c. reflexivity.
  - destruct (handle step c) as [[r|e] c1]; [apply IH | discriminate].
Qed.

Lemma worker_transaction_extends (sqlite : Engine) (s : option SqlText)
    (v : option (list Value)) (st : option (list Job)) (conn : Conn) :
  (forall l, st = Some l ->
             Forall (fun j => forall c, extends c (snd (WorkerRuntime.handle sqlite j c))) l) ->
  extends conn (snd (WorkerRuntime.handle sqlite (mkJob Transaction s v st) conn)).
Proof.
  intros Hsteps. rewrite worker_transaction_unfold.
  pose proof (extends_call sqlite begin_call conn) as Hbegin.
  destruct (call sqlite begin_call conn) as [[v0|e] conn0]; cbn [snd] in *;
    [| exact Hbegin].
  destruct st as [l|].
  - pose proof (@each_step_extends _ sqlite l (Hsteps l eq_refl) VUndefined conn0) as Hloop.
    destruct (each_step (WorkerRuntime.handle sqlite) sqlite l VUndefined conn0)
      as [[r|e] c]; cbn [snd] in *.
    + exact (extends_trans Hbegin Hloop).
    + exact (extends_trans Hbegin (extends_trans Hloop (extends_call sqlite _ c))).
  - cbn [snd]. exact (extends_trans Hbegin (extends_call sqlite _ conn0)).
Qed.

(** The built-in driver's runtime only adds calls to its connection. *)
Lemma worker_handle_extends (sqlite : Engine) (j : Job) :
  forall conn, extends conn (snd (WorkerRuntime.handle sqlite j conn)).
Proof.
  assert (Hsimple : forall m s v st conn,
             m <> Transaction ->
             extends conn (snd (WorkerRuntime.handle sqlite (mkJob m s v st) conn))).
  { intros m s v st conn Hm.
    destruct m; cbn [WorkerRuntime.handle];
      try apply extends_exec_undefined; try apply extends_refl;
      try (destruct v; [apply extends_call | apply extends_refl]).
    - destruct (WorkerRuntime.split_sql s); [apply extends_call | apply extends_refl].
    - now contradiction Hm. }
  induction j as [m s v|m s v l IHl] using job_induction; intros conn.
  - destruct m; try (apply Hsimple; discriminate).
    apply worker_transaction_extends. discriminate.
  - destruct m; try (apply Hsimple; discriminate).
    apply worker_transaction_extends. intros l0 H. now injection H as <-.
Qed.

(** X12: a [transaction] job on the built-in driver's runtime is bracketed.
    The first call it makes is [BEGIN]; if that fails nothing else is
    called and the failure is the reply.  Otherwise a successful reply
    means that the last call on the connection was [COMMIT], and a failed
    one that it was [ROLLBACK] (also when it is the [COMMIT] that failed),
    the error being the one of the step or of the [COMMIT], never the one
    of the [ROLLBACK]. *)
Theorem worker_transaction_bracketed (sqlite : Engine) (s : option SqlText)
    (v : option (list Value)) (st : option (list Job)) (conn : Conn) :
  let r := fst (WorkerRuntime.handle sqlite (mkJob Transaction s v st) conn) in
  let conn' := snd (WorkerRuntime.handle sqlite (mkJob Transaction s v st) conn) in
  (exists later, conn' = (conn ++ begin_call :: later)%list)
  /\ (forall e, sqlite conn begin_call = Throw e ->
                r = Throw e /\ conn' = (conn ++ [begin_call])%list)
  /\ (forall v0, sqlite conn begin_call = Ok v0 ->
        (forall x, r = Ok x -> last conn' begin_call = commit_call)
        /\ (forall e, r = Throw e -> last conn' begin_call = rollback_call)).
Proof.
  cbv zeta. rewrite worker_transaction_unfold.
  unfold call. destruct (sqlite conn begin_call) as [v0|e0] eqn:Hbegin.
  - destruct st as [l|].
    + match goal with
      | |- context [each_step ?h ?s ?l0 ?r0 ?c0] =>
          assert (Hext : extends c0 (snd (each_step h s l0 r0 c0)))
            by (apply each_step_extends; apply Forall_forall; intros j _;
                apply worker_handle_extends);
          destruct (each_step h s l0 r0 c0) as [[x|e] c] eqn:Hloop
      end; cbn [fst snd] in *.
      * split.
        -- destruct Hext as [added ->]. exists added. now rewrite <- app_assoc.
        -- split; [discriminate |]. intros _ _. split; [| discriminate].
           intros _ _. destruct (each_step_commits _ _ _ _ _ Hloop) as [before ->].
           apply last_last.
      * split.
        -- destruct Hext as [added ->]. exists (added ++ [rollback_call])%list.
           now rewrite <- !app_assoc.
        -- split; [discriminate |]. intros _ _. split; [discriminate |].
           intros _ _. apply last_last.
    + cbn [fst snd]. split.
      * exists [rollback_call]. now rewrite <- app_assoc.
      * split; [discriminate |]. intros _ _. split; [discriminate |].
        intros _ _. apply last_last.
  - cbn [fst snd]. split; [now exists [] |]. split.
    + intros e H. injection H as <-. auto.
    + discriminate.
Qed.

Lemma worker_transaction_bracketed_witness :
  last (snd (WorkerRuntime.handle accepting
               (mkJob Transaction None None (Some [control Commit])) []))
       begin_call
  = commit_call.
Proof.
  refine (proj1 (proj2 (proj2 (@worker_transaction_bracketed accepting None None
                                 (Some [control Commit]) [])) VUndefined eq_refl)
            VUndefined eq_refl).
Defined.

(* ===================================================================== *)
(** * Beyond the specification: the statement cache                       *)
(* ===================================================================== *)

Lemma better_transaction_unfold (sqlite : Engine) (s : option SqlText)
    (v : option (list Value)) (st : option (list Job)) (rt : BetterRuntime.t) :
  BetterRuntime.handle sqlite (mkJob Transaction s v st) rt
  = match BetterRuntime.on_conn (call sqlite begin_call) rt with
    | (Throw e, rt0) => (Throw e, rt0)
    | (Ok _, rt0) =>
        match match st with
              | None => (Throw (js_TypeError "steps is not iterable"), rt0)
              | Some l => better_each (BetterRuntime.handle sqlite) sqlite l VUndefined rt0
              end with
        | (Ok r, r1) => (Ok r, r1)
        | (Throw err, r1) =>
            (Throw err, snd (BetterRuntime.on_conn (call sqlite rollback_call) r1))
        end
    end.
Proof.
  cbn [BetterRuntime.handle]. unfold begin_call, rollback_call.
  destruct (BetterRuntime.on_conn (call sqlite (CExec (Some (SqlString "BEGIN")))) rt)
    as [[v0|e] rt0]; [| reflexivity].
  destruct st as [l|]; [| reflexivity].
  match goal with
  | |- (match ?f l VUndefined rt0 with _ => _ end) = _ =>
      assert (Hloop : forall result r0,
                 f l result r0
                 = better_each (BetterRuntime.handle sqlite) sqlite l result r0)
  end.
  { induction l as [|step l IHl]; intros result r0; [reflexivity |].
    cbn [better_each]. destruct (BetterRuntime.handle sqlite step r0) as [[r|e] r1];
      [apply IHl | reflexivity]. }
  now rewrite Hloop.
Qed.

Lemma prepared_count_app (text : string) (c1 c2 : Conn) :
  prepared_count text (c1 ++ c2)%list
  = (prepared_count text c1 + prepared_count text c2)%nat.
Proof.
  unfold prepared_count. now rewrite filter_app, length_app.
Qed.

Lemma prepared_count_other (text : string) (c : Conn) (x : Call) :
  prepares text x = false ->
  prepared_count text (c ++ [x])%list = prepared_count text c.
Proof.
  intros Hx. rewrite prepared_count_app. unfold prepared_count at 2.
  cbn [filter]. rewrite Hx. cbn. lia.
Qed.

Lemma keeps_cached_refl (text : string) (rt : BetterRuntime.t) :
  In text (BetterRuntime.statements rt) -> keeps_cached text rt rt.
Proof. intros H. now split. Qed.

Lemma keeps_cached_trans (text : string) (r1 r2 r3 : BetterRuntime.t) :
  keeps_cached text r1 r2 -> keeps_cached text r2 r3 -> keeps_cached text r1 r3.
Proof. intros [_ H1] [H2 H3]. split; [exact H2 | congruence]. Qed.

(** A call that is not a [prepare] of the text keeps it cached. *)
Lemma keeps_cached_on_conn (sqlite : Engine) (text : string) (c : Call)
    (rt : BetterRuntime.t) :
  prepares text c = false ->
  In text (BetterRuntime.statements rt) ->
  keeps_cached text rt (snd (BetterRuntime.on_conn (call sqlite c) rt)).
Proof.
  intros Hc Hin. unfold BetterRuntime.on_conn, call.
  cbn [snd BetterRuntime.db BetterRuntime.statements]. split; [exact Hin |].
  cbn [BetterRuntime.db]. now apply prepared_count_other.
Qed.

Lemma keeps_cached_exec_undefined (sqlite : Engine) (text sql0 : string)
    (rt : BetterRuntime.t) :
  In text (BetterRuntime.statements rt) ->
  keeps_cached text rt (snd (BetterRuntime.on_conn (exec_undefined sqlite sql0) rt)).
Proof.
  intros Hin. unfold BetterRuntime.on_conn, exec_undefined, call.
  destruct (sqlite (BetterRuntime.db rt) _);
    cbn [snd BetterRuntime.db BetterRuntime.statements];
    (split; [exact Hin |]); cbn [BetterRuntime.db];
    now apply prepared_count_other.
Qed.

Lemma existsb_cached (text : string) (l : list string) :
  In text l -> existsb (String.eqb text) l = true.
Proof.
  intros Hin. apply existsb_exists. exists text. split; [exact Hin |].
  apply String.eqb_refl.
Qed.

Lemma keeps_cached_getStatement (sqlite : Engine) (text : string)
    (s : option SqlText) (rt : BetterRuntime.t) :
  In text (BetterRuntime.statements rt) ->
  keeps_cached text rt (snd (BetterRuntime.getStatement sqlite s rt)).
Proof.
  intros Hin. unfold BetterRuntime.getStatement.
  destruct (match s with
            | Some (SqlString x) => existsb (String.eqb x) (BetterRuntime.statements rt)
            | _ => false
            end) eqn:Hcached; [now apply keeps_cached_refl |].
  assert (Hnot : prepares text (CPrepare s) = false).
  { destruct s as [[x|l]|]; cbn; try reflexivity.
    destruct (String.eqb x text) eqn:E; [| reflexivity].
    apply String.eqb_eq in E. subst x. now rewrite (existsb_cached _ _ Hin) in Hcached. }
  unfold call. destruct (sqlite (BetterRuntime.db rt) (CPrepare s));
    cbn [snd BetterRuntime.db BetterRuntime.statements].
  - split.
    + destruct s as [[x|l]|]; cbn; auto.
    + cbn [BetterRuntime.db]. now apply prepared_count_other.
  - split; [exact Hin |]. cbn [BetterRuntime.db]. now apply prepared_count_other.
Qed.

Lemma better_each_keeps (sqlite : Engine) (text : string) (l : list Job) :
  Forall (fun j => forall rt, In text (BetterRuntime.statements rt) ->
                              keeps_cached text rt (snd (BetterRuntime.handle sqlite j rt))) l ->
  forall result rt, In text (BetterRuntime.statements rt) ->
    keeps_cached text rt
      (snd (better_each (BetterRuntime.handle sqlite) sqlite l result rt)).
Proof.
  induction 1 as [|step l Hstep _ IH]; intros result rt Hin; cbn [better_each].
  - pose proof (@keeps_cached_on_conn sqlite text commit_call rt eq_refl Hin) as H.
    destruct (BetterRuntime.on_conn (call sqlite commit_call) rt) as [[v|e] r1];
      exact H.
  - specialize (Hstep rt Hin).
    destruct (BetterRuntime.handle sqlite step rt) as [[r|e] r1]; cbn [snd] in *;
      [| exact Hstep].
    exact (keeps_cached_trans Hstep (IH r r1 (proj1 Hstep))).
Qed.

Lemma better_handle_keeps (sqlite : Engine) (text : string) (j : Job) :
  forall rt, In text (BetterRuntime.statements rt) ->
             keeps_cached text rt (snd (BetterRuntime.handle sqlite j rt)).
Proof.
  assert (Hsimple : forall m s v st rt,
             m <> Transaction ->
             In text (BetterRuntime.statements rt) ->
             keeps_cached text rt (snd (BetterRuntime.handle sqlite (mkJob m s v st) rt))).
  { intros m s v st rt Hm Hin.
    assert (Hquery : forall m0,
               keeps_cached text rt
                 (snd match BetterRuntime.getStatement sqlite s rt with
                      | (Throw e, rt') => (Throw e, rt')
                      | (Ok _, rt') =>
                          BetterRuntime.on_conn
                            (call sqlite
                               (CStatement m0 s match v with Some l => l | None => [] end))
                            rt'
                      end)).
    { intros m0. pose proof (@keeps_cached_getStatement sqlite text s rt Hin) as Hget.
      destruct (BetterRuntime.getStatement sqlite s rt) as [[u|e] rt'];
        cbn [snd] in *; [| exact Hget].
      refine (keeps_cached_trans Hget _).
      apply keeps_cached_on_conn; [reflexivity | exact (proj1 Hget)]. }
    destruct m; cbn [BetterRuntime.handle].
    - pose proof (@keeps_cached_on_conn sqlite text (CExec s) rt eq_refl Hin) as H.
      destruct (BetterRuntime.on_conn (call sqlite (CExec s)) rt) as [[u|e] rt'];
        exact H.
    - apply Hquery.
    - apply Hquery.
    - apply Hquery.
    - now apply keeps_cached_exec_undefined.
    - now apply keeps_cached_exec_undefined.
    - now apply keeps_cached_exec_undefined.
    - now contradiction Hm.
    - pose proof (@keeps_cached_getStatement sqlite text s rt Hin) as Hget.
      destruct (BetterRuntime.getStatement sqlite s rt) as [[u|e] rt'];
        exact Hget. }
  assert (Htx : forall s v st rt,
             (forall l, st = Some l ->
                Forall (fun j => forall rt, In text (BetterRuntime.statements rt) ->
                          keeps_cached text rt (snd (BetterRuntime.handle sqlite j rt))) l) ->
             In text (BetterRuntime.statements rt) ->
             keeps_cached text rt
               (snd (BetterRuntime.handle sqlite (mkJob Transaction s v st) rt))).
  { intros s v st rt Hsteps Hin. rewrite better_transaction_unfold.
    pose proof (@keeps_cached_on_conn sqlite text begin_call rt eq_refl Hin) as Hbegin.
    destruct (BetterRuntime.on_conn (call sqlite begin_call) rt) as [[v0|e] rt0];
      cbn [snd] in *; [| exact Hbegin].
    destruct st as [l|].
    - pose proof (@better_each_keeps sqlite text l (Hsteps l eq_refl) VUndefined rt0
                    (proj1 Hbegin)) as Hloop.
      destruct (better_each (BetterRuntime.handle sqlite) sqlite l VUndefined rt0)
        as [[r|e] r1]; cbn [snd] in *.
      + exact (keeps_cached_trans Hbegin Hloop).
      + refine (keeps_cached_trans Hbegin (keeps_cached_trans Hloop _)).
        apply keeps_cached_on_conn; [reflexivity | exact (proj1 Hloop)].
    - cbn [snd]. refine (keeps_cached_trans Hbegin _).
      apply keeps_cached_on_conn; [reflexivity | exact (proj1 Hbegin)]. }
  induction j as [m s v|m s v l IHl] using job_induction; intros rt Hin.
  - destruct m; try (apply Hsimple; [discriminate | exact Hin]).
    apply Htx; [discriminate | exact Hin].
  - destruct m; try (apply Hsimple; [discriminate | exact Hin]).
    apply Htx; [| exact Hin]. intros l0 H. now injection H as <-.
Qed.

(** X13: the statement cache of the native binding's runtime.  A [run],
    [get] or [all] job that succeeds leaves its statement text in the cache;
    and once a text is in the cache, no job whatsoever (a [transaction] with
    nested steps included) removes it or hands it to [db.prepare] again: a
    statement is prepared at most once successfully. *)
Theorem statement_prepared_once (sqlite : Engine) (text : string) :
  (forall m vals st rt v rt',
      is_query m = true ->
      BetterRuntime.handle sqlite (mkJob m (Some (SqlString text)) vals st) rt = (Ok v, rt') ->
      In text (BetterRuntime.statements rt'))
  /\ (forall j rt,
         In text (BetterRuntime.statements rt) ->
         In text (BetterRuntime.statements (snd (BetterRuntime.handle sqlite j rt)))
         /\ prepared_count text (BetterRuntime.db (snd (BetterRuntime.handle sqlite j rt)))
            = prepared_count text (BetterRuntime.db rt)).
Proof.
  split.
  - intros m vals st rt v rt' Hm Hrun.
    assert (Hget : forall rt1,
               BetterRuntime.getStatement sqlite (Some (SqlString text)) rt = (Ok tt, rt1) ->
               In text (BetterRuntime.statements rt1)).
    { unfold BetterRuntime.getStatement.
      destruct (existsb (String.eqb text) (BetterRuntime.statements rt)) eqn:Hc.
      - intros rt1 H. injection H as <-.
        apply existsb_exists in Hc. destruct Hc as (x & Hx & Heq).
        apply String.eqb_eq in Heq. now subst x.
      - unfold call. destruct (sqlite _ _); intros rt1 H; [| discriminate].
        injection H as <-. cbn. now left. }
    destruct m; try discriminate; cbn [BetterRuntime.handle] in Hrun;
      destruct (BetterRuntime.getStatement sqlite (Some (SqlString text)) rt)
        as [[[]|e] rt1] eqn:Eget; try discriminate;
      specialize (Hget rt1 eq_refl);
      unfold BetterRuntime.on_conn in Hrun;
      destruct (call sqlite _ (BetterRuntime.db rt1)) as [r c];
      injection Hrun as _ <-; exact Hget.
  - intros j rt Hin. exact (@better_handle_keeps sqlite text j rt Hin).
Qed.

Lemma statement_prepared_once_witness :
  let select := mkJob Get (Some (SqlString "SELECT 1")) (Some []) None in
  let rt1 := snd (BetterRuntime.handle accepting select (BetterRuntime.create accepting)) in
  prepared_count "SELECT 1" (BetterRuntime.db (snd (BetterRuntime.handle accepting select rt1)))
  = prepared_count "SELECT 1" (BetterRuntime.db rt1).
Proof.
  intros select rt1.
  refine (proj2 (proj2 (statement_prepared_once accepting "SELECT 1") select rt1 _)).
  refine (proj1 (statement_prepared_once accepting "SELECT 1") Get (Some []) None
            (BetterRuntime.create accepting) VUndefined rt1 eq_refl _).
  vm_compute. reflexivity.
Defined.

(* ===================================================================== *)
(** * Beyond the specification: the accepted drivers                      *)
(* ===================================================================== *)

Lemma replace_first_unfold (pat rep s : string) :
  replace_first pat rep s
  = if String.prefix pat s
    then rep ++ String.substring (String.length pat)
                  (String.length s - String.length pat) s
    else match s with
         | EmptyString => ""
         | String a rest => String a (replace_first pat rep rest)
         end.
Proof. destruct s; reflexivity. Qed.

Lemma substring_all (s : string) : String.substring 0 (String.length s) s = s.
Proof.
  induction s as [|a s IH]; cbn; [reflexivity | now rewrite IH].
Qed.

Lemma prefix_decompose (p d : string) :
  String.prefix p d = true ->
  d = p ++ String.substring (String.length p) (String.length d - String.length p) d.
Proof.
  revert d; induction p as [|a p IH]; intros d.
  - intros _. cbn [String.length append]. rewrite Nat.sub_0_r.
    now rewrite substring_all.
  - destruct d as [|b d]; cbn [String.prefix]; [discriminate |].
    destruct (ascii_dec a b) as [<-|]; [| discriminate].
    intros H. cbn [String.length append String.substring Nat.sub].
    f_equal. now apply IH.
Qed.

(** One character of the normalised driver name: either "sqlite3" starts
    here, or the character is copied. *)
Ltac peel H :=
  rewrite replace_first_unfold in H;
  match type of H with
  | (if String.prefix ?p ?d then _ else _) = _ =>
      let P := fresh "P" in
      destruct (String.prefix p d) eqn:P;
      [ cbn [append] in H
      | destruct d as [|? d]; [| injection H as ? H; subst ] ]
  end.

Ltac found H :=
  repeat injection H as H;
  match goal with
  | P : String.prefix _ _ = true |- _ =>
      apply prefix_decompose in P; cbn [String.length] in P;
      rewrite H in P; subst; right; reflexivity
  end.

Lemma normalised_node (d : string) :
  replace_first "sqlite3" "sqlite" d = "node:sqlite" ->
  d = "node:sqlite" \/ d = "node:sqlite3".
Proof.
  intros H.
  do 5 (peel H; [discriminate H | discriminate H |]).
  peel H; [found H | discriminate H |].
  do 5 (peel H; [discriminate H | discriminate H |]).
  rewrite replace_first_unfold in H.
  destruct (String.prefix "sqlite3" d); [discriminate H |].
  destruct d; [now left | discriminate H].
Qed.

Lemma normalised_better (d : string) :
  replace_first "sqlite3" "sqlite" d = "better-sqlite" ->
  d = "better-sqlite" \/ d = "better-sqlite3".
Proof.
  intros H.
  do 7 (peel H; [discriminate H | discriminate H |]).
  peel H; [found H | discriminate H |].
  do 5 (peel H; [discriminate H | discriminate H |]).
  rewrite replace_first_unfold in H.
  destruct (String.prefix "sqlite3" d); [discriminate H |].
  destruct d; [now left | discriminate H].
Qed.

(** X14: the drivers the constructor accepts.  The native binding's worker
    script is chosen exactly for "better-sqlite" and "better-sqlite3", the
    built-in driver's exactly for "node:sqlite" and "node:sqlite3"; every
    other driver string makes the constructor throw, and so does [null]. *)
Theorem accepted_drivers (d : string) :
  (DB.getWorkerPath (Given d) = Ok DB.better_worker
   <-> d = "better-sqlite" \/ d = "better-sqlite3")
  /\ (DB.getWorkerPath (Given d) = Ok DB.db_worker
      <-> d = "node:sqlite" \/ d = "node:sqlite3")
  /\ ((exists e, DB.getWorkerPath (Given d) = Throw e)
      <-> ~ (d = "better-sqlite" \/ d = "better-sqlite3"
             \/ d = "node:sqlite" \/ d = "node:sqlite3"))
  /\ (exists e, DB.getWorkerPath Null = Throw e).
Proof.
  assert (Hb : DB.getWorkerPath (Given d) = Ok DB.better_worker
               <-> d = "better-sqlite" \/ d = "better-sqlite3").
  { split.
    - unfold DB.getWorkerPath.
      destruct (String.eqb (replace_first "sqlite3" "sqlite" d) "better-sqlite") eqn:E.
      + intros _. apply String.eqb_eq in E. now apply normalised_better.
      + destruct (String.eqb _ "node:sqlite"); discriminate.
    - intros [->| ->]; vm_compute; reflexivity. }
  assert (Hn : DB.getWorkerPath (Given d) = Ok DB.db_worker
               <-> d = "node:sqlite" \/ d = "node:sqlite3").
  { split.
    - unfold DB.getWorkerPath.
      destruct (String.eqb (replace_first "sqlite3" "sqlite" d) "better-sqlite") eqn:E;
        [discriminate |].
      destruct (String.eqb (replace_first "sqlite3" "sqlite" d) "node:sqlite") eqn:E';
        [| discriminate].
      intros _. apply String.eqb_eq in E'. now apply normalised_node.
    - intros [->| ->]; vm_compute; reflexivity. }
  split; [exact Hb |]. split; [exact Hn |]. split.
  - split.
    + intros [e He] [H|[H|[H|H]]].
      * assert (Hok : DB.getWorkerPath (Given d) = Ok DB.better_worker)
          by (apply Hb; auto). congruence.
      * assert (Hok : DB.getWorkerPath (Given d) = Ok DB.better_worker)
          by (apply Hb; auto). congruence.
      * assert (Hok : DB.getWorkerPath (Given d) = Ok DB.db_worker)
          by (apply Hn; auto). congruence.
      * assert (Hok : DB.getWorkerPath (Given d) = Ok DB.db_worker)
          by (apply Hn; auto). congruence.
    + intros Hnot. destruct (DB.getWorkerPath (Given d)) as [[|]|e] eqn:E.
      * pose proof (proj1 Hb eq_refl). contradiction Hnot. tauto.
      * pose proof (proj1 Hn eq_refl). contradiction Hnot. tauto.
      * now exists e.
  - eexists. reflexivity.
Qed.

(* ===================================================================== *)
(** * Beyond the specification: every awaiter is settled at most once     *)
(* ===================================================================== *)

Lemma sub_perm_refl (l : list Z) : sub_perm l l.
Proof. now exists []. Qed.

Lemma sub_perm_perm (l' l : list Z) : Permutation l l' -> sub_perm l' l.
Proof. intros H. now exists []. Qed.

Lemma sub_perm_drop (x : Z) (l : list Z) : sub_perm l (x :: l).
Proof. now exists [x]. Qed.

Lemma sub_perm_trans (l1 l2 l3 : list Z) :
  sub_perm l1 l2 -> sub_perm l2 l3 -> sub_perm l1 l3.
Proof.
  intros [d1 H1] [d2 H2]. exists (d2 ++ d1)%list.
  rewrite H2, <- app_assoc. now apply Permutation_app_head.
Qed.

Lemma sub_perm_NoDup (l' l : list Z) : sub_perm l' l -> NoDup l -> NoDup l'.
Proof.
  intros [dropped H] Hl. apply (Permutation_NoDup H) in Hl.
  now apply NoDup_app_remove_l in Hl.
Qed.

Lemma sub_perm_Forall (P : Z -> Prop) (l' l : list Z) :
  sub_perm l' l -> Forall P l -> Forall P l'.
Proof.
  intros [dropped H] Hl. rewrite Forall_forall in *. intros x Hx.
  apply Hl. apply (Permutation_in x (Permutation_sym H)).
  apply in_or_app. now right.
Qed.

Lemma perm_queue (x : Z) (a b c : list Z) :
  Permutation (x :: a ++ b ++ c) ((a ++ [x]) ++ b ++ c).
Proof. rewrite <- app_assoc. cbn. apply Permutation_middle. Qed.

Lemma perm_tasks (x : Z) (a b c : list Z) :
  Permutation (x :: a ++ b ++ c) (a ++ (b ++ [x]) ++ c).
Proof.
  rewrite <- (app_assoc b [x] c). cbn [app].
  rewrite (app_assoc a b (x :: c)), (app_assoc a b c). apply Permutation_middle.
Qed.

Lemma perm_settled (x : Z) (a b c : list Z) :
  Permutation (x :: a ++ b ++ c) (a ++ b ++ c ++ [x]).
Proof.
  rewrite !app_assoc. apply Permutation_cons_append.
Qed.

Lemma flat_map_ids_snoc (ts : list Task) (t0 : Task) :
  flat_map ids_of_task (ts ++ [t0]) = (flat_map ids_of_task ts ++ ids_of_task t0)%list.
Proof. rewrite flat_map_app. cbn. now rewrite app_nil_r. Qed.

Lemma take_ids (n : nat) (ts rest : list Task) (t0 : Task) :
  take n ts = Some (t0, rest) ->
  Permutation (flat_map ids_of_task ts) (ids_of_task t0 ++ flat_map ids_of_task rest).
Proof.
  revert n rest; induction ts as [|t1 ts IH]; intros [|n] rest; cbn; try discriminate.
  - intros H. injection H as -> ->. reflexivity.
  - destruct (take n ts) as [[y rest']|] eqn:E; [| discriminate].
    intros H. injection H as -> <-. cbn [flat_map].
    rewrite (IH _ _ E). rewrite !app_assoc.
    apply Permutation_app_tail. apply Permutation_app_comm.
Qed.

Lemma settle_run_ids (w : nat) (r : Result Value) (ts : list Task) :
  flat_map ids_of_task (settle_run w r ts) = flat_map ids_of_task ts.
Proof.
  induction ts as [|t0 ts IH]; [reflexivity |].
  destruct t0 as [e|e w0 [r0|]|w0 o|k s]; cbn [settle_run flat_map]; rewrite ?IH;
    try reflexivity.
  destruct (Nat.eqb w0 w); cbn [flat_map]; [reflexivity | now rewrite IH].
Qed.

Lemma shutdown_workers_ids (k n : nat) (ws : list DBWorker.t) :
  flat_map ids_of_task (map snd (shutdown_workers k n ws)) = [].
Proof.
  revert n; induction ws as [|w ws IH]; intros n; cbn; [reflexivity |].
  rewrite IH. unfold shutdown_worker. now destruct (negb (DBWorker.busy w)).
Qed.

(** [#outsource] keeps its entry in one place at most. *)
Lemma known_head (e : Entry) (d : DBDispatcher.t) :
  sub_perm (known_ids (outsource_head e d)) (entry_id e :: known_ids d).
Proof.
  unfold outsource_head.
  destruct (getIdleWorker d) as [i|].
  2:{ apply sub_perm_perm. unfold known_ids. cbn. rewrite map_app. apply perm_queue. }
  destruct (nth_error (workers d) i) as [w|]; [| apply sub_perm_drop].
  destruct (closed d).
  - destruct (negb (DBWorker.closed w)).
    + unfold known_ids. cbn. rewrite flat_map_ids_snoc. cbn. rewrite app_nil_r.
      apply sub_perm_drop.
    + unfold known_ids. cbn.
      destruct (outsource_after_terminate_frame d)
        as (_ & Hq & _ & _ & _ & Ht & Hs & _).
      rewrite Hq, Ht, Hs. apply sub_perm_drop.
  - destruct (DBWorker.run (payload e) w) as [w'|err].
    + apply sub_perm_perm. unfold known_ids. cbn. rewrite flat_map_ids_snoc.
      apply perm_tasks.
    + destruct (String.eqb (message err) locked).
      * apply sub_perm_refl.
      * apply sub_perm_perm. unfold known_ids. cbn. rewrite map_app.
        apply perm_settled.
Qed.

Lemma known_resume (e : Entry) (r : Result Value) (d : DBDispatcher.t) :
  Permutation (entry_id e :: known_ids d) (known_ids (outsource_resume e r d)).
Proof.
  unfold outsource_resume. destruct r as [v|err].
  - unfold known_ids. cbn. rewrite map_app. apply perm_settled.
  - destruct (String.eqb (message err) locked).
    + reflexivity.
    + unfold known_ids. cbn. rewrite map_app. apply perm_settled.
Qed.

Lemma known_tail (d : DBDispatcher.t) :
  Permutation (known_ids d) (known_ids (outsource_tail d)).
Proof.
  unfold outsource_tail. destruct (queue d) as [|e q] eqn:Hq.
  - unfold known_ids. cbn. now rewrite Hq.
  - unfold known_ids. cbn. rewrite Hq, flat_map_ids_snoc. cbn.
    apply (perm_tasks (entry_id e) (map entry_id q)).
Qed.

Lemma known_shutdown (d : DBDispatcher.t) :
  Permutation (known_ids d) (known_ids (shutdown d)).
Proof.
  destruct (shutdown_frame d) as (_ & _ & _ & _ & _ & Hq & _ & Hs & Ht & _).
  unfold known_ids. rewrite Hq, Hs, Ht. cbn [map app].
  rewrite flat_map_app, shutdown_workers_ids, app_nil_r, map_app, map_map.
  cbn [fst]. fold entry_id.
  change (map (fun x : Entry => entry_id x) (queue d)) with (map entry_id (queue d)).
  rewrite (Permutation_app_comm (map entry_id (queue d))).
  rewrite <- app_assoc. apply Permutation_app_head. apply Permutation_app_head.
  reflexivity.
Qed.

Lemma known_take (n : nat) (d : DBDispatcher.t) (t0 : Task) (rest : list Task) :
  take n (tasks d) = Some (t0, rest) ->
  Permutation (known_ids d) (ids_of_task t0 ++ known_ids (set_tasks rest d)).
Proof.
  intros Ht. unfold known_ids. cbn [queue tasks settlements set_tasks].
  rewrite (take_ids _ _ Ht).
  rewrite <- app_assoc.
  rewrite (app_assoc (map entry_id (queue d))), (app_assoc (ids_of_task t0)).
  rewrite (Permutation_app_comm (map entry_id (queue d)) (ids_of_task t0)).
  now rewrite <- !app_assoc.
Qed.

Lemma ids_inv_sub (d d' : DBDispatcher.t) :
  nextJobId d' = nextJobId d ->
  sub_perm (known_ids d') (known_ids d) ->
  ids_inv d -> ids_inv d'.
Proof.
  intros Hn Hsub [Hnodup Hbound]. split.
  - exact (@sub_perm_NoDup _ _ Hsub Hnodup).
  - rewrite Hn. exact (@sub_perm_Forall _ _ _ Hsub Hbound).
Qed.

Lemma ids_inv_same (d d' : DBDispatcher.t) :
  nextJobId d' = nextJobId d ->
  queue d' = queue d ->
  flat_map ids_of_task (tasks d') = flat_map ids_of_task (tasks d) ->
  settlements d' = settlements d ->
  ids_inv d -> ids_inv d'.
Proof.
  intros Hn Hq Ht Hs. apply ids_inv_sub; [exact Hn |].
  unfold known_ids. rewrite Hq, Ht, Hs. apply sub_perm_refl.
Qed.

Lemma ids_inv_step (l : Label) (d d' : DBDispatcher.t) :
  ids_inv d -> step l d = Some d' -> ids_inv d'.
Proof.
  intros Hinv Hstep.
  destruct (pc d) eqn:Hpc;
    destruct l; unfold step in Hstep; rewrite Hpc in Hstep; try discriminate.
  - (* submit *)
    injection Hstep as <-. unfold submit.
    destruct (closed d); [exact Hinv |]. destruct (reaches _ _); [exact Hinv |].
    cbn [snd].
    set (e := {| payload := {| id := nextJobId d; job := j |} |}).
    set (d1 := set_nextJobId (nextJobId d + 1) d).
    destruct Hinv as [Hnodup Hbound].
    pose proof (known_head e d1) as Hsub.
    change (known_ids d1) with (known_ids d) in Hsub.
    change (entry_id e) with (nextJobId d) in Hsub.
    split.
    + apply (@sub_perm_NoDup _ _ Hsub). constructor; [| exact Hnodup].
      intros Hin. rewrite Forall_forall in Hbound. specialize (Hbound _ Hin). lia.
    + rewrite (proj1 (outsource_head_frame e d1)). cbn [nextJobId set_nextJobId d1].
      apply (@sub_perm_Forall _ _ _ Hsub). constructor; [lia |].
      eapply Forall_impl; [| exact Hbound]. cbn. intros; lia.
  - (* shutdown *)
    injection Hstep as <-. apply ids_inv_sub with d; [apply shutdown_frame | | exact Hinv].
    apply sub_perm_perm. apply known_shutdown.
  - (* message *)
    apply worker_event_frame in Hstep.
    destruct Hstep as (Hq & Hn & _ & _ & _ & Hs & _ & _ & w0 & _ & _ & Ht).
    apply ids_inv_same with d; auto.
    rewrite Ht. destruct (snd _); [apply settle_run_ids | reflexivity].
  - (* error *)
    apply worker_event_frame in Hstep.
    destruct Hstep as (Hq & Hn & _ & _ & _ & Hs & _ & _ & w0 & _ & _ & Ht).
    apply ids_inv_same with d; auto.
    rewrite Ht. destruct (snd _); [apply settle_run_ids | reflexivity].
  - (* resume *)
    destruct (take t0 (tasks d)) as [[[e|e w [r|]|w o|k s] rest]|] eqn:Ht;
      try discriminate.
    injection Hstep as <-.
    apply ids_inv_sub with d;
      [now rewrite (proj1 (proj2 (outsource_resume_frame _ _ _))) | | exact Hinv].
    apply sub_perm_perm. rewrite (known_take _ _ Ht). cbn [ids_of_task app].
    apply known_resume.
  - (* immediate *)
    destruct (take t0 (tasks d)) as [[[e|e w r|w o|k s] rest]|] eqn:Ht;
      try discriminate.
    injection Hstep as <-.
    apply ids_inv_sub with d;
      [now rewrite (proj1 (outsource_head_frame _ _)) | | exact Hinv].
    apply sub_perm_trans with (entry_id e :: known_ids (set_tasks rest d)).
    + apply known_head.
    + apply sub_perm_perm. exact (known_take _ _ Ht).
  - (* terminated *)
    destruct (take t0 (tasks d)) as [[[e|e w r|w o|k s] rest]|] eqn:Ht;
      try discriminate.
    pose proof (known_take _ _ Ht) as Hperm. cbn [ids_of_task app] in Hperm.
    assert (Hrest : ids_inv (set_tasks rest d)).
    { apply ids_inv_sub with d; [reflexivity | now apply sub_perm_perm | exact Hinv]. }
    destruct ok.
    + cbn [workers set_tasks] in Hstep.
      destruct (nth_error (workers d) w) as [w0|]; [| discriminate].
      injection Hstep as <-.
      destruct o as [k|].
      * match goal with
        | |- ids_inv (settle_sub ?k0 ?i0 ?s0 ?d0) =>
            destruct (settle_sub_frame k0 i0 s0 d0)
              as (_ & Hq & Hn & _ & _ & _ & Hts & Hs & _)
        end.
        apply ids_inv_same with (set_tasks rest d); auto. now rewrite Hts.
      * match goal with
        | |- ids_inv (outsource_after_terminate ?d0) =>
            destruct (outsource_after_terminate_frame d0)
              as (_ & Hq & Hn & _ & _ & Hts & Hs & _)
        end.
        apply ids_inv_same with (set_tasks rest d); auto. now rewrite Hts.
    + injection Hstep as <-. destruct o as [k|]; [| exact Hrest].
      destruct (settle_sub_frame k w SubRejected (set_tasks rest d))
        as (_ & Hq & Hn & _ & _ & _ & Hts & Hs & _).
      apply ids_inv_same with (set_tasks rest d); auto. now rewrite Hts.
  - (* poll *)
    destruct (take t0 (tasks d)) as [[[e|e w r|w o|k s] rest]|] eqn:Ht;
      try discriminate.
    pose proof (known_take _ _ Ht) as Hperm. cbn [ids_of_task app] in Hperm.
    assert (Hrest : ids_inv (set_tasks rest d)).
    { apply ids_inv_sub with d; [reflexivity | now apply sub_perm_perm | exact Hinv]. }
    destruct (workerShutdownComplete d); injection Hstep as <-; [| exact Hinv].
    destruct (settle_sub_frame k s SubFulfilled (set_tasks rest d))
      as (_ & Hq & Hn & _ & _ & _ & Hts & Hs & _).
    apply ids_inv_same with (set_tasks rest d); auto. now rewrite Hts.
  - (* the last lines of [#outsource] *)
    injection Hstep as <-.
    apply ids_inv_sub with d;
      [now rewrite (proj1 (proj2 (outsource_tail_frame d))) | | exact Hinv].
    apply sub_perm_perm. apply known_tail.
Qed.

Lemma ids_inv_reachable (size : nat) (b : Bound) (d : DBDispatcher.t) :
  reachable size b d -> ids_inv d.
Proof.
  intros [ls Hrun].
  assert (Hinit : ids_inv (create size b)) by (split; constructor).
  revert Hrun. generalize Hinit. generalize (create size b).
  induction ls as [|l ls IH]; intros d0 Hinv; cbn [run].
  - intros H. now injection H as <-.
  - destruct (step l d0) as [d1|] eqn:Hstep; [| discriminate].
    apply IH. eapply ids_inv_step; eassumption.
Qed.

Lemma NoDup_app_inv (l1 l2 : list Z) :
  NoDup (l1 ++ l2) ->
  NoDup l1 /\ NoDup l2 /\ (forall a, In a l1 -> In a l2 -> False).
Proof.
  intros H. split; [exact (NoDup_app_remove_r _ _ H) |].
  split; [exact (NoDup_app_remove_l _ _ H) |].
  induction l1 as [|x l1 IH]; [contradiction |].
  cbn in H. inversion H as [|? ? Hnot Hrest]; subst.
  intros a [<-|Ha] Hb.
  - apply Hnot. apply in_or_app. now right.
  - exact (IH Hrest a Ha Hb).
Qed.

Lemma awaiter_unique (l : list (Z * Result Value)) (i : Z) (r : Result Value) :
  NoDup (map fst l) -> In (i, r) l -> awaiter i l = Some r.
Proof.
  induction l as [|[j r'] l IH]; cbn; [contradiction |].
  intros Hnd [H|H].
  - injection H as -> ->. now rewrite Z.eqb_refl.
  - inversion Hnd as [|? ? Hnot Hnd']; subst.
    destruct (j =? i) eqn:E.
    + apply Z.eqb_eq in E. subst j. contradiction Hnot.
      exact (in_map fst _ _ H).
    + now apply IH.
Qed.

(** X15: every awaiter is settled at most once.  In every state a
    dispatcher can reach, [resolve] or [reject] has been called at most
    once for each job id, the id was handed out before, and the job is
    no longer in the queue nor held by any scheduled or suspended call of
    [#outsource]: a settled job is never run or settled again, and the
    state of its promise is the one call that was made. *)
Theorem awaiter_settled_once (size : nat) (b : Bound) (d : DBDispatcher.t) :
  reachable size b d ->
  NoDup (map fst (settlements d))
  /\ NoDup (pending_ids d)
  /\ forall i r, In (i, r) (settlements d) ->
       i < nextJobId d
       /\ awaiter i (settlements d) = Some r
       /\ ~ In i (pending_ids d).
Proof.
  intros Hreach. destruct (@ids_inv_reachable _ _ _ Hreach) as [Hnodup Hbound].
  unfold known_ids in Hnodup, Hbound. rewrite app_assoc in Hnodup, Hbound.
  fold (pending_ids d) in Hnodup, Hbound.
  apply NoDup_app_inv in Hnodup. destruct Hnodup as (Hp & Hs & Hdisj).
  split; [exact Hs |]. split; [exact Hp |].
  intros i r Hin. pose proof (in_map fst _ _ Hin) as Hi. cbn [fst] in Hi.
  split; [| split].
  - rewrite Forall_forall in Hbound. apply Hbound. apply in_or_app. now right.
  - now apply awaiter_unique.
  - intros Hpend. exact (Hdisj i Hpend Hi).
Qed.

Lemma awaiter_settled_once_witness :
  match run [LSubmit (control BeginTransaction);
             LMessage 0 {| msg_id := 1; msg_body := Ok VUndefined |};
             LResume 0; LTail] (create 1 Infinity) with
  | Some d => NoDup (map fst (settlements d))
  | None => False
  end.
Proof.
  assert (Hrun : exists d, run [LSubmit (control BeginTransaction);
                                LMessage 0 {| msg_id := 1; msg_body := Ok VUndefined |};
                                LResume 0; LTail] (create 1 Infinity) = Some d)
    by (eexists; vm_compute; reflexivity).
  destruct Hrun as [d Hrun]. rewrite Hrun.
  refine (proj1 (@awaiter_settled_once 1 Infinity d _)).
  eexists. exact Hrun.
Defined.

(* ===================================================================== *)
(** * Shutting down a dispatcher whose handles are idle                   *)
(* ===================================================================== *)

Lemma take_app_head {A : Type} (ts : list A) (x : A) (rest : list A) :
  take (List.length ts) (ts ++ x :: rest) = Some (x, (ts ++ rest)%list).
Proof.
  induction ts as [|t0 ts IH]; cbn; [reflexivity |]. now rewrite IH.
Qed.

Lemma nth_error_middle {A : Type} (l1 : list A) (x : A) (l2 : list A) :
  nth_error (l1 ++ x :: l2) (List.length l1) = Some x.
Proof.
  induction l1 as [|y l1 IH]; cbn; [reflexivity | exact IH].
Qed.

Lemma replace_nth_middle {A : Type} (l1 : list A) (x y : A) (l2 : list A) :
  replace_nth (List.length l1) y (l1 ++ x :: l2) = (l1 ++ y :: l2)%list.
Proof.
  induction l1 as [|z l1 IH]; cbn; [reflexivity |]. now rewrite IH.
Qed.

Lemma shutdown_workers_idle (k i : nat) (ws : list DBWorker.t) :
  Forall (fun w => DBWorker.busy w = false) ws ->
  map fst (shutdown_workers k i ws) = repeat SubPending (List.length ws)
  /\ map snd (shutdown_workers k i ws) = terminate_tasks k i (List.length ws).
Proof.
  intros Hidle. revert i. induction Hidle as [|w ws Hw _ IH]; intros i; cbn.
  - split; reflexivity.
  - destruct (IH (S i)) as [-> ->]. unfold shutdown_worker. rewrite Hw. cbn.
    split; reflexivity.
Qed.

(** The [terminate()] promises of the idle handles settle one after the
    other. *)
Lemma terminate_idle_handles (k : nat) (ts : list Task) (sh : list ShutdownCall)
    (snap : list Entry) (todo : list DBWorker.t) :
  forall (done : list DBWorker.t) (settled : list SubState) (d : DBDispatcher.t),
    pc d = Idle ->
    List.length sh = k ->
    List.length settled = List.length done ->
    workers d = (done ++ todo)%list ->
    tasks d = (ts ++ terminate_tasks k (List.length done) (List.length todo))%list ->
    shutdowns d
    = (sh ++ [{| subs := settled ++ repeat SubPending (List.length todo);
                 snapshot := snap |}])%list ->
    exists d',
      run (repeat (LTerminated (List.length ts) true) (List.length todo)) d = Some d'
      /\ pc d' = Idle
      /\ workers d' = (done ++ map DBWorker.terminated todo)%list
      /\ tasks d' = ts
      /\ shutdowns d'
         = (sh ++ [{| subs := settled ++ repeat SubFulfilled (List.length todo);
                      snapshot := snap |}])%list
      /\ queue d' = queue d /\ closed d' = closed d
      /\ settlements d' = settlements d /\ nextJobId d' = nextJobId d.
Proof.
  intros done settled d Hpc Hk; subst k; revert done settled d Hpc.
  induction todo as [|w todo IH]; intros done settled d Hpc Hlen Hws Hts Hsh.
  - exists d. cbn in *. rewrite app_nil_r in Hts. repeat split; assumption.
  - cbn [List.length repeat run terminate_tasks] in *.
    assert (Hslot : forall rest,
               replace_nth (List.length done) SubFulfilled (settled ++ SubPending :: rest)
               = (settled ++ SubFulfilled :: rest)%list)
      by (intros rest; rewrite <- Hlen; apply replace_nth_middle).
    unfold step. rewrite Hpc, Hts, take_app_head.
    cbn [workers set_tasks]. rewrite Hws, nth_error_middle, replace_nth_middle.
    unfold settle_sub. cbn [shutdowns set_workers set_tasks].
    rewrite Hsh, nth_error_middle, replace_nth_middle. cbn [subs snapshot].
    rewrite Hslot.
    match goal with |- exists d', run _ ?d1 = _ /\ _ => set (d2 := d1) end.
    destruct (IH (done ++ [DBWorker.terminated w])%list (settled ++ [SubFulfilled])%list d2)
      as (d' & Hrun & Hpc' & Hws' & Hts' & Hsh' & Hq' & Hc' & Hs' & Hn').
    + subst d2. cbn. exact Hpc.
    + rewrite !length_app. cbn. now rewrite Hlen.
    + subst d2. cbn. now rewrite <- app_assoc.
    + subst d2. cbn. rewrite length_app. cbn. now rewrite Nat.add_1_r.
    + subst d2. cbn. now rewrite <- app_assoc.
    + exists d'. rewrite Hrun, Hpc', Hws', Hts', Hsh', Hq', Hc', Hs', Hn'.
      rewrite <- !app_assoc. subst d2. cbn. repeat split.
Qed.

(** X16: shutting down a dispatcher whose handles are all idle comes to an
    end.  [shutdown()] calls [terminate()] on every handle; once these
    promises have settled, the promise of [shutdown()] has resolved, every
    handle is closed, the dispatcher is closed with an empty queue, and
    whatever was scheduled before is still scheduled. *)
Theorem idle_shutdown_resolves (d : DBDispatcher.t) :
  pc d = Idle ->
  Forall (fun w => DBWorker.busy w = false) (workers d) ->
  exists d',
    run (LShutdown :: repeat (LTerminated (List.length (tasks d)) true)
                        (List.length (workers d))) d = Some d'
    /\ shutdown_resolved (List.length (shutdowns d)) d' = true
    /\ all_closed d'
    /\ closed d' = true
    /\ queue d' = []
    /\ tasks d' = tasks d
    /\ nextJobId d' = nextJobId d.
Proof.
  intros Hpc Hidle.
  destruct (shutdown_frame d) as (Hw & Hn & _ & _ & Hp & Hq & Hc & _ & Ht & Hs).
  cbv zeta in *.
  destruct (shutdown_workers_idle (List.length (shutdowns d)) 0 Hidle) as [Hfst Hsnd].
  rewrite Hfst in Hs. rewrite Hsnd in Ht.
  destruct (@terminate_idle_handles (List.length (shutdowns d)) (tasks d) (shutdowns d)
              (queue d) (workers d) [] [] (shutdown d))
    as (d' & Hrun & Hpc' & Hws' & Hts' & Hsh' & Hq' & Hc' & _ & Hn');
    try reflexivity; try assumption.
  - now rewrite Hp.
  - exists d'. cbn [run]. unfold step at 1. rewrite Hpc. rewrite Hrun.
    split; [reflexivity |]. split; [| split; [| repeat split]].
    + unfold shutdown_resolved. rewrite Hsh', nth_error_middle. cbn [subs app].
      clear. induction (List.length (workers d)); cbn; [reflexivity | assumption].
    + intros w Hin. rewrite Hws' in Hin. cbn [app] in Hin.
      apply in_map_iff in Hin. destruct Hin as (w0 & <- & _). reflexivity.
    + now rewrite Hc'.
    + now rewrite Hq'.
    + exact Hts'.
    + now rewrite Hn'.
Qed.

Lemma idle_shutdown_resolves_witness :
  exists d',
    run [LShutdown; LTerminated 0 true; LTerminated 0 true] (create 2 Infinity) = Some d'
    /\ shutdown_resolved 0 d' = true
    /\ all_closed d'.
Proof.
  destruct (@idle_shutdown_resolves (create 2 Infinity))
    as (d' & Hrun & Hres & Hall & _).
  - reflexivity.
  - cbn. repeat constructor.
  - exists d'. repeat split; assumption.
Defined.

(* ===================================================================== *)
(** * [exec] from the application to the engine                           *)
(* ===================================================================== *)

Lemma join_empty_free (l : list string) :
  Forall placeholder_free l -> placeholder_free (join "" l).
Proof.
  unfold placeholder_free. induction 1 as [|x l Hx _ IH]; [reflexivity |].
  destruct l as [|y l]; [exact Hx |].
  rewrite join_cons. cbn [String.append]. rewrite occurrences_app, Hx, prefixed_empty.
  exact IH.
Qed.

Lemma join_empty_free_inv (l : list string) :
  placeholder_free (join "" l) -> Forall placeholder_free l.
Proof.
  unfold placeholder_free. induction l as [|x l IH]; [constructor |].
  destruct l as [|y l].
  - intros Hx. constructor; [exact Hx | constructor].
  - rewrite join_cons. cbn [String.append].
    rewrite occurrences_app, prefixed_empty. intros H.
    constructor; [lia |]. apply IH. lia.
Qed.

Lemma before_placeholder_whole (s : string) :
  before_placeholder s = s -> placeholder_free s.
Proof.
  unfold placeholder_free. induction s as [|a s IH]; cbn; [reflexivity |].
  destruct (Ascii.eqb a qmark); [discriminate |].
  intros H. apply IH. now injection H.
Qed.

(** X17: [db.exec] from the application to the engine, for every array of
    fragments.  Without values, [db.exec] submits one job; handled by the
    native binding's runtime, this job passes the engine the fragments
    glued together; handled by the built-in driver's runtime, it passes
    the engine that text up to its first "?", and this is the whole
    script exactly when no fragment contains a "?". *)
Theorem exec_reaches_engine (settle : list Job -> Job -> Result Value)
    (sqlite : Engine) (this : DB.Ref) (fragments : list string) (st : DB.Store)
    (conn : Conn) (rt : BetterRuntime.t) :
  exists j,
    DB.submitted (snd (DB.exec settle this fragments [] st) this)
    = (DB.submitted (st this) ++ [j])%list
    /\ BetterRuntime.db (snd (BetterRuntime.handle sqlite j rt))
       = (BetterRuntime.db rt ++ [CExec (Some (SqlString (join "" fragments)))])%list
    /\ snd (WorkerRuntime.handle sqlite j conn)
       = (conn ++ [CExec (Some (SqlString (before_placeholder (join "" fragments))))])%list
    /\ (snd (WorkerRuntime.handle sqlite j conn)
        = (conn ++ [CExec (Some (SqlString (join "" fragments)))])%list
        <-> Forall placeholder_free fragments).
Proof.
  exists (mkJob Exec (Some (SqlString (join "" fragments))) None None).
  split.
  - cbn. unfold DB.update. now rewrite Nat.eqb_refl.
  - split; [apply better_runtime_exec |].
    rewrite worker_runtime_exec. unfold call. cbn [snd].
    split; [reflexivity |]. split.
    + intros H. apply app_inv_head in H. injection H as H.
      apply join_empty_free_inv. now apply before_placeholder_whole.
    + intros Hfree. rewrite before_placeholder_free; [reflexivity |].
      now apply join_empty_free.
Qed.
